(** * Brawza: the browser automation agent orchestrator

    A shallow embedding of the orchestration core of the repository:
    the tool catalog and its safety table ([shared/browser-tools]), the
    automation driver wrapper ([PuppeteerManager]), the page-context
    extractor ([BrowserContextService]), the tool executor
    ([BrowserToolExecutor]) and the conversation loop ([BrowserAgent]).

    Conventions of the embedding.
    - JavaScript values of type [any] are terms of [JsVal]: the JSON values,
      [undefined] and [BigInt]s.  Numbers are the integer-valued ones.
    - A string is the sequence of its code units; the code units range over
      0..255, one [ascii] each.
    - An object is the list of its own enumerable properties in enumeration
      order (the order [Object.entries] yields them).
    - Asynchronous calls are sequenced as the [await]s sequence them; timers
      ([setTimeout] delays) only pass time and are left out.
    - Everything outside the repository (the Puppeteer page, the browser
      launcher, the AI backends, the clock) is an oracle of the environment
      [Env]; every call made to it is appended to the [trace] of the world. *)

From stdpp Require Import gmap strings list pretty sorting.
From Stdlib Require Import ZArith Ascii.

Local Open Scope Z_scope.
Local Set Warnings "-register-all".

(** ** JavaScript values *)

Inductive JsVal : Type :=
| VUndef
| VNull
| VBool (b : bool)
| VNum (n : Z)
| VBigInt (n : Z)
| VStr (s : string)
| VArr (items : list JsVal)
| VObj (props : list (string * JsVal)).

Global Instance JsVal_inhabited : Inhabited JsVal := populate VUndef.

(** The double quote character, for the message templates that contain it. *)
Definition dq : string := String (ascii_of_nat 34) EmptyString.

Module Js.

(** [ToBoolean]: what [if (v)], [!v], [a || b] and [c ? x : y] test. *)
Definition truthy (v : JsVal) : bool :=
  match v with
  | VUndef | VNull => false
  | VBool b => b
  | VNum n | VBigInt n => negb (n =? 0)
  | VStr s => negb (String.eqb s "")
  | VArr _ | VObj _ => true
  end.

(** [a || b] *)
Definition or (a b : JsVal) : JsVal := if truthy a then a else b.

(** [s || t] on strings *)
Definition or_str (s t : string) : string :=
  if String.eqb s "" then t else s.

(** [a === b].  Arrays and objects compare by identity; the embedding only
    compares values read from distinct replies, which are never identical. *)
Definition strict_eq (a b : JsVal) : bool :=
  match a, b with
  | VUndef, VUndef | VNull, VNull => true
  | VBool x, VBool y => Bool.eqb x y
  | VNum x, VNum y | VBigInt x, VBigInt y => x =? y
  | VStr x, VStr y => String.eqb x y
  | _, _ => false
  end.

Fixpoint assoc {A : Type} (k : string) (ps : list (string * A)) : option A :=
  match ps with
  | [] => None
  | (k', v) :: ps => if String.eqb k k' then Some v else assoc k ps
  end.

(** [o[k] = v] on an object: overwrite in place, or add as last property. *)
Fixpoint assign {A : Type} (k : string) (v : A) (ps : list (string * A))
  : list (string * A) :=
  match ps with
  | [] => [(k, v)]
  | (k', v') :: ps =>
      if String.eqb k k' then (k, v) :: ps else (k', v') :: assign k v ps
  end.

(** [v.k] for a value that is neither [undefined] nor [null]. *)
Definition prop (v : JsVal) (k : string) : JsVal :=
  match v with
  | VObj ps => default VUndef (assoc k ps)
  | VArr l => if String.eqb k "length" then VNum (Z.of_nat (length l)) else VUndef
  | VStr s => if String.eqb k "length" then VNum (Z.of_nat (String.length s)) else VUndef
  | _ => VUndef
  end.

Definition nullish (v : JsVal) : bool :=
  match v with VUndef | VNull => true | _ => false end.

(** [typeof v === 'object'] *)
Definition typeof_object (v : JsVal) : bool :=
  match v with VNull | VArr _ | VObj _ => true | _ => false end.

Fixpoint index_from (i : nat) (l : list JsVal) : list (string * JsVal) :=
  match l with
  | [] => []
  | v :: l => (pretty i, v) :: index_from (S i) l
  end.

(** [Object.entries(v)] for a truthy value. *)
Definition entries (v : JsVal) : list (string * JsVal) :=
  match v with
  | VObj ps => ps
  | VArr l => index_from 0%nat l
  | VStr s => index_from 0%nat ((λ c, VStr (String c EmptyString)) <$> String.list_ascii_of_string s)
  | _ => []
  end.

Fixpoint join (sep : string) (l : list string) : string :=
  match l with
  | [] => ""
  | [s] => s
  | s :: l => s +:+ sep +:+ join sep l
  end.

(** [String(v)], the conversion a template literal applies. *)
Fixpoint to_string (v : JsVal) : string :=
  match v with
  | VUndef => "undefined"
  | VNull => "null"
  | VBool true => "true"
  | VBool false => "false"
  | VNum n | VBigInt n => pretty n
  | VStr s => s
  | VArr l =>
      join "," (List.map (λ x, if nullish x then "" else to_string x) l)
  | VObj _ => "[object Object]"
  end.

(** [x = d] in a destructuring pattern: the default replaces [undefined]. *)
Definition with_default (v d : JsVal) : JsVal :=
  match v with VUndef => d | _ => v end.

(** Whether [v] is or holds a [BigInt], which [JSON.stringify] refuses. *)
Fixpoint has_bigint (v : JsVal) : bool :=
  match v with
  | VBigInt _ => true
  | VArr l => existsb has_bigint l
  | VObj ps => existsb (λ p, has_bigint p.2) ps
  | _ => false
  end.

End Js.

(** ** Strings as sequences of code units *)

Module Str.

Definition chars : string → list ascii := String.list_ascii_of_string.
Definition of_chars : list ascii → string := String.string_of_list_ascii.

Definition space : ascii := " "%char.

(** The class [\s] restricted to code units below 256: TAB, LF, VT, FF, CR,
    SPACE and NO-BREAK SPACE.  [trim] strips the same class. *)
Definition is_white (c : ascii) : bool :=
  match nat_of_ascii c with
  | 9%nat | 10%nat | 11%nat | 12%nat | 13%nat | 32%nat | 160%nat => true
  | _ => false
  end.

Definition is_newline (c : ascii) : bool :=
  match nat_of_ascii c with 10%nat => true | _ => false end.

(** [replace(/p+/g, ' ')] for a character class [p]: every maximal run of
    characters of the class becomes one space.  [in_run] tells that the
    previous character belonged to the run being replaced. *)
Fixpoint replace_runs_go (p : ascii → bool) (in_run : bool) (l : list ascii)
  : list ascii :=
  match l with
  | [] => []
  | c :: l' =>
      if p c then
        if in_run then replace_runs_go p true l'
        else space :: replace_runs_go p true l'
      else c :: replace_runs_go p false l'
  end.
Definition replace_runs (p : ascii → bool) (l : list ascii) : list ascii :=
  replace_runs_go p false l.

Fixpoint drop_while (p : ascii → bool) (l : list ascii) : list ascii :=
  match l with
  | [] => []
  | c :: l' => if p c then drop_while p l' else l
  end.

Definition trim_start (l : list ascii) : list ascii := drop_while is_white l.
Definition trim_end (l : list ascii) : list ascii :=
  reverse (drop_while is_white (reverse l)).
Definition trim (l : list ascii) : list ascii := trim_end (trim_start l).

(** [l.substring(0, n)]: a negative end counts as 0, one past the end as
    the length. *)
Definition substring0 (n : Z) (l : list ascii) : list ascii :=
  take (Z.to_nat n) l.

(** [l.lastIndexOf(c)], -1 when absent. *)
Fixpoint lastIndexOf_from (i : Z) (c : ascii) (l : list ascii) (found : Z) : Z :=
  match l with
  | [] => found
  | x :: l => lastIndexOf_from (i + 1) c l (if Ascii.eqb x c then i else found)
  end.
Definition lastIndexOf (c : ascii) (l : list ascii) : Z :=
  lastIndexOf_from 0 c l (-1).

End Str.

(** ** The tool catalog ([shared/browser-tools]) *)

Inductive ToolSafetyLevel := SAFE | MODERATE | DANGEROUS.

Global Instance ToolSafetyLevel_eq_dec : EqDecision ToolSafetyLevel.
Proof. solve_decision. Defined.

(** The enum is a string enum: these are the values its members hold at run
    time, and what a template literal prints for them. *)
Definition level_value (l : ToolSafetyLevel) : string :=
  match l with
  | SAFE => "safe"
  | MODERATE => "moderate"
  | DANGEROUS => "dangerous"
  end.

(** [a <= b] on two members of the enum is the relational operator on their
    string values: a comparison of code units, position by position. *)
Definition level_le (a b : ToolSafetyLevel) : bool :=
  String.leb (level_value a) (level_value b).

Record BrowserTool := {
  tool_name : string;
  tool_required : list string
}.

(** The registry, in declaration order (descriptions and property schemas
    are prompt text and are not carried). *)
Definition BROWSER_TOOLS : list BrowserTool :=
  [ {| tool_name := "navigate"; tool_required := ["url"] |};
    {| tool_name := "click"; tool_required := ["selector"] |};
    {| tool_name := "type"; tool_required := ["selector"; "text"] |};
    {| tool_name := "scroll"; tool_required := ["direction"] |};
    {| tool_name := "screenshot"; tool_required := [] |};
    {| tool_name := "extract_text"; tool_required := [] |};
    {| tool_name := "extract_links"; tool_required := [] |};
    {| tool_name := "wait_for_element"; tool_required := ["selector"] |};
    {| tool_name := "get_page_info"; tool_required := [] |};
    {| tool_name := "fill_form"; tool_required := ["fields"] |};
    {| tool_name := "evaluate_script"; tool_required := ["script"] |} ].

Inductive ToolFormat := OpenAIFunction | ClaudeTool | GeminiTool.

Definition getToolsForOpenAI : list (ToolFormat * BrowserTool) :=
  (λ t, (OpenAIFunction, t)) <$> BROWSER_TOOLS.
Definition getToolsForClaude : list (ToolFormat * BrowserTool) :=
  (λ t, (ClaudeTool, t)) <$> BROWSER_TOOLS.
Definition getToolsForGemini : list (ToolFormat * BrowserTool) :=
  (λ t, (GeminiTool, t)) <$> BROWSER_TOOLS.

Definition TOOL_SAFETY_LEVELS : gmap string ToolSafetyLevel :=
  list_to_map
    [ ("navigate", SAFE);
      ("screenshot", SAFE);
      ("extract_text", SAFE);
      ("extract_links", SAFE);
      ("get_page_info", SAFE);
      ("wait_for_element", SAFE);
      ("click", MODERATE);
      ("type", MODERATE);
      ("scroll", MODERATE);
      ("fill_form", DANGEROUS);
      ("evaluate_script", DANGEROUS) ].

(** [TOOL_SAFETY_LEVELS] is an object literal, so indexing it with a name
    that is not one of its keys still finds what every object inherits from
    [Object.prototype]: eleven built-in functions and, under ["__proto__"],
    the prototype itself.  Each member is kept as the text it converts to,
    which is all the executor uses of it: [String(f)] of a built-in function
    [f] as V8 prints it, and ["[object Object]"] for the prototype. *)
Definition native_function (name : string) : string :=
  "function " +:+ name +:+ "() { [native code] }".

Definition OBJECT_PROTOTYPE : list (string * string) :=
  [ ("constructor", native_function "Object");
    ("__defineGetter__", native_function "__defineGetter__");
    ("__defineSetter__", native_function "__defineSetter__");
    ("hasOwnProperty", native_function "hasOwnProperty");
    ("__lookupGetter__", native_function "__lookupGetter__");
    ("__lookupSetter__", native_function "__lookupSetter__");
    ("isPrototypeOf", native_function "isPrototypeOf");
    ("propertyIsEnumerable", native_function "propertyIsEnumerable");
    ("toString", native_function "toString");
    ("valueOf", native_function "valueOf");
    ("__proto__", "[object Object]");
    ("toLocaleString", native_function "toLocaleString") ].

(** What [TOOL_SAFETY_LEVELS[name] || ToolSafetyLevel.MODERATE] evaluates
    to: a member of the enum, or an inherited member of [Object.prototype]
    (a function or an object, hence truthy). *)
Inductive Resolved :=
| Level (l : ToolSafetyLevel)
| Inherited (text : string).
Coercion Level : ToolSafetyLevel >-> Resolved.

Global Instance Resolved_eq_dec : EqDecision Resolved.
Proof. solve_decision. Defined.

(** The string a resolved level converts to, in a template literal and as
    an operand of [<=]. *)
Definition resolved_text (r : Resolved) : string :=
  match r with
  | Level l => level_value l
  | Inherited text => text
  end.

(** [TOOL_SAFETY_LEVELS[name] || ToolSafetyLevel.MODERATE] *)
Definition safetyOf (name : string) : Resolved :=
  match TOOL_SAFETY_LEVELS !! name with
  | Some l => Level l
  | None =>
      match Js.assoc name OBJECT_PROTOTYPE with
      | Some text => Inherited text
      | None => Level MODERATE
      end
  end.

Module BrowserToolCall.
Record t := mk {
  id : string;
  name : string;
  arguments : list (string * JsVal)
}.
End BrowserToolCall.

Module BrowserToolResult.
Record t := mk {
  success : bool;
  data : JsVal;
  error : option string;
  screenshot : JsVal;
  message : option string
}.
(** A failed result carrying only an error string. *)
Definition failure (e : string) : t :=
  mk false VUndef (Some e) VUndef None.
End BrowserToolResult.

Module AutomationResult.
Record t := mk {
  success : bool;
  data : JsVal;
  error : option string;
  screenshot : JsVal
}.
Definition failure (e : string) : t := mk false VUndef (Some e) VUndef.
Definition ok (d : JsVal) : t := mk true d None VUndef.
End AutomationResult.

(** ** Page context ([shared/browser-context]) *)

Module BrowserContext.
Record t := mk {
  currentUrl : JsVal;
  pageTitle : JsVal;
  domain : JsVal;
  protocol : JsVal;
  pageContent : JsVal;
  contentSummary : option string;
  clickableElements : JsVal;
  formFields : JsVal;
  links : JsVal;
  buttons : JsVal;
  inputs : JsVal;
  screenshot : JsVal;
  viewportSize : JsVal;
  scrollPosition : JsVal;
  canGoBack : JsVal;
  canGoForward : JsVal;
  navigationHistory : JsVal;
  error : option string;
  timestamp : Z;
  loadTime : option Z
}.
End BrowserContext.

Record BrowserContextOptions := {
  includeScreenshot : option bool;
  includeFullContent : option bool;
  includeInvisibleElements : option bool;
  maxContentLength : option Z;
  maxElementsPerType : option Z
}.

(** [{}], the default options. *)
Definition no_options : BrowserContextOptions :=
  {| includeScreenshot := None; includeFullContent := None;
     includeInvisibleElements := None; maxContentLength := None;
     maxElementsPerType := None |}.

(** An optional boolean in a condition. *)
Definition flag (o : option bool) : bool := default false o.

(** [n || d] for an optional number. *)
Definition num_or (o : option Z) (d : Z) : Z :=
  match o with
  | Some n => if n =? 0 then d else n
  | None => d
  end.

(** ** Conversations ([ai/base-service], [ai/browser-agent]) *)

Inductive Role := system | user | assistant | tool.

Module AIMessage.
Record t := mk {
  role : Role;
  content : string;
  timestamp : option Z;
  toolCalls : option (list BrowserToolCall.t);
  toolCallId : option string
}.
End AIMessage.

Module AIResponse.
Record t := mk {
  content : string;
  toolCalls : option (list BrowserToolCall.t)
}.
End AIResponse.

Inductive AIServiceType := openai | gemini | claude.

Module AgentConversation.
Record t := mk {
  id : string;
  messages : list AIMessage.t;
  currentUrl : JsVal;
  pageId : string;
  createdAt : Z;
  lastActivity : Z
}.
End AgentConversation.

Module AgentExecutionOptions.
Record t := mk {
  serviceType : AIServiceType;
  pageId : string;
  autoConfirm : option bool;
  safetyLevel : option ToolSafetyLevel;
  maxIterations : option Z;
  includeScreenshot : option bool
}.
End AgentExecutionOptions.

Module ToolExecutionOptions.
Record t := mk {
  pageId : string;
  autoConfirm : option bool;
  safetyLevel : option ToolSafetyLevel;
  updateContext : option bool
}.
End ToolExecutionOptions.

Module AgentResponse.
Record t := mk {
  message : string;
  toolResults : list BrowserToolResult.t;
  contextUpdate : option string;
  screenshot : JsVal
}.
End AgentResponse.

(** ** The environment: page, launcher, backends, clock *)

(** The scripts handed to [page.evaluate].  Each template of the source is a
    constructor carrying the values the template interpolates. *)
Inductive Script :=
| SBodyInnerText
| SMetaInformation
| SAnchors
| SBasicPageInfo
| SInteractiveElements (includeInvisible : bool) (cap capClickable : Z)
| SNavigationState
| SViewportInfo
| SScrollBy (direction : string) (amount : JsVal)
| SExtractText (selector : JsVal)
| SBodyTextContent
| SExtractLinks (filter : option string)
| SWaitForElement (selector timeout : JsVal)
| SCallerScript (script : JsVal).

(** The methods of a Puppeteer [Page] the driver wrapper calls. *)
Inductive PageCall :=
| Goto (url : string)
| Url
| Title
| Evaluate (s : Script)
| Screenshot (fullPage : JsVal)
| WaitForSelector (selector : JsVal) (timeout : Z)
| Click (selector : JsVal)
| KeyboardDown (key : string)
| KeyboardPress (key : string)
| KeyboardUp (key : string)
| TypeInto (selector value : JsVal).

Inductive Event :=
| EvLaunch
| EvPage (pageId : string) (c : PageCall)
| EvSend (service : AIServiceType) (withTools : bool)
    (messages : list AIMessage.t) (tools : list (ToolFormat * BrowserTool)).

(** What a call yields: a value, or a thrown [Error] with its message. *)
Inductive Outcome (A : Type) :=
| Ret (a : A)
| Throw (msg : string).
Global Arguments Ret {A} a.
Global Arguments Throw {A} msg.

Record Env := {
  (** [Date.now()] at its n-th reading *)
  clock : nat → Z;
  (** [puppeteer.launch(...)], given the calls made so far *)
  launch : list Event → Outcome unit;
  (** a method of the page registered under an id *)
  page_call : list Event → string → PageCall → Outcome JsVal;
  (** [aiManager.getService(type)] is not null *)
  service_available : AIServiceType → bool;
  supportsToolCalling : AIServiceType → bool;
  (** [sendMessageWithTools] (with tools) or [sendMessage] of a backend *)
  backend : list Event → AIServiceType → bool → list AIMessage.t → Outcome AIResponse.t;
  (** the text of [JSON.stringify(v, null, 2)] on a value it serialises *)
  json_stringify : JsVal → string;
  (** The text [createContextualSystemPrompt] assembles from a snapshot, and
      the text [createContextSummary] assembles from the current one.  Both
      are templates over the fields of the snapshot; on the snapshots
      [extractContext] builds (collections that are [undefined] or arrays of
      records) they raise nothing, and no property below reads their
      wording. *)
  contextual_prompt : BrowserContext.t → string;
  context_summary : BrowserContext.t → string
}.

Record World := {
  trace : list Event;
  ticks : nat;
  browser : bool;
  isInitialized : bool;
  pages : gset string;
  currentContext : option BrowserContext.t;
  contextHistory : list BrowserContext.t;
  conversations : list (string * AgentConversation.t)
}.

(** ** Sequencing: state, and exceptions with [try]/[catch] *)

Definition M (A : Type) : Type := World → Outcome A * World.

Definition mret {A : Type} (a : A) : M A := λ w, (Ret a, w).

Definition throw {A : Type} (msg : string) : M A := λ w, (Throw msg, w).

(** A call that touches nothing: its value, or the error it raises. *)
Definition lift {A : Type} (o : Outcome A) : M A := λ w, (o, w).

Definition bind {A B : Type} (m : M A) (k : A → M B) : M B :=
  λ w, match m w with
       | (Ret a, w') => k a w'
       | (Throw msg, w') => (Throw msg, w')
       end.

(** [try { body } catch (error) { handler(error.message) }] *)
Definition try_catch {A : Type} (body : M A) (handler : string → M A) : M A :=
  λ w, match body w with
       | (Ret a, w') => (Ret a, w')
       | (Throw msg, w') => handler msg w'
       end.

Declare Scope prog_scope.
Delimit Scope prog_scope with prog.
Notation "'let!' x ':=' m 'in' k" := (bind m (λ x, k))
  (at level 10, x pattern, m at level 100, k at level 200) : prog_scope.
Notation "m ';;' k" := (bind m (λ _, k))
  (at level 100, k at level 200, right associativity) : prog_scope.
Local Open Scope prog_scope.

(** [v.k]: a [TypeError] when [v] is [undefined] or [null]. *)
Definition get (v : JsVal) (k : string) : M JsVal :=
  if Js.nullish v then
    throw ("Cannot read properties of " +:+ Js.to_string v +:+ " (reading '" +:+ k +:+ "')")
  else mret (Js.prop v k).

(** [v?.k] *)
Definition get_opt (v : JsVal) (k : string) : JsVal :=
  if Js.nullish v then VUndef else Js.prop v k.

(** [args.k] for the argument record of a tool call. *)
Definition arg (args : list (string * JsVal)) (k : string) : JsVal :=
  default VUndef (Js.assoc k args).

(** Updates of the world, field by field. *)
Definition log (e : Event) (w : World) : World :=
  {| trace := trace w ++ [e]; ticks := ticks w; browser := browser w;
     isInitialized := isInitialized w; pages := pages w;
     currentContext := currentContext w; contextHistory := contextHistory w;
     conversations := conversations w |}.

Definition tick (w : World) : World :=
  {| trace := trace w; ticks := S (ticks w); browser := browser w;
     isInitialized := isInitialized w; pages := pages w;
     currentContext := currentContext w; contextHistory := contextHistory w;
     conversations := conversations w |}.

Definition set_launched (w : World) : World :=
  {| trace := trace w; ticks := ticks w; browser := true;
     isInitialized := true; pages := pages w;
     currentContext := currentContext w; contextHistory := contextHistory w;
     conversations := conversations w |}.

Definition set_context (c : option BrowserContext.t) (h : list BrowserContext.t)
    (w : World) : World :=
  {| trace := trace w; ticks := ticks w; browser := browser w;
     isInitialized := isInitialized w; pages := pages w;
     currentContext := c; contextHistory := h;
     conversations := conversations w |}.

Definition set_conversations (cs : list (string * AgentConversation.t))
    (w : World) : World :=
  {| trace := trace w; ticks := ticks w; browser := browser w;
     isInitialized := isInitialized w; pages := pages w;
     currentContext := currentContext w; contextHistory := contextHistory w;
     conversations := cs |}.

(** ** Content summary ([BrowserContextService.createContentSummary]) *)

Definition ellipsis : list ascii := Str.chars "...".

(** [content.replace(/\s+/g, ' ').replace(/\n+/g, ' ').trim()] *)
Definition clean (content : list ascii) : list ascii :=
  Str.trim (Str.replace_runs Str.is_newline (Str.replace_runs Str.is_white content)).

(** The branch taken once [cleaned.length > maxLength].  The test
    [lastSpace > maxLength * 0.8] is on integers here: for an integer
    [maxLength] the double [maxLength * 0.8] and the rational [4*maxLength/5]
    lie on the same side of every integer, so the test is
    [5 * lastSpace > 4 * maxLength]. *)
Definition cut (cleaned : list ascii) (maxLength : Z) : list ascii :=
  let truncated := Str.substring0 maxLength cleaned in
  let lastSpace := Str.lastIndexOf Str.space truncated in
  if 4 * maxLength <? 5 * lastSpace then
    Str.substring0 lastSpace truncated ++ ellipsis
  else truncated ++ ellipsis.

(** The function on a string [content] that is not empty. *)
Definition summarize (content : list ascii) (maxLength : Z) : list ascii :=
  let cleaned := clean content in
  if Z.of_nat (length cleaned) <=? maxLength then cleaned
  else cut cleaned maxLength.

(** [createContentSummary(content, maxLength = 200)].  The caller passes what
    the page returned, which need not be a string: then [content.replace]
    is not a function. *)
Definition createContentSummary (content : JsVal) (maxLength : option Z)
  : Outcome string :=
  let maxLength := default 200 maxLength in
  if negb (Js.truthy content) || Js.strict_eq (Js.prop content "length") (VNum 0)
  then Ret "No content available"
  else match content with
       | VStr s => Ret (Str.of_chars (summarize (Str.chars s) maxLength))
       | _ => Throw "content.replace is not a function"
       end.

Section Program.

Context (E : Env).

(** [Date.now()] *)
Definition now : M Z := λ w, (Ret (clock E (ticks w)), tick w).

(** ** The automation driver wrapper ([PuppeteerManager]) *)

Definition page_do (pageId : string) (c : PageCall) : M JsVal :=
  λ w, (page_call E (trace w) pageId c, log (EvPage pageId c) w).

Definition launch_do : M unit :=
  λ w, (launch E (trace w), log EvLaunch w).

(** [this.pages.get(pageId)] is defined *)
Definition has_page (pageId : string) : M bool :=
  λ w, (Ret (bool_decide (pageId ∈ pages w)), w).

Definition page_not_found (pageId : string) : AutomationResult.t :=
  AutomationResult.failure ("Page " +:+ pageId +:+ " not found").

Definition isReady : M bool :=
  λ w, (Ret (isInitialized w && browser w), w).

Definition initialize : M bool :=
  try_catch
    (launch_do;;
     (λ w, (Ret tt, set_launched w));;
     mret true)
    (λ _, mret false).

Definition getPageInfo (pageId : string) : M JsVal :=
  let! present := has_page pageId in
  if negb present then mret VNull
  else
    try_catch
      (let! url := page_do pageId Url in
       let! title := page_do pageId Title in
       let! t := now in
       mret (VObj [("url", url); ("title", title); ("timestamp", VNum t)]))
      (λ _, mret VNull).

Definition startsWith (p s : string) : bool :=
  bool_decide (take (String.length p) (Str.chars s) = Str.chars p).

Definition navigateToUrl (pageId : string) (url : JsVal) : M AutomationResult.t :=
  let! present := has_page pageId in
  if negb present then mret (page_not_found pageId)
  else
    try_catch
      (let! url :=
         match url with
         | VStr s =>
             mret (if negb (startsWith "http://" s) && negb (startsWith "https://" s)
                   then "https://" +:+ s else s)
         | _ =>
             get url "startsWith";;
             throw "url.startsWith is not a function"
         end in
       let! response := page_do pageId (Goto url) in
       let! pageInfo := getPageInfo pageId in
       let! u := page_do pageId Url in
       let! t := page_do pageId Title in
       mret (AutomationResult.ok
               (VObj [("url", u); ("title", t);
                      ("status", get_opt response "status");
                      ("pageInfo", pageInfo)])))
      (λ msg, mret (AutomationResult.failure ("Navigation failed: " +:+ msg))).

(** [getPageContent(pageId, false)] *)
Definition getPageContent (pageId : string) : M AutomationResult.t :=
  let! present := has_page pageId in
  if negb present then mret (page_not_found pageId)
  else
    try_catch
      (let! text := page_do pageId (Evaluate SBodyInnerText) in
       let! meta := page_do pageId (Evaluate SMetaInformation) in
       let! links := page_do pageId (Evaluate SAnchors) in
       mret (AutomationResult.ok
               (VObj [("text", text); ("meta", meta); ("links", links)])))
      (λ msg, mret (AutomationResult.failure ("Failed to get content: " +:+ msg))).

Definition takeScreenshot (pageId : string) (fullPage : JsVal) : M AutomationResult.t :=
  let! present := has_page pageId in
  if negb present then mret (page_not_found pageId)
  else
    try_catch
      (let! shot := page_do pageId (Screenshot fullPage) in
       mret (AutomationResult.mk true (VObj [("screenshot", shot)]) None shot))
      (λ msg, mret (AutomationResult.failure ("Screenshot failed: " +:+ msg))).

Definition clickElement (pageId : string) (selector : JsVal) : M AutomationResult.t :=
  let! present := has_page pageId in
  if negb present then mret (page_not_found pageId)
  else
    try_catch
      (page_do pageId (WaitForSelector selector 5000);;
       page_do pageId (Click selector);;
       let! u := page_do pageId Url in
       mret (AutomationResult.ok (VObj [("clicked", selector); ("currentUrl", u)])))
      (λ msg, mret (AutomationResult.failure ("Click failed: " +:+ msg))).

(** The body of the inner [try] of [fillForm], for one entry. *)
Definition fill_field (pageId selector : string) (value : JsVal) : M unit :=
  page_do pageId (WaitForSelector (VStr selector) 3000);;
  page_do pageId (Click (VStr selector));;
  page_do pageId (KeyboardDown "Control");;
  page_do pageId (KeyboardPress "KeyA");;
  page_do pageId (KeyboardUp "Control");;
  page_do pageId (TypeInto (VStr selector) value);;
  mret tt.

(** The [for ... of Object.entries(formData)] loop; [results] is the
    object the loop fills. *)
Fixpoint fill_fields (pageId : string) (fields : list (string * JsVal))
    (results : list (string * JsVal)) : M (list (string * JsVal)) :=
  match fields with
  | [] => mret results
  | (selector, value) :: rest =>
      let! filled :=
        try_catch (fill_field pageId selector value;; mret true)
                  (λ _, mret false) in
      fill_fields pageId rest (Js.assign selector (VBool filled) results)
  end.

Definition fillForm (pageId : string) (formData : JsVal) : M AutomationResult.t :=
  let! present := has_page pageId in
  if negb present then mret (page_not_found pageId)
  else
    try_catch
      (let! results := fill_fields pageId (Js.entries formData) [] in
       let! u := page_do pageId Url in
       mret (AutomationResult.ok
               (VObj [("formData", VObj results); ("currentUrl", u)])))
      (λ msg, mret (AutomationResult.failure ("Form fill failed: " +:+ msg))).

Definition evaluateScript (pageId : string) (script : Script) : M AutomationResult.t :=
  let! present := has_page pageId in
  if negb present then mret (page_not_found pageId)
  else
    try_catch
      (let! result := page_do pageId (Evaluate script) in
       mret (AutomationResult.ok (VObj [("result", result)])))
      (λ msg, mret (AutomationResult.failure ("Script evaluation failed: " +:+ msg))).

(** ** Context extraction ([BrowserContextService]) *)

Definition getBasicPageInfo (pageId : string) : M JsVal :=
  let! result := evaluateScript pageId SBasicPageInfo in
  if AutomationResult.success result then mret (AutomationResult.data result)
  else
    mret (VObj [("url", VStr "unknown"); ("title", VStr "Unknown");
                ("domain", VStr "unknown"); ("protocol", VStr "unknown")]).

Definition extractInteractiveElements (pageId : string)
    (options : BrowserContextOptions) : M JsVal :=
  let script :=
    SInteractiveElements (flag (includeInvisibleElements options))
      (num_or (maxElementsPerType options) 20)
      (num_or (maxElementsPerType options) 30) in
  let! result := evaluateScript pageId script in
  if AutomationResult.success result then mret (AutomationResult.data result)
  else
    mret (VObj [("clickable", VArr []); ("forms", VArr []); ("links", VArr []);
                ("buttons", VArr []); ("inputs", VArr [])]).

Definition getNavigationState (pageId : string) : M JsVal :=
  let! result := evaluateScript pageId SNavigationState in
  if AutomationResult.success result then mret (AutomationResult.data result)
  else
    mret (VObj [("canGoBack", VBool false); ("canGoForward", VBool false);
                ("history", VArr [])]).

Definition getViewportInfo (pageId : string) : M JsVal :=
  let! result := evaluateScript pageId SViewportInfo in
  if AutomationResult.success result then mret (AutomationResult.data result)
  else
    mret (VObj [("viewport", VObj [("width", VNum 1366); ("height", VNum 768)]);
                ("scroll", VObj [("x", VNum 0); ("y", VNum 0)])]).

(** The [catch] block of [extractContext]. *)
Definition minimal_context (msg : string) : M BrowserContext.t :=
  let! t := now in
  mret {| BrowserContext.currentUrl := VStr "unknown";
          BrowserContext.pageTitle := VStr "Error";
          BrowserContext.domain := VStr "unknown";
          BrowserContext.protocol := VStr "unknown";
          BrowserContext.pageContent := VStr "";
          BrowserContext.contentSummary := None;
          BrowserContext.clickableElements := VArr [];
          BrowserContext.formFields := VArr [];
          BrowserContext.links := VArr [];
          BrowserContext.buttons := VArr [];
          BrowserContext.inputs := VArr [];
          BrowserContext.screenshot := VUndef;
          BrowserContext.viewportSize := VObj [("width", VNum 0); ("height", VNum 0)];
          BrowserContext.scrollPosition := VObj [("x", VNum 0); ("y", VNum 0)];
          BrowserContext.canGoBack := VBool false;
          BrowserContext.canGoForward := VBool false;
          BrowserContext.navigationHistory := VArr [];
          BrowserContext.error := Some msg;
          BrowserContext.timestamp := t;
          BrowserContext.loadTime := None |}.

(** The [try] block of [extractContext]. *)
Definition extract_body (pageId : string) (options : BrowserContextOptions)
  : M BrowserContext.t :=
  let! startTime := now in
  let! pageInfo := getBasicPageInfo pageId in
  let! contentResult := getPageContent pageId in
  let pageContent :=
    if AutomationResult.success contentResult
    then Js.or (get_opt (AutomationResult.data contentResult) "text") (VStr "")
    else VStr "" in
  let! elements := extractInteractiveElements pageId options in
  let! navigationState := getNavigationState pageId in
  let! viewportInfo := getViewportInfo pageId in
  let! screenshot :=
    if flag (includeScreenshot options) then
      let! screenshotResult := takeScreenshot pageId (VBool false) in
      mret (if AutomationResult.success screenshotResult
            then AutomationResult.screenshot screenshotResult else VUndef)
    else mret VUndef in
  let! currentUrl := get pageInfo "url" in
  let! pageTitle := get pageInfo "title" in
  let! domain := get pageInfo "domain" in
  let! protocol := get pageInfo "protocol" in
  let! contentSummary :=
    (λ w, (createContentSummary pageContent (maxContentLength options), w)) in
  let! clickable := get elements "clickable" in
  let! forms := get elements "forms" in
  let! links := get elements "links" in
  let! buttons := get elements "buttons" in
  let! inputs := get elements "inputs" in
  let! viewport := get viewportInfo "viewport" in
  let! scroll := get viewportInfo "scroll" in
  let! canGoBack := get navigationState "canGoBack" in
  let! canGoForward := get navigationState "canGoForward" in
  let! history := get navigationState "history" in
  let! timestamp := now in
  let! finished := now in
  mret {| BrowserContext.currentUrl := currentUrl;
          BrowserContext.pageTitle := pageTitle;
          BrowserContext.domain := domain;
          BrowserContext.protocol := protocol;
          BrowserContext.pageContent := pageContent;
          BrowserContext.contentSummary := Some contentSummary;
          BrowserContext.clickableElements := clickable;
          BrowserContext.formFields := forms;
          BrowserContext.links := links;
          BrowserContext.buttons := buttons;
          BrowserContext.inputs := inputs;
          BrowserContext.screenshot := screenshot;
          BrowserContext.viewportSize := viewport;
          BrowserContext.scrollPosition := scroll;
          BrowserContext.canGoBack := canGoBack;
          BrowserContext.canGoForward := canGoForward;
          BrowserContext.navigationHistory := history;
          BrowserContext.error := None;
          BrowserContext.timestamp := timestamp;
          BrowserContext.loadTime := Some (finished - startTime) |}.

Definition extractContext (pageId : string) (options : BrowserContextOptions)
  : M BrowserContext.t :=
  try_catch (extract_body pageId options) minimal_context.

(** ** The context manager ([BrowserContextManager]) *)

Definition maxHistorySize : nat := 10.

(** [contextManager.updateContext(context)]: [push], then [shift] once the
    history is longer than its bound. *)
Definition manager_updateContext (context : BrowserContext.t) : M unit :=
  λ w,
    let history :=
      match currentContext w with
      | Some previous =>
          let pushed := contextHistory w ++ [previous] in
          if bool_decide (maxHistorySize < length pushed)%nat
          then drop 1 pushed else pushed
      | None => contextHistory w
      end in
    (Ret tt, set_context (Some context) history w).

Definition getCurrentContext : M (option BrowserContext.t) :=
  λ w, (Ret (currentContext w), w).

(** [createContextSummary(options)] *)
Definition getContextSummary : M string :=
  λ w, (Ret match currentContext w with
            | None => "No browser context available."
            | Some ctx => context_summary E ctx
            end, w).

(** ** The tool executor ([BrowserToolExecutor]) *)

(** [executor.updateContext(pageId, options)] *)
Definition updateContext (pageId : string) (options : BrowserContextOptions)
  : M BrowserContext.t :=
  let! context := extractContext pageId options in
  manager_updateContext context;;
  mret context.

(** [safetyLevel <= granted]: both operands convert to strings, which are
    compared code unit by code unit. *)
Definition resolved_le (safetyLevel : Resolved) (granted : ToolSafetyLevel) : bool :=
  String.leb (resolved_text safetyLevel) (level_value granted).

Definition canExecuteTool (toolName : string) (safetyLevel : Resolved)
    (options : ToolExecutionOptions.t) : bool :=
  if flag (ToolExecutionOptions.autoConfirm options) then true
  else
    bool_decide (safetyLevel = SAFE) ||
    match ToolExecutionOptions.safetyLevel options with
    | Some granted => resolved_le safetyLevel granted
    | None => false
    end.

(** [{ success: result.success, error: result.error, data, screenshot,
    message }] as the tool implementations build it. *)
Definition tool_result (result : AutomationResult.t) (data screenshot : JsVal)
    (message : option string) : BrowserToolResult.t :=
  {| BrowserToolResult.success := AutomationResult.success result;
     BrowserToolResult.data := data;
     BrowserToolResult.error := AutomationResult.error result;
     BrowserToolResult.screenshot := screenshot;
     BrowserToolResult.message := message |}.

(** [result.success ? text : undefined] *)
Definition on_success (result : AutomationResult.t) (text : string) : option string :=
  if AutomationResult.success result then Some text else None.

Definition executeNavigate (args : list (string * JsVal))
    (options : ToolExecutionOptions.t) : M BrowserToolResult.t :=
  let url := arg args "url" in
  if negb (Js.truthy url) then
    mret (BrowserToolResult.failure "URL is required for navigation")
  else
    let! result := navigateToUrl (ToolExecutionOptions.pageId options) url in
    mret (tool_result result VUndef VUndef
            (on_success result ("Navigated to " +:+ Js.to_string url))).

Definition executeClick (args : list (string * JsVal))
    (options : ToolExecutionOptions.t) : M BrowserToolResult.t :=
  let selector := arg args "selector" in
  let description := arg args "description" in
  if negb (Js.truthy selector) then
    mret (BrowserToolResult.failure "Selector is required for click action")
  else
    let! result := clickElement (ToolExecutionOptions.pageId options) selector in
    mret (tool_result result VUndef VUndef
            (on_success result
               ("Clicked " +:+ Js.to_string (Js.or description selector)))).

Definition executeType (args : list (string * JsVal))
    (options : ToolExecutionOptions.t) : M BrowserToolResult.t :=
  let selector := arg args "selector" in
  let text := arg args "text" in
  if negb (Js.truthy selector) || negb (Js.truthy text) then
    mret (BrowserToolResult.failure "Selector and text are required for type action")
  else
    let formData := VObj [(Js.to_string selector, text)] in
    let! result := fillForm (ToolExecutionOptions.pageId options) formData in
    mret (tool_result result VUndef VUndef
            (on_success result
               ("Typed " +:+ dq +:+ Js.to_string text +:+ dq +:+ " into "
                +:+ Js.to_string selector))).

Definition executeScroll (args : list (string * JsVal))
    (options : ToolExecutionOptions.t) : M BrowserToolResult.t :=
  let direction := arg args "direction" in
  let amount := Js.with_default (arg args "amount") (VNum 500) in
  if negb (Js.truthy direction) then
    mret (BrowserToolResult.failure "Direction is required for scroll action")
  else
    let known :=
      match direction with
      | VStr d =>
          if String.eqb d "up" || String.eqb d "down"
             || String.eqb d "left" || String.eqb d "right"
          then Some d else None
      | _ => None
      end in
    match known with
    | None =>
        mret (BrowserToolResult.failure
                ("Invalid scroll direction: " +:+ Js.to_string direction))
    | Some d =>
        let! result :=
          evaluateScript (ToolExecutionOptions.pageId options) (SScrollBy d amount) in
        mret (tool_result result VUndef VUndef
                (on_success result
                   ("Scrolled " +:+ d +:+ " by " +:+ Js.to_string amount +:+ "px")))
    end.

Definition executeScreenshot (args : list (string * JsVal))
    (options : ToolExecutionOptions.t) : M BrowserToolResult.t :=
  let fullPage := Js.with_default (arg args "fullPage") (VBool false) in
  let! result := takeScreenshot (ToolExecutionOptions.pageId options) fullPage in
  mret (tool_result result VUndef (AutomationResult.screenshot result)
          (on_success result "Screenshot captured")).

(** [result.success ? result.data : undefined] *)
Definition data_on_success (result : AutomationResult.t) : JsVal :=
  if AutomationResult.success result then AutomationResult.data result else VUndef.

Definition executeExtractText (args : list (string * JsVal))
    (options : ToolExecutionOptions.t) : M BrowserToolResult.t :=
  let selector := arg args "selector" in
  let script :=
    if Js.truthy selector then SExtractText selector else SBodyTextContent in
  let! result := evaluateScript (ToolExecutionOptions.pageId options) script in
  mret (tool_result result (data_on_success result) VUndef
          (on_success result
             ("Extracted text" +:+
              (if Js.truthy selector then " from " +:+ Js.to_string selector else "")))).

Definition executeExtractLinks (args : list (string * JsVal))
    (options : ToolExecutionOptions.t) : M BrowserToolResult.t :=
  let filter := arg args "filter" in
  let! script :=
    if Js.truthy filter then
      match filter with
      | VStr f => mret (SExtractLinks (Some f))
      | _ => throw "filter.toLowerCase is not a function"
      end
    else mret (SExtractLinks None) in
  let! result := evaluateScript (ToolExecutionOptions.pageId options) script in
  mret (tool_result result (data_on_success result) VUndef
          (on_success result
             ("Extracted " +:+
              Js.to_string (Js.or (get_opt (AutomationResult.data result) "length") (VNum 0))
              +:+ " links"))).

Definition executeWaitForElement (args : list (string * JsVal))
    (options : ToolExecutionOptions.t) : M BrowserToolResult.t :=
  let selector := arg args "selector" in
  let timeout := Js.with_default (arg args "timeout") (VNum 5000) in
  if negb (Js.truthy selector) then
    mret (BrowserToolResult.failure "Selector is required for wait action")
  else
    let! result :=
      evaluateScript (ToolExecutionOptions.pageId options)
        (SWaitForElement selector timeout) in
    mret (tool_result result VUndef VUndef
            (Some (if AutomationResult.success result
                   then "Element " +:+ Js.to_string selector +:+ " found"
                   else "Element " +:+ Js.to_string selector +:+ " not found within "
                        +:+ Js.to_string timeout +:+ "ms"))).

Definition executeGetPageInfo (args : list (string * JsVal))
    (options : ToolExecutionOptions.t) : M BrowserToolResult.t :=
  try_catch
    (let! context :=
       extractContext (ToolExecutionOptions.pageId options)
         {| includeScreenshot := Some false; includeFullContent := None;
            includeInvisibleElements := None; maxContentLength := Some 500;
            maxElementsPerType := None |} in
     let! buttons := get (BrowserContext.buttons context) "length" in
     let! links := get (BrowserContext.links context) "length" in
     let! formFields := get (BrowserContext.formFields context) "length" in
     let pageInfo :=
       VObj [("url", BrowserContext.currentUrl context);
             ("title", BrowserContext.pageTitle context);
             ("domain", BrowserContext.domain context);
             ("buttons", buttons); ("links", links); ("formFields", formFields);
             ("canGoBack", BrowserContext.canGoBack context);
             ("canGoForward", BrowserContext.canGoForward context)] in
     mret {| BrowserToolResult.success := true;
             BrowserToolResult.data := pageInfo;
             BrowserToolResult.error := None;
             BrowserToolResult.screenshot := VUndef;
             BrowserToolResult.message := Some "Page information extracted" |})
    (λ msg, mret (BrowserToolResult.failure ("Failed to get page info: " +:+ msg))).

Definition executeFillForm (args : list (string * JsVal))
    (options : ToolExecutionOptions.t) : M BrowserToolResult.t :=
  let fields := arg args "fields" in
  if negb (Js.truthy fields) || negb (Js.typeof_object fields) then
    mret (BrowserToolResult.failure "Fields object is required for form filling")
  else
    let! result := fillForm (ToolExecutionOptions.pageId options) fields in
    mret (tool_result result VUndef VUndef
            (on_success result
               ("Filled " +:+ pretty (length (Js.entries fields)) +:+ " form fields"))).

Definition executeEvaluateScript (args : list (string * JsVal))
    (options : ToolExecutionOptions.t) : M BrowserToolResult.t :=
  let script := arg args "script" in
  if negb (Js.truthy script) then
    mret (BrowserToolResult.failure "Script is required for evaluation")
  else
    let! result :=
      evaluateScript (ToolExecutionOptions.pageId options) (SCallerScript script) in
    mret (tool_result result (data_on_success result) VUndef
            (on_success result "Script executed successfully")).

(** The [switch (toolCall.name)] of [executeTool]. *)
Definition dispatch (toolCall : BrowserToolCall.t) (options : ToolExecutionOptions.t)
  : M BrowserToolResult.t :=
  let name := BrowserToolCall.name toolCall in
  let args := BrowserToolCall.arguments toolCall in
  if String.eqb name "navigate" then executeNavigate args options
  else if String.eqb name "click" then executeClick args options
  else if String.eqb name "type" then executeType args options
  else if String.eqb name "scroll" then executeScroll args options
  else if String.eqb name "screenshot" then executeScreenshot args options
  else if String.eqb name "extract_text" then executeExtractText args options
  else if String.eqb name "extract_links" then executeExtractLinks args options
  else if String.eqb name "wait_for_element" then executeWaitForElement args options
  else if String.eqb name "get_page_info" then executeGetPageInfo args options
  else if String.eqb name "fill_form" then executeFillForm args options
  else if String.eqb name "evaluate_script" then executeEvaluateScript args options
  else mret (BrowserToolResult.failure ("Unknown tool: " +:+ name)).

(** The message pair of a refused call. *)
Definition confirmation_required (name : string) (safetyLevel : Resolved)
  : BrowserToolResult.t :=
  {| BrowserToolResult.success := false;
     BrowserToolResult.data := VUndef;
     BrowserToolResult.error :=
       Some ("Tool " +:+ name +:+ " requires " +:+ resolved_text safetyLevel
             +:+ " permission level");
     BrowserToolResult.screenshot := VUndef;
     BrowserToolResult.message := Some ("Please confirm execution of " +:+ name) |}.

(** The [try] block of [executeTool]. *)
Definition executeTool_body (toolCall : BrowserToolCall.t)
    (options : ToolExecutionOptions.t) : M BrowserToolResult.t :=
  let name := BrowserToolCall.name toolCall in
  let safetyLevel := safetyOf name in
  if negb (canExecuteTool name safetyLevel options) then
    mret (confirmation_required name safetyLevel)
  else
    let! ready := isReady in
    let! initialized := if negb ready then initialize else mret true in
    if negb initialized then
      mret (BrowserToolResult.failure "Failed to initialize browser automation")
    else
      let! result := dispatch toolCall options in
      (if flag (ToolExecutionOptions.updateContext options)
          && BrowserToolResult.success result
       then
         try_catch
           (let! newContext :=
              extractContext (ToolExecutionOptions.pageId options)
                {| includeScreenshot := Some false; includeFullContent := None;
                   includeInvisibleElements := None; maxContentLength := Some 1000;
                   maxElementsPerType := None |} in
            manager_updateContext newContext)
           (λ _, mret tt)
       else mret tt);;
      mret result.

Definition executeTool (toolCall : BrowserToolCall.t)
    (options : ToolExecutionOptions.t) : M BrowserToolResult.t :=
  try_catch (executeTool_body toolCall options)
    (λ msg, mret (BrowserToolResult.failure ("Tool execution failed: " +:+ msg))).

(** ** The conversation loop ([BrowserAgent]) *)

(** The [Map] of conversations keeps insertion order: [get], [set] (an
    existing key keeps its place, a new one goes last) and [delete]. *)
Definition store_get (id : string) (cs : list (string * AgentConversation.t))
  : option AgentConversation.t := Js.assoc id cs.

Definition store_set (id : string) (c : AgentConversation.t)
    (cs : list (string * AgentConversation.t)) : list (string * AgentConversation.t) :=
  Js.assign id c cs.

Definition store_delete (id : string) (cs : list (string * AgentConversation.t))
  : list (string * AgentConversation.t) :=
  filter (λ e, e.1 ≠ id) cs.

Definition put (conversation : AgentConversation.t) : M unit :=
  λ w, (Ret tt,
        set_conversations
          (store_set (AgentConversation.id conversation) conversation (conversations w)) w).

Definition with_lastActivity (t : Z) (c : AgentConversation.t) : AgentConversation.t :=
  {| AgentConversation.id := AgentConversation.id c;
     AgentConversation.messages := AgentConversation.messages c;
     AgentConversation.currentUrl := AgentConversation.currentUrl c;
     AgentConversation.pageId := AgentConversation.pageId c;
     AgentConversation.createdAt := AgentConversation.createdAt c;
     AgentConversation.lastActivity := t |}.

Definition with_currentUrl (u : JsVal) (c : AgentConversation.t) : AgentConversation.t :=
  {| AgentConversation.id := AgentConversation.id c;
     AgentConversation.messages := AgentConversation.messages c;
     AgentConversation.currentUrl := u;
     AgentConversation.pageId := AgentConversation.pageId c;
     AgentConversation.createdAt := AgentConversation.createdAt c;
     AgentConversation.lastActivity := AgentConversation.lastActivity c |}.

Definition with_message (m : AIMessage.t) (c : AgentConversation.t) : AgentConversation.t :=
  {| AgentConversation.id := AgentConversation.id c;
     AgentConversation.messages := AgentConversation.messages c ++ [m];
     AgentConversation.currentUrl := AgentConversation.currentUrl c;
     AgentConversation.pageId := AgentConversation.pageId c;
     AgentConversation.createdAt := AgentConversation.createdAt c;
     AgentConversation.lastActivity := AgentConversation.lastActivity c |}.

(** The conversation is one object shared by the store and the turn that
    runs on it: every mutation is written through to the store. *)
Definition push (m : AIMessage.t) (conversation : AgentConversation.t)
  : M AgentConversation.t :=
  let conversation := with_message m conversation in
  put conversation;; mret conversation.

Definition createOrGetConversation (id pageId : string) (initialUrl : JsVal)
  : M AgentConversation.t :=
  let! existing := (λ w, (Ret (store_get id (conversations w)), w)) in
  match existing with
  | Some conversation =>
      let! t := now in
      let conversation := with_lastActivity t conversation in
      put conversation;; mret conversation
  | None =>
      let! created := now in
      let! active := now in
      let conversation :=
        {| AgentConversation.id := id;
           AgentConversation.messages := [];
           AgentConversation.currentUrl := initialUrl;
           AgentConversation.pageId := pageId;
           AgentConversation.createdAt := created;
           AgentConversation.lastActivity := active |} in
      (λ w, (Ret tt, set_conversations (store_set id conversation (conversations w)) w));;
      mret conversation
  end.

Definition hasContextChanged (conversation : AgentConversation.t)
    (context : BrowserContext.t) : M (bool * AgentConversation.t) :=
  if negb (Js.truthy (AgentConversation.currentUrl conversation))
     || negb (Js.strict_eq (AgentConversation.currentUrl conversation)
                (BrowserContext.currentUrl context))
  then
    let conversation := with_currentUrl (BrowserContext.currentUrl context) conversation in
    put conversation;; mret (true, conversation)
  else mret (false, conversation).

Definition getToolsForService (serviceType : AIServiceType)
  : list (ToolFormat * BrowserTool) :=
  match serviceType with
  | openai => getToolsForOpenAI
  | claude => getToolsForClaude
  | gemini => []
  end.

(** A call to the backend: [sendMessageWithTools] or [sendMessage]. *)
Definition send (service : AIServiceType) (withTools : bool)
    (messages : list AIMessage.t) (tools : list (ToolFormat * BrowserTool))
  : M AIResponse.t :=
  λ w, (backend E (trace w) service withTools messages,
        log (EvSend service withTools messages (if withTools then tools else [])) w).

Definition newline : string := String (ascii_of_nat 10) EmptyString.

(** [JSON.stringify(v, null, 2)]: a [TypeError] when a [BigInt] is met in
    the value, the text otherwise. *)
Definition stringify (v : JsVal) : Outcome string :=
  if Js.has_bigint v then Throw "Do not know how to serialize a BigInt"
  else Ret (json_stringify E v).

Definition formatToolResult (result : BrowserToolResult.t) : Outcome string :=
  if negb (BrowserToolResult.success result) then
    Ret ("Error: " +:+ default "undefined" (BrowserToolResult.error result))
  else
    let response :=
      Js.or_str (default "" (BrowserToolResult.message result))
        "Action completed successfully" in
    let data := BrowserToolResult.data result in
    if Js.truthy data then
      match data with
      | VStr d => Ret (response +:+ newline +:+ "Result: " +:+ d)
      | _ =>
          match stringify data with
          | Ret text => Ret (response +:+ newline +:+ "Result: " +:+ text)
          | Throw msg => Throw msg
          end
      end
    else Ret response.

Definition execution_options (options : AgentExecutionOptions.t)
  : ToolExecutionOptions.t :=
  {| ToolExecutionOptions.pageId := AgentExecutionOptions.pageId options;
     ToolExecutionOptions.autoConfirm := AgentExecutionOptions.autoConfirm options;
     ToolExecutionOptions.safetyLevel := AgentExecutionOptions.safetyLevel options;
     ToolExecutionOptions.updateContext := Some true |}.

(** The [for ... of toolCalls] loop; [results] is the array it pushes to. *)
Fixpoint executeToolCalls_from (toolCalls : list BrowserToolCall.t)
    (options : AgentExecutionOptions.t) (results : list BrowserToolResult.t)
  : M (list BrowserToolResult.t) :=
  match toolCalls with
  | [] => mret results
  | toolCall :: rest =>
      let! result := executeTool toolCall (execution_options options) in
      executeToolCalls_from rest options (results ++ [result])
  end.

Definition executeToolCalls (toolCalls : list BrowserToolCall.t)
    (options : AgentExecutionOptions.t) : M (list BrowserToolResult.t) :=
  executeToolCalls_from toolCalls options [].

Definition getFollowUpResponse (service : AIServiceType)
    (messages : list AIMessage.t) (tools : list (ToolFormat * BrowserTool))
  : M AIResponse.t :=
  try_catch
    (if supportsToolCalling E service then send service true messages tools
     else send service false messages tools)
    (λ _, mret (AIResponse.mk "Actions completed successfully." None)).

(** The loop [for (let i = 0; i < response.toolCalls.length; i++)] from
    index [i] on: [toolCalls] are the calls not yet visited. *)
Fixpoint push_tool_messages (i : nat) (toolCalls : list BrowserToolCall.t)
    (toolResults : list BrowserToolResult.t) (conversation : AgentConversation.t)
  : M AgentConversation.t :=
  match toolCalls with
  | [] => mret conversation
  | toolCall :: rest =>
      let! content :=
        match toolResults !! i with
        | Some result => lift (formatToolResult result)
        | None => throw "Cannot read properties of undefined (reading 'success')"
        end in
      let! t := now in
      let! conversation :=
        push {| AIMessage.role := tool;
                AIMessage.content := content;
                AIMessage.timestamp := Some t;
                AIMessage.toolCalls := None;
                AIMessage.toolCallId := Some (BrowserToolCall.id toolCall) |}
             conversation in
      push_tool_messages (S i) rest toolResults conversation
  end.

Definition placeholder : string := "I understand. Let me help you with that.".

(** The branch of [sendMessage] taken when the response carries tool
    calls. *)
Definition run_tool_calls (service : AIServiceType)
    (tools : list (ToolFormat * BrowserTool)) (response : AIResponse.t)
    (toolCalls : list BrowserToolCall.t) (options : AgentExecutionOptions.t)
    (agentResponse : AgentResponse.t) (conversation : AgentConversation.t)
  : M (AgentResponse.t * AgentConversation.t) :=
  let! toolResults := executeToolCalls toolCalls options in
  let! t := now in
  let! conversation :=
    push {| AIMessage.role := assistant;
            AIMessage.content := Js.or_str (AIResponse.content response) "";
            AIMessage.timestamp := Some t;
            AIMessage.toolCalls := Some toolCalls;
            AIMessage.toolCallId := None |}
         conversation in
  let! conversation := push_tool_messages 0 toolCalls toolResults conversation in
  let! message :=
    if existsb BrowserToolResult.success toolResults then
      let! followUpResponse :=
        getFollowUpResponse service (AgentConversation.messages conversation) tools in
      mret (Js.or_str (AIResponse.content followUpResponse)
              (AgentResponse.message agentResponse))
    else mret (AgentResponse.message agentResponse) in
  updateContext (AgentExecutionOptions.pageId options) no_options;;
  let! contextChange := getContextSummary in
  mret ({| AgentResponse.message := message;
           AgentResponse.toolResults := toolResults;
           AgentResponse.contextUpdate :=
             if String.eqb contextChange "" then None else Some contextChange;
           AgentResponse.screenshot := AgentResponse.screenshot agentResponse |},
        conversation).

(** [sendMessage] up to the request: the conversation, the fresh context,
    the system message when due, and the user message. *)
Definition open_turn (conversationId userMessage : string)
    (options : AgentExecutionOptions.t)
  : M (AgentConversation.t * BrowserContext.t) :=
  let pageId := AgentExecutionOptions.pageId options in
  let! conversation := createOrGetConversation conversationId pageId VUndef in
  let! context :=
    updateContext pageId
      {| includeScreenshot := None; includeFullContent := None;
         includeInvisibleElements := None; maxContentLength := Some 2000;
         maxElementsPerType := None |} in
  let contextualSystemPrompt := contextual_prompt E context in
  let! (changed, conversation) :=
    match AgentConversation.messages conversation with
    | [] => mret (true, conversation)
    | _ => hasContextChanged conversation context
    end in
  let! conversation :=
    if changed : bool then
      let! t := now in
      push (AIMessage.mk system contextualSystemPrompt (Some t) None None) conversation
    else mret conversation in
  let! t := now in
  let! conversation :=
    push (AIMessage.mk user userMessage (Some t) None None) conversation in
  mret (conversation, context).

Definition service_name (serviceType : AIServiceType) : string :=
  match serviceType with
  | openai => "openai"
  | gemini => "gemini"
  | claude => "claude"
  end.

(** The tools offered to a service, and whether the first request goes
    through [sendMessageWithTools]. *)
Definition offered_tools (serviceType : AIServiceType)
  : list (ToolFormat * BrowserTool) :=
  if supportsToolCalling E serviceType then getToolsForService serviceType else [].

Definition asks_with_tools (serviceType : AIServiceType) : bool :=
  supportsToolCalling E serviceType
  && bool_decide (0 < length (offered_tools serviceType))%nat.

(** [sendMessage] from the service lookup on. *)
Definition answer_turn (options : AgentExecutionOptions.t)
    (conversation : AgentConversation.t) (context : BrowserContext.t)
  : M AgentResponse.t :=
  let serviceType := AgentExecutionOptions.serviceType options in
  (if service_available E serviceType then mret tt
   else throw ("AI service " +:+ service_name serviceType +:+ " is not available"));;
  let tools := offered_tools serviceType in
  let! response :=
    send serviceType (asks_with_tools serviceType)
      (AgentConversation.messages conversation) tools in
  let agentResponse :=
    {| AgentResponse.message := Js.or_str (AIResponse.content response) placeholder;
       AgentResponse.toolResults := [];
       AgentResponse.contextUpdate := None;
       AgentResponse.screenshot :=
         if flag (AgentExecutionOptions.includeScreenshot options)
         then BrowserContext.screenshot context else VUndef |} in
  let! (agentResponse, conversation) :=
    match AIResponse.toolCalls response with
    | Some (toolCall :: rest) =>
        run_tool_calls serviceType tools response (toolCall :: rest) options
          agentResponse conversation
    | _ =>
        let! t := now in
        let! conversation :=
          push (AIMessage.mk assistant (Js.or_str (AIResponse.content response) "")
                  (Some t) None None) conversation in
        mret (agentResponse, conversation)
    end in
  let! t := now in
  put (with_lastActivity t conversation);;
  mret agentResponse.

(** The [try] block of [sendMessage]. *)
Definition sendMessage_body (conversationId userMessage : string)
    (options : AgentExecutionOptions.t) : M AgentResponse.t :=
  let! (conversation, context) := open_turn conversationId userMessage options in
  answer_turn options conversation context.

Definition sendMessage (conversationId userMessage : string)
    (options : AgentExecutionOptions.t) : M AgentResponse.t :=
  try_catch (sendMessage_body conversationId userMessage options)
    (λ msg, mret {| AgentResponse.message :=
                      "I encountered an error: " +:+ msg +:+ ". Please try again.";
                    AgentResponse.toolResults := [];
                    AgentResponse.contextUpdate := None;
                    AgentResponse.screenshot := VUndef |}).

Definition getConversation (id : string) : M (option AgentConversation.t) :=
  λ w, (Ret (store_get id (conversations w)), w).

Definition clearConversation (id : string) : M unit :=
  λ w, (Ret tt, set_conversations (store_delete id (conversations w)) w).

Definition maxAge : Z := 24 * 60 * 60 * 1000.

(** [sort((a, b) => b.lastActivity - a.lastActivity)].  The sort of an
    array is stable; this is the stable sort written as insertion. *)
Fixpoint insert_conversation (a : AgentConversation.t) (l : list AgentConversation.t)
  : list AgentConversation.t :=
  match l with
  | [] => [a]
  | b :: l' =>
      if AgentConversation.lastActivity b - AgentConversation.lastActivity a <=? 0
      then a :: b :: l'
      else b :: insert_conversation a l'
  end.

Definition sort_conversations (l : list AgentConversation.t) : list AgentConversation.t :=
  foldr insert_conversation [] l.

(** The list [getActiveConversations] returns when [Date.now()] is [t]. *)
Definition activeConversations (t : Z) (cs : list (string * AgentConversation.t))
  : list AgentConversation.t :=
  sort_conversations
    (filter (λ conv, t - AgentConversation.lastActivity conv < maxAge) (cs.*2)).

Definition getActiveConversations : M (list AgentConversation.t) :=
  let! t := now in
  λ w, (Ret (activeConversations t (conversations w)), w).

Definition cleanupOldConversations : M unit :=
  let! t := now in
  λ w, (Ret tt,
        set_conversations
          (filter (λ e, ¬ (maxAge < t - AgentConversation.lastActivity e.2))
             (conversations w)) w).

End Program.

(** ** Predicates and fixtures of the properties *)

(** A computation that raises nothing, whatever the world. *)
Definition total {A : Type} (m : M A) : Prop :=
  ∀ w, ∃ a w', m w = (Ret a, w').

(** A world in which the driver is ready and one page is registered. *)
Definition ready_world : World :=
  {| trace := []; ticks := 0; browser := true; isInitialized := true;
     pages := {["page-1"]}; currentContext := None; contextHistory := [];
     conversations := [] |}.

(** An environment in which every call succeeds except the wait for the
    selector ["#b"], which never resolves. *)
Definition waits_for_b (c : PageCall) : bool :=
  match c with
  | WaitForSelector (VStr s) _ => String.eqb s "#b"
  | _ => false
  end.

Definition plain_env : Env :=
  {| clock := λ n, Z.of_nat n;
     launch := λ _, Ret tt;
     page_call := λ _ _ c,
       if waits_for_b c then Throw "waiting for selector failed" else Ret VUndef;
     service_available := λ _, true;
     supportsToolCalling := λ _, true;
     backend := λ _ _ _ _, Ret (AIResponse.mk "" None);
     json_stringify := λ _, "{}";
     contextual_prompt := λ _, "prompt";
     context_summary := λ _, "summary" |}.

Definition missing_type_argument : BrowserToolResult.t :=
  BrowserToolResult.failure "Selector and text are required for type action".

(** Whether the driver is usable when the call arrives: ready, or launched
    on demand. *)
Definition driver_usable (E : Env) (w : World) : bool :=
  isInitialized w && browser w
  || match launch E (trace w) with Ret _ => true | Throw _ => false end.

(** Every whitespace character is a space and is not followed by another
    whitespace character. *)
Fixpoint spaced (l : list ascii) : bool :=
  match l with
  | [] => true
  | c :: l' =>
      (if Str.is_white c then
         Ascii.eqb c Str.space
         && match l' with d :: _ => negb (Str.is_white d) | [] => true end
       else true)
      && spaced l'
  end.

(** The shape of cleaned content: whitespace is collapsed to single spaces
    and trimmed at both ends. *)
Definition single_spaced (l : list ascii) : Prop :=
  (∀ c, c ∈ l → Str.is_white c = true → c = Str.space) ∧
  (∀ i, ¬ (l !! i = Some Str.space ∧ l !! S i = Some Str.space)) ∧
  head l ≠ Some Str.space ∧ last l ≠ Some Str.space.

Definition starts_clear (l : list ascii) : Prop :=
  ∀ c, head l = Some c → Str.is_white c = false.

(** An environment whose page answers every probe; the text probe answers
    with a number, which is not a string. *)
Definition numeric_text_env : Env :=
  {| clock := λ n, Z.of_nat n;
     launch := λ _, Ret tt;
     page_call := λ _ _ c,
       match c with
       | Evaluate SBodyInnerText => Ret (VNum 5)
       | _ => Ret (VObj [])
       end;
     service_available := λ _, true;
     supportsToolCalling := λ _, true;
     backend := λ _ _ _ _, Ret (AIResponse.mk "" None);
     json_stringify := λ _, "{}";
     contextual_prompt := λ _, "prompt";
     context_summary := λ _, "summary" |}.

(** An environment whose page evaluates each probe to the value its script
    denotes on a page with history length 2. *)
Definition honest_env : Env :=
  {| clock := λ n, Z.of_nat n;
     launch := λ _, Ret tt;
     page_call := λ _ _ c,
       match c with
       | Evaluate SBodyInnerText => Ret (VStr "Example Domain")
       | Evaluate SBasicPageInfo =>
           Ret (VObj [("url", VStr "https://example.com/"); ("title", VStr "Example Domain");
                      ("domain", VStr "example.com"); ("protocol", VStr "https:")])
       | Evaluate (SInteractiveElements _ _ _) =>
           Ret (VObj [("buttons", VArr []); ("links", VArr []); ("inputs", VArr []);
                      ("formFields", VArr []); ("clickable", VArr [])])
       | Evaluate SNavigationState =>
           Ret (VObj [("canGoBack", VBool true); ("canGoForward", VBool false);
                      ("history", VArr [])])
       | Evaluate SViewportInfo =>
           Ret (VObj [("viewport", VObj [("width", VNum 1366); ("height", VNum 768)]);
                      ("scroll", VObj [("x", VNum 0); ("y", VNum 0)])])
       | _ => Ret VUndef
       end;
     service_available := λ _, true;
     supportsToolCalling := λ _, true;
     backend := λ _ _ _ _, Ret (AIResponse.mk "" None);
     json_stringify := λ _, "{}";
     contextual_prompt := λ _, "prompt";
     context_summary := λ _, "summary" |}.

(** The collections of a snapshot are all the empty array. *)
Definition no_elements (c : BrowserContext.t) : Prop :=
  BrowserContext.clickableElements c = VArr [] ∧
  BrowserContext.formFields c = VArr [] ∧
  BrowserContext.links c = VArr [] ∧
  BrowserContext.buttons c = VArr [] ∧
  BrowserContext.inputs c = VArr [].

(** A store as the [Map] holds it: one entry per key, each conversation
    filed under its own id. *)
Definition store_wf (cs : list (string * AgentConversation.t)) : Prop :=
  NoDup cs.*1 ∧ ∀ k c, (k, c) ∈ cs → AgentConversation.id c = k.

(** Most recently active first. *)
Definition newest_first : list AgentConversation.t → Prop :=
  StronglySorted
    (λ a b, AgentConversation.lastActivity b ≤ AgentConversation.lastActivity a).

(** Two conversations on one page session, and a third elsewhere. *)
Definition three_conversations : list (string * AgentConversation.t) :=
  [ ("a", AgentConversation.mk "a" [] VUndef "page-1" 10 10);
    ("b", AgentConversation.mk "b" [] VUndef "page-1" 20 30);
    ("c", AgentConversation.mk "c" [] VUndef "page-2" 5 20) ].

Definition busy_world : World :=
  {| trace := []; ticks := 0; browser := true; isInitialized := true;
     pages := {["page-1"]}; currentContext := None; contextHistory := [];
     conversations := three_conversations |}.

Definition is_throw {A : Type} (o : Outcome A) : bool :=
  match o with Ret _ => false | Throw _ => true end.

(** Whether the six steps on one field all go through, when [fails] tells
    which calls of the page raise. *)
Definition field_filled (fails : PageCall → bool) (selector : string) (value : JsVal)
  : bool :=
  negb (fails (WaitForSelector (VStr selector) 3000)
        || fails (Click (VStr selector))
        || fails (KeyboardDown "Control")
        || fails (KeyboardPress "KeyA")
        || fails (KeyboardUp "Control")
        || fails (TypeInto (VStr selector) value)).

Definition filled_form (n : nat) : BrowserToolResult.t :=
  {| BrowserToolResult.success := true;
     BrowserToolResult.data := VUndef;
     BrowserToolResult.error := None;
     BrowserToolResult.screenshot := VUndef;
     BrowserToolResult.message := Some ("Filled " +:+ pretty n +:+ " form fields") |}.

Definition is_send (e : Event) : bool :=
  match e with EvSend _ _ _ _ => true | _ => false end.

(** The requests made to the backends, in order. *)
Definition sends (tr : list Event) : list Event := filter (λ e, is_send e) tr.

(** A computation that makes no request to a backend and leaves the
    conversation store alone. *)
Definition quiet {A : Type} (m : M A) : Prop :=
  ∀ w, sends (trace (m w).2) = sends (trace w)
       ∧ conversations (m w).2 = conversations w.

(** The calls of a batch run one after the other, each in the world the
    previous one left, and each yields one result, failed or not. *)
Inductive executed_in_order (E : Env) (options : AgentExecutionOptions.t)
  : list BrowserToolCall.t → World → list BrowserToolResult.t → World → Prop :=
| in_order_nil w : executed_in_order E options [] w [] w
| in_order_cons toolCall rest w result w1 results w2 :
    executeTool E toolCall (execution_options options) w = (Ret result, w1) →
    executed_in_order E options rest w1 results w2 →
    executed_in_order E options (toolCall :: rest) w (result :: results) w2.

(** The messages appended for the results of a batch. *)
Definition answers (E : Env) (toolCalls : list BrowserToolCall.t)
    (toolResults : list BrowserToolResult.t) (toolMessages : list AIMessage.t) : Prop :=
  length toolMessages = length toolCalls ∧
  Forall (λ m, AIMessage.role m = tool) toolMessages ∧
  AIMessage.toolCallId <$> toolMessages = (λ c, Some (BrowserToolCall.id c)) <$> toolCalls ∧
  formatToolResult E <$> toolResults = Ret <$> (AIMessage.content <$> toolMessages).

(** [formatToolResult] raises nothing on a result. *)
Definition formattable (E : Env) (result : BrowserToolResult.t) : Prop :=
  ∃ text, formatToolResult E result = Ret text.

(** The results of a batch run in [w] can all be formatted. *)
Definition batch_formattable (E : Env) (options : AgentExecutionOptions.t)
    (toolCalls : list BrowserToolCall.t) (w : World) : Prop :=
  ∀ results w',
    executeToolCalls E toolCalls options w = (Ret results, w') →
    Forall (formattable E) results.

(** The first request of a turn, as it is logged. *)
Definition first_request (E : Env) (options : AgentExecutionOptions.t)
    (conversation : AgentConversation.t) : Event :=
  let service := AgentExecutionOptions.serviceType options in
  EvSend service (asks_with_tools E service)
    (AgentConversation.messages conversation)
    (if asks_with_tools E service then offered_tools E service else []).

(** The follow-up request, as it is logged. *)
Definition follow_up_request (E : Env) (options : AgentExecutionOptions.t)
    (messages : list AIMessage.t) : Event :=
  let service := AgentExecutionOptions.serviceType options in
  EvSend service (supportsToolCalling E service) messages
    (if supportsToolCalling E service then offered_tools E service else []).

(** A batch of two tool calls: a click on ["#b"], which does not resolve,
    then a navigation. *)
Definition two_calls : list BrowserToolCall.t :=
  [ BrowserToolCall.mk "call-1" "click" [("selector", VStr "#b")];
    BrowserToolCall.mk "call-2" "navigate" [("url", VStr "https://example.com")] ].

(** A backend that answers every request with a text and that batch. *)
Definition batch_env : Env :=
  {| clock := clock plain_env;
     launch := launch plain_env;
     page_call := page_call plain_env;
     service_available := λ _, true;
     supportsToolCalling := λ _, true;
     backend := λ _ _ _ _, Ret (AIResponse.mk "Working on it." (Some two_calls));
     json_stringify := json_stringify plain_env;
     contextual_prompt := contextual_prompt plain_env;
     context_summary := context_summary plain_env |}.

(** A backend that answers with an empty text and a single click on ["#b"]. *)
Definition silent_env : Env :=
  {| clock := clock plain_env;
     launch := launch plain_env;
     page_call := page_call plain_env;
     service_available := λ _, true;
     supportsToolCalling := λ _, true;
     backend := λ _ _ _ _,
       Ret (AIResponse.mk ""
              (Some [BrowserToolCall.mk "call-1" "click" [("selector", VStr "#b")]]));
     json_stringify := json_stringify plain_env;
     contextual_prompt := contextual_prompt plain_env;
     context_summary := context_summary plain_env |}.

Definition confirmed_options : AgentExecutionOptions.t :=
  AgentExecutionOptions.mk openai "page-1" (Some true) None None None.

(** A backend that asks for the script [2n ** 64n] to be evaluated, and a
    page on which it evaluates to that [BigInt]. *)
Definition bigint_call : BrowserToolCall.t :=
  BrowserToolCall.mk "call-1" "evaluate_script" [("script", VStr "2n ** 64n")].

Definition bigint_env : Env :=
  {| clock := clock plain_env;
     launch := launch plain_env;
     page_call := λ tr pageId c,
       match c with
       | Evaluate (SCallerScript _) => Ret (VBigInt 18446744073709551616)
       | _ => page_call plain_env tr pageId c
       end;
     service_available := λ _, true;
     supportsToolCalling := λ _, true;
     backend := λ _ _ _ _, Ret (AIResponse.mk "Working on it." (Some [bigint_call]));
     json_stringify := json_stringify plain_env;
     contextual_prompt := contextual_prompt plain_env;
     context_summary := context_summary plain_env |}.

(** Content of 1000 characters whose only whitespace is one space, at
    index [k]. *)
Definition content_space_at (k : nat) : string :=
  Str.of_chars (replicate k "a"%char ++ [Str.space] ++ replicate (999 - k) "b"%char).

(** ** Further predicates of the properties *)

(** Every value a computation returns satisfies [Q]. *)
Definition yields {A : Type} (Q : A → Prop) (m : M A) : Prop :=
  ∀ w a w', m w = (Ret a, w') → Q a.

(** A result of the driver wrapper or of a tool says why it failed: it
    carries an error string exactly when [success] is false. *)
Definition explained (success : bool) (error : option string) : Prop :=
  success = false ↔ is_Some error.

(** [url] as [navigateToUrl] hands it to [page.goto]. *)
Definition with_protocol (url : string) : string :=
  if negb (startsWith "http://" url) && negb (startsWith "https://" url)
  then "https://" +:+ url else url.

(** The snapshot [extractContext] builds when no probe answers. *)
Definition default_context (summary : string) (timestamp loadTime : Z)
  : BrowserContext.t :=
  {| BrowserContext.currentUrl := VStr "unknown";
     BrowserContext.pageTitle := VStr "Unknown";
     BrowserContext.domain := VStr "unknown";
     BrowserContext.protocol := VStr "unknown";
     BrowserContext.pageContent := VStr "";
     BrowserContext.contentSummary := Some summary;
     BrowserContext.clickableElements := VArr [];
     BrowserContext.formFields := VArr [];
     BrowserContext.links := VArr [];
     BrowserContext.buttons := VArr [];
     BrowserContext.inputs := VArr [];
     BrowserContext.screenshot := VUndef;
     BrowserContext.viewportSize := VObj [("width", VNum 1366); ("height", VNum 768)];
     BrowserContext.scrollPosition := VObj [("x", VNum 0); ("y", VNum 0)];
     BrowserContext.canGoBack := VBool false;
     BrowserContext.canGoForward := VBool false;
     BrowserContext.navigationHistory := VArr [];
     BrowserContext.error := None;
     BrowserContext.timestamp := timestamp;
     BrowserContext.loadTime := Some loadTime |}.

(** A page on which every call raises. *)
Definition dead_page (E : Env) (pageId : string) : Prop :=
  ∀ tr c, ∃ msg, page_call E tr pageId c = Throw msg.

(** An environment whose pages are closed: every call on them raises. *)
Definition closed_env : Env :=
  {| clock := clock plain_env;
     launch := launch plain_env;
     page_call := λ _ _ _, Throw "Target closed";
     service_available := service_available plain_env;
     supportsToolCalling := supportsToolCalling plain_env;
     backend := backend plain_env;
     json_stringify := json_stringify plain_env;
     contextual_prompt := contextual_prompt plain_env;
     context_summary := context_summary plain_env |}.

(** A page that answers every call, and answers the text probe with a
    string. *)
Definition answering (E : Env) (pageId : string) : Prop :=
  ∀ tr c, ∃ v, page_call E tr pageId c = Ret v
               ∧ (c = Evaluate SBodyInnerText → ∃ s, v = VStr s).

(** The fields of a snapshot that are read from a probe are all
    [undefined]. *)
Definition probes_undefined (c : BrowserContext.t) : Prop :=
  BrowserContext.currentUrl c = VUndef ∧
  BrowserContext.pageTitle c = VUndef ∧
  BrowserContext.domain c = VUndef ∧
  BrowserContext.protocol c = VUndef ∧
  BrowserContext.clickableElements c = VUndef ∧
  BrowserContext.formFields c = VUndef ∧
  BrowserContext.links c = VUndef ∧
  BrowserContext.buttons c = VUndef ∧
  BrowserContext.inputs c = VUndef ∧
  BrowserContext.viewportSize c = VUndef ∧
  BrowserContext.scrollPosition c = VUndef ∧
  BrowserContext.canGoBack c = VUndef ∧
  BrowserContext.canGoForward c = VUndef ∧
  BrowserContext.navigationHistory c = VUndef.

(** What [get_page_info] reports on a page that is not registered. *)
Definition unknown_page_info : JsVal :=
  VObj [("url", VStr "unknown"); ("title", VStr "Unknown"); ("domain", VStr "unknown");
        ("buttons", VNum 0); ("links", VNum 0); ("formFields", VNum 0);
        ("canGoBack", VBool false); ("canGoForward", VBool false)].

Definition explained_result (r : AutomationResult.t) : Prop :=
  explained (AutomationResult.success r) (AutomationResult.error r).

Definition explained_tool_result (r : BrowserToolResult.t) : Prop :=
  explained (BrowserToolResult.success r) (BrowserToolResult.error r).

(** The scripts whose text is fixed by the source: the probes of the
    context service and the templates that take no argument of a tool call
    (the numbers of the element probe come from the extraction options). *)
Definition fixed_script (s : Script) : bool :=
  match s with
  | SBodyInnerText | SMetaInformation | SAnchors | SBasicPageInfo
  | SInteractiveElements _ _ _ | SNavigationState | SViewportInfo
  | SBodyTextContent | SExtractLinks None => true
  | _ => false
  end.

(** The templates of [extract_text], [extract_links] and [wait_for_element]
    with the selector, filter or timeout of the tool call, which the source
    splices into the text of the script between quotes, unescaped: what the
    script does on the page depends on that argument. *)
Definition spliced_script (s : Script) : bool :=
  match s with
  | SExtractText _ | SExtractLinks (Some _) | SWaitForElement _ _ => true
  | _ => false
  end.

(** The calls a tool classified [safe] and the context service make on a
    page: [goto], [url], [title], [screenshot], and [evaluate] of a fixed
    script or of a spliced template. *)
Definition unconfirmed_call (c : PageCall) : bool :=
  match c with
  | Goto _ | Url | Title | Screenshot _ => true
  | Evaluate s => fixed_script s || spliced_script s
  | _ => false
  end.

(** A relation between the world before and the world after that a
    computation respects, whatever it returns or raises. *)
Definition steady {A : Type} (R : relation World) (m : M A) : Prop :=
  ∀ w, R w (m w).2.

(** The log of calls only grows. *)
Definition grows (w w' : World) : Prop := trace w `prefix_of` trace w'.

(** [isReady()] in a world. *)
Definition ready (w : World) : bool := isInitialized w && browser w.

(** A driver that is ready stays ready. *)
Definition stays_ready (w w' : World) : Prop := ready w = true → ready w' = true.

(** [executeTool] carried the call out in [w], with outcome [out]: it
    returned what the tool's implementation returns in [w], the calls the
    implementation made are kept in the trace, and an exception of the
    implementation is reported as a failed result. *)
Definition carried_out (E : Env) (toolCall : BrowserToolCall.t)
    (options : ToolExecutionOptions.t) (w : World)
    (out : Outcome BrowserToolResult.t * World) : Prop :=
  match dispatch E toolCall options w with
  | (Ret result, w1) => out.1 = Ret result ∧ grows w1 out.2
  | (Throw msg, w1) =>
      out = (Ret (BrowserToolResult.failure ("Tool execution failed: " +:+ msg)), w1)
  end.

(** ** The history of snapshots *)

(** The history holds no more than its bound. *)
Definition history_bounded (w : World) : Prop :=
  (length (contextHistory w) ≤ maxHistorySize)%nat.

Definition keeps_history_bounded (w w' : World) : Prop :=
  history_bounded w → history_bounded w'.

(** The context manager holds what it held. *)
Definition same_context (w w' : World) : Prop :=
  currentContext w' = currentContext w ∧ contextHistory w' = contextHistory w.

(** ** A turn and its conversation *)

(** The conversation store is what it was. *)
Definition same_store (w w' : World) : Prop := conversations w' = conversations w.

(** A later state of a conversation: the same id, page and creation time,
    and the messages it had are the first of the messages it has. *)
Definition extends (c c' : AgentConversation.t) : Prop :=
  AgentConversation.id c' = AgentConversation.id c ∧
  AgentConversation.pageId c' = AgentConversation.pageId c ∧
  AgentConversation.createdAt c' = AgentConversation.createdAt c ∧
  AgentConversation.messages c `prefix_of` AgentConversation.messages c'.

(** The store holds [c] under its id. *)
Definition holds (c : AgentConversation.t) (w : World) : Prop :=
  store_wf (conversations w) ∧
  store_get (AgentConversation.id c) (conversations w) = Some c.

(** Every conversation but the one under [id] is found as before. *)
Definition others_kept (id : string) (w w' : World) : Prop :=
  ∀ id', id' ≠ id → store_get id' (conversations w') = store_get id' (conversations w).

(** [m] works on the conversation [c] the store holds: whatever the
    outcome, the store then holds a later state [c'] of it, related to [c]
    by [rel]; every other conversation is kept, and a value [m] returns is
    related to [c'] by [q]. *)
Definition threads {A : Type} (rel : relation AgentConversation.t)
    (c : AgentConversation.t) (q : A → AgentConversation.t → Prop) (m : M A) : Prop :=
  ∀ w, holds c w →
    ∃ c', rel c c' ∧ holds c' (m w).2
          ∧ others_kept (AgentConversation.id c) w (m w).2
          ∧ ∀ a, (m w).1 = Ret a → q a c'.

(** [m] opens or resumes the conversation under [id] for [pageId]. *)
Definition enters {A : Type} (rel : relation AgentConversation.t) (id pageId : string)
    (q : A → AgentConversation.t → Prop) (m : M A) : Prop :=
  ∀ w, store_wf (conversations w) →
    ∃ c', holds c' (m w).2
          ∧ AgentConversation.id c' = id
          ∧ others_kept id w (m w).2
          ∧ match store_get id (conversations w) with
            | Some c => rel c c'
            | None => AgentConversation.pageId c' = pageId
            end
          ∧ ∀ a, (m w).1 = Ret a → q a c'.

(** A later state of a conversation whose url is the one it had. *)
Definition extends_in_place (c c' : AgentConversation.t) : Prop :=
  extends c c' ∧ AgentConversation.currentUrl c' = AgentConversation.currentUrl c.

(** ** What a turn adds to the trace *)

(** The events added to the trace are all [allowed]. *)
Definition appends (allowed : Event → Prop) (w w' : World) : Prop :=
  ∃ events, trace w' = trace w ++ events ∧ Forall allowed events.

(** An event that is not a call on a page other than [pageId]. *)
Definition on_page (pageId : string) (e : Event) : Prop :=
  match e with
  | EvPage p _ => p = pageId
  | _ => True
  end.

(** An event that is neither a call on another page nor a call other than
    those of [unconfirmed_call]. *)
Definition unconfirmed_event (pageId : string) (e : Event) : Prop :=
  match e with
  | EvPage p c => p = pageId ∧ unconfirmed_call c = true
  | _ => True
  end.

(** ** Further fixtures *)

(** A turn on ["page-1"] with nothing confirmed and no level granted. *)
Definition unconfirmed_options : AgentExecutionOptions.t :=
  AgentExecutionOptions.mk openai "page-1" None None None None.

(** An environment in which no AI service is configured. *)
Definition offline_env : Env :=
  {| clock := clock plain_env;
     launch := launch plain_env;
     page_call := page_call plain_env;
     service_available := λ _, false;
     supportsToolCalling := supportsToolCalling plain_env;
     backend := backend plain_env;
     json_stringify := json_stringify plain_env;
     contextual_prompt := contextual_prompt plain_env;
     context_summary := context_summary plain_env |}.

(** The response of a turn that raised [reason]. *)
Definition error_response (reason : string) : AgentResponse.t :=
  {| AgentResponse.message := "I encountered an error: " +:+ reason +:+ ". Please try again.";
     AgentResponse.toolResults := [];
     AgentResponse.contextUpdate := None;
     AgentResponse.screenshot := VUndef |}.

(** * Properties *)

(** ** Reasoning about sequenced code *)

Lemma bind_ret {A B : Type} (m : M A) (k : A → M B) (w w' : World) (a : A) :
  m w = (Ret a, w') → bind m k w = k a w'.
Proof. intros H. unfold bind. by rewrite H. Qed.

Lemma try_catch_ret {A : Type} (m : M A) (h : string → M A) (w w' : World) (a : A) :
  m w = (Ret a, w') → try_catch m h w = (Ret a, w').
Proof. intros H. unfold try_catch. by rewrite H. Qed.

Lemma total_mret {A : Type} (a : A) : total (mret a).
Proof. intros w. by exists a, w. Qed.

Lemma total_bind {A B : Type} (m : M A) (k : A → M B) :
  total m → (∀ a, total (k a)) → total (bind m k).
Proof.
  intros Hm Hk w. destruct (Hm w) as (a & w1 & Ha).
  destruct (Hk a w1) as (b & w2 & Hb). exists b, w2.
  by rewrite (bind_ret _ _ _ _ _ Ha).
Qed.

Lemma total_try_catch {A : Type} (m : M A) (h : string → M A) :
  (∀ msg, total (h msg)) → total (try_catch m h).
Proof.
  intros Hh w. unfold try_catch.
  destruct (m w) as [[a|msg] w1]; [by exists a, w1 | apply Hh].
Qed.

Lemma total_now (E : Env) : total (now E).
Proof. intros w. by eexists _, _. Qed.

Lemma total_guarded {A : Type} pageId (absent : A) (body : M A) (h : string → M A) :
  (∀ msg, total (h msg)) →
  total (let! present := has_page pageId in
         if negb present then mret absent else try_catch body h).
Proof.
  intros Hh. apply total_bind; [by intros w; eexists _, _ |].
  intros []; simpl; [by apply total_try_catch | apply total_mret].
Qed.

Lemma total_extractContext (E : Env) pageId options :
  total (extractContext E pageId options).
Proof.
  apply total_try_catch. intros msg. unfold minimal_context.
  apply total_bind; [apply total_now | intros t; apply total_mret].
Qed.

Lemma total_manager_updateContext context : total (manager_updateContext context).
Proof. intros w. by eexists _, _. Qed.

Lemma total_updateContext (E : Env) pageId options :
  total (updateContext E pageId options).
Proof.
  unfold updateContext. apply total_bind; [apply total_extractContext |].
  intros c. apply total_bind; [apply total_manager_updateContext |].
  intros _. apply total_mret.
Qed.

Lemma total_executeTool (E : Env) toolCall options :
  total (executeTool E toolCall options).
Proof. apply total_try_catch. intros msg. apply total_mret. Qed.

(** ** The safety gate *)

Lemma executeTool_refused (E : Env) toolCall options w :
  canExecuteTool (BrowserToolCall.name toolCall)
    (safetyOf (BrowserToolCall.name toolCall)) options = false →
  executeTool E toolCall options w =
    (Ret (confirmation_required (BrowserToolCall.name toolCall)
            (safetyOf (BrowserToolCall.name toolCall))), w).
Proof.
  intros H. unfold executeTool, try_catch, executeTool_body.
  by rewrite H.
Qed.

Lemma canExecuteTool_ungranted name (level : Resolved) options :
  level ≠ SAFE →
  flag (ToolExecutionOptions.autoConfirm options) = false →
  ToolExecutionOptions.safetyLevel options = None →
  canExecuteTool name level options = false.
Proof.
  intros Hl Ha Hs. unfold canExecuteTool. rewrite Ha, Hs.
  by rewrite bool_decide_eq_false_2.
Qed.

(** The granted level is compared as text: ["dangerous"] sorts before
    ["moderate"], which sorts before ["safe"]. *)
Lemma level_le_is_textual :
  level_le DANGEROUS MODERATE = true ∧ level_le DANGEROUS SAFE = true ∧
  level_le MODERATE SAFE = true ∧ level_le MODERATE DANGEROUS = false ∧
  level_le SAFE MODERATE = false ∧ level_le SAFE DANGEROUS = false.
Proof. by repeat split. Qed.

(** C1 (as stated, refuted): a [dangerous] tool called without [autoConfirm]
    but with the [dangerous] level granted passes the gate, succeeds and
    reaches the page. *)
Lemma dangerous_tool_runs_when_granted :
  let toolCall :=
    BrowserToolCall.mk "call-1" "fill_form" [("fields", VObj [("#a", VStr "x")])] in
  let options := ToolExecutionOptions.mk "page-1" None (Some DANGEROUS) None in
  safetyOf "fill_form" = DANGEROUS ∧
  ∃ result w',
    executeTool plain_env toolCall options ready_world = (Ret result, w') ∧
    BrowserToolResult.success result = true ∧
    EvPage "page-1" (TypeInto (VStr "#a") (VStr "x")) ∈ trace w'.
Proof.
  split; [reflexivity |]. eexists _, _. split; [vm_compute; reflexivity |].
  split; [reflexivity |]. simpl. set_solver.
Qed.

(** The comparison of two levels of the enum is the comparison the gate
    makes on what the names of the table resolve to. *)
Lemma resolved_le_level (a b : ToolSafetyLevel) : resolved_le a b = level_le a b.
Proof. reflexivity. Qed.

(** C7 (the code at the failing input): the safety table is a plain object
    indexed with the name of the tool, so a name that is no key of the table
    but a member of [Object.prototype] resolves to that member and not to
    [moderate].  For ["constructor"] the call is refused without
    [autoConfirm] and without a granted level, as the claim says, but the
    level it resolved to, which the refusal prints, is the function
    [Object]. *)
Lemma constructor_resolves_to_a_function :
  let toolCall := BrowserToolCall.mk "call-1" "constructor" [] in
  let options := ToolExecutionOptions.mk "page-1" None None None in
  TOOL_SAFETY_LEVELS !! "constructor" = None ∧
  safetyOf "constructor" = Inherited "function Object() { [native code] }" ∧
  safetyOf "constructor" ≠ MODERATE ∧
  ∃ result,
    executeTool plain_env toolCall options ready_world = (Ret result, ready_world) ∧
    BrowserToolResult.success result = false ∧
    BrowserToolResult.error result
    = Some "Tool constructor requires function Object() { [native code] } permission level".
Proof.
  split; [reflexivity |]. split; [reflexivity |]. split; [discriminate |].
  eexists. split; [vm_compute; reflexivity |]. by split.
Qed.

(** X29: a name that is no key of the safety table never resolves to
    [safe]: it resolves to [moderate] unless [Object.prototype] has a member
    of that name.  Called without [autoConfirm] and without a granted level
    it is refused with the confirmation-required failure, and nothing is
    executed: the world is unchanged. *)
Theorem unlisted_tool_refused (name : string) :
  TOOL_SAFETY_LEVELS !! name = None →
  safetyOf name ≠ SAFE ∧
  (Js.assoc name OBJECT_PROTOTYPE = None → safetyOf name = MODERATE) ∧
  ∀ (E : Env) toolCall options w,
    BrowserToolCall.name toolCall = name →
    flag (ToolExecutionOptions.autoConfirm options) = false →
    ToolExecutionOptions.safetyLevel options = None →
    executeTool E toolCall options w
    = (Ret (confirmation_required name (safetyOf name)), w)
    ∧ BrowserToolResult.success (confirmation_required name (safetyOf name)) = false.
Proof.
  intros Hn.
  assert (Hne : safetyOf name ≠ SAFE).
  { unfold safetyOf. rewrite Hn. by destruct (Js.assoc name OBJECT_PROTOTYPE). }
  split; [exact Hne |]. split.
  { intros Hp. unfold safetyOf. by rewrite Hn, Hp. }
  intros E toolCall options w Hname Ha Hs. split; [| reflexivity].
  rewrite executeTool_refused; rewrite Hname; [done |].
  by apply canExecuteTool_ungranted.
Qed.

Lemma unlisted_tool_refused_witness :
  safetyOf "delete_account" = MODERATE ∧
  executeTool plain_env (BrowserToolCall.mk "call-1" "delete_account" [])
    (ToolExecutionOptions.mk "page-1" None None None) ready_world
  = (Ret (confirmation_required "delete_account" MODERATE), ready_world).
Proof.
  destruct (unlisted_tool_refused "delete_account") as (_ & Hm & Hgate);
    [reflexivity |].
  split; [by apply Hm |].
  apply (Hgate plain_env (BrowserToolCall.mk "call-1" "delete_account" [])
           (ToolExecutionOptions.mk "page-1" None None None) ready_world);
    reflexivity.
Defined.

(** ** The [type] tool with an empty text *)

Lemma executeType_empty_text (E : Env) args options :
  Js.truthy (arg args "selector") = true →
  arg args "text" = VStr "" →
  executeType E args options = mret missing_type_argument.
Proof.
  intros Hsel Htext. unfold executeType. by rewrite Hsel, Htext.
Qed.

Lemma dispatch_type (E : Env) toolCall options :
  BrowserToolCall.name toolCall = "type" →
  dispatch E toolCall options =
    executeType E (BrowserToolCall.arguments toolCall) options.
Proof. intros H. unfold dispatch. by rewrite H. Qed.

(** C10 (as stated, refuted): without [autoConfirm] and without a granted
    level the [type] call with an empty text is refused by the gate, and the
    error is the gate's, not the missing-argument one. *)
Lemma type_empty_text_gate_error :
  let toolCall :=
    BrowserToolCall.mk "call-1" "type" [("selector", VStr "#q"); ("text", VStr "")] in
  let options := ToolExecutionOptions.mk "page-1" None None None in
  ∃ result,
    executeTool plain_env toolCall options ready_world = (Ret result, ready_world) ∧
    BrowserToolResult.error result = Some "Tool type requires moderate permission level" ∧
    BrowserToolResult.error result
      ≠ Some "Selector and text are required for type action".
Proof. eexists. split; [vm_compute; reflexivity |]. split; [reflexivity | discriminate]. Qed.

(** C10 (amended): a [type] call with a selector and the empty string as
    text always yields a failed result and never calls a method of the page
    (the only call executeTool may make is the launch of the browser).  The
    result is the missing-argument failure when the call passes the safety
    gate and the driver is ready or launches, the initialisation failure
    when it passes the gate and the driver neither is ready nor launches,
    and the gate's confirmation-required failure when the gate refuses it. *)
Theorem type_empty_text_rejected (E : Env) toolCall options w :
  BrowserToolCall.name toolCall = "type" →
  Js.truthy (arg (BrowserToolCall.arguments toolCall) "selector") = true →
  arg (BrowserToolCall.arguments toolCall) "text" = VStr "" →
  ∃ result w',
    executeTool E toolCall options w = (Ret result, w') ∧
    BrowserToolResult.success result = false ∧
    (trace w' = trace w ∨ trace w' = trace w ++ [EvLaunch]) ∧
    result
    = (if canExecuteTool "type" MODERATE options
       then if driver_usable E w then missing_type_argument
            else BrowserToolResult.failure "Failed to initialize browser automation"
       else confirmation_required "type" MODERATE).
Proof.
  intros Hname Hsel Htext.
  destruct (canExecuteTool "type" MODERATE options) eqn:Hgate.
  - unfold executeTool, executeTool_body, driver_usable.
    rewrite Hname. change (safetyOf "type") with (Level MODERATE). rewrite Hgate.
    rewrite dispatch_type by done.
    unfold try_catch, bind, isReady, initialize, try_catch, bind, launch_do, mret.
    rewrite (executeType_empty_text E _ options Hsel Htext). unfold mret. simpl.
    rewrite andb_false_r.
    destruct (isInitialized w && browser w) eqn:Hready; simpl.
    + eexists _, _. split; [reflexivity |]. split; [reflexivity |].
      split; [by left | done].
    + destruct (launch E (trace w)) as [[]|msg] eqn:Hlaunch; simpl.
      * eexists _, _. split; [reflexivity |]. split; [reflexivity |].
        split; [by right | done].
      * eexists _, _. split; [reflexivity |]. split; [reflexivity |].
        split; [by right | done].
  - exists (confirmation_required "type" MODERATE), w.
    split; [| split; [reflexivity | split; [by left | done]]].
    rewrite executeTool_refused; rewrite Hname; [done |].
    exact Hgate.
Qed.

Lemma type_empty_text_rejected_witness :
  executeTool plain_env
    (BrowserToolCall.mk "call-1" "type" [("selector", VStr "#q"); ("text", VStr "")])
    (ToolExecutionOptions.mk "page-1" (Some true) None None) ready_world
  = (Ret missing_type_argument, ready_world).
Proof.
  destruct (type_empty_text_rejected plain_env
              (BrowserToolCall.mk "call-1" "type" [("selector", VStr "#q"); ("text", VStr "")])
              (ToolExecutionOptions.mk "page-1" (Some true) None None) ready_world)
    as (result & w' & Hrun & _ & _ & Herr); [reflexivity | reflexivity | reflexivity |].
  rewrite Hrun. vm_compute in Herr. subst result.
  vm_compute in Hrun. by injection Hrun as <-.
Defined.

(** ** The content summary *)

Lemma newline_is_white c : Str.is_newline c = true → Str.is_white c = true.
Proof. by destruct c as [[] [] [] [] [] [] [] []]. Qed.

Lemma replace_white_spaced l in_run :
  spaced (Str.replace_runs_go Str.is_white in_run l) = true
  ∧ (in_run = true → starts_clear (Str.replace_runs_go Str.is_white in_run l)).
Proof.
  revert in_run. induction l as [|c l IH]; intros in_run; simpl.
  { split; [done | intros _ c; done]. }
  destruct (Str.is_white c) eqn:Hc.
  - destruct in_run.
    + apply IH.
    + split; [| done]. destruct (IH true) as [Hs Hh]. simpl.
      rewrite Hs, andb_true_r. change (Str.is_white Str.space) with true. cbv iota.
      change (Ascii.eqb Str.space Str.space) with true. simpl.
      specialize (Hh eq_refl).
      destruct (Str.replace_runs_go Str.is_white true l) as [|d r]; [done |].
      by rewrite (Hh d eq_refl).
  - destruct (IH false) as [Hs _]. split.
    + simpl. by rewrite Hc, Hs.
    + intros _ d [= <-]. exact Hc.
Qed.

Lemma spaced_no_newline l :
  spaced l = true → Forall (λ c, Str.is_newline c = false) l.
Proof.
  induction l as [|c l IH]; simpl; [constructor |].
  intros [Hc Hl]%andb_true_iff. constructor; [| by apply IH].
  destruct (Str.is_newline c) eqn:Hn; [| done].
  rewrite (newline_is_white c Hn) in Hc.
  apply andb_true_iff in Hc as [Hc _]. apply Ascii.eqb_eq in Hc. by subst c.
Qed.

Lemma replace_absent p l in_run :
  Forall (λ c, p c = false) l → Str.replace_runs_go p in_run l = l.
Proof.
  intros H. revert in_run. induction H as [|c l Hc _ IH]; intros in_run; simpl; [done |].
  by rewrite Hc, IH.
Qed.

Lemma spaced_tail c l : spaced (c :: l) = true → spaced l = true.
Proof. simpl. by intros [_ ?]%andb_true_iff. Qed.

Lemma spaced_drop_while p l : spaced l = true → spaced (Str.drop_while p l) = true.
Proof.
  induction l as [|c l IH]; [done |]. intros H. simpl.
  destruct (p c); [apply IH; by eapply spaced_tail | done].
Qed.

Lemma spaced_take n l : spaced l = true → spaced (take n l) = true.
Proof.
  revert n. induction l as [|c l IH]; intros [|n]; try done.
  simpl. intros [Hc Hl]%andb_true_iff. rewrite (IH n Hl), andb_true_r.
  destruct (Str.is_white c); [| done].
  apply andb_true_iff in Hc as [-> Hnext]. simpl.
  destruct l as [|d l]; [by destruct n |]. by destruct n.
Qed.

Lemma drop_while_starts_clear l : starts_clear (Str.drop_while Str.is_white l).
Proof.
  induction l as [|c l IH]; simpl; [by intros c |].
  destruct (Str.is_white c) eqn:Hc; [done |]. by intros d [= <-].
Qed.

Lemma drop_while_drop p l : ∃ k, Str.drop_while p l = drop k l.
Proof.
  induction l as [|c l [k IH]]; simpl; [by exists 0%nat |].
  destruct (p c); [by exists (S k) | by exists 0%nat].
Qed.

Lemma trim_end_take l : ∃ n, Str.trim_end l = take n l.
Proof.
  unfold Str.trim_end. destruct (drop_while_drop Str.is_white (reverse l)) as [k ->].
  exists (length l - k)%nat. rewrite reverse_drop, length_reverse.
  by rewrite reverse_involutive.
Qed.

Lemma trim_end_ends_clear l c :
  last (Str.trim_end l) = Some c → Str.is_white c = false.
Proof.
  unfold Str.trim_end. rewrite last_reverse. apply drop_while_starts_clear.
Qed.

Lemma starts_clear_take n l : starts_clear l → starts_clear (take n l).
Proof. intros H c. destruct l, n; try done. simpl. apply H. Qed.

Lemma spaced_white_is_space l c :
  spaced l = true → c ∈ l → Str.is_white c = true → c = Str.space.
Proof.
  induction l as [|d l IH]; [by intros _ ?%elem_of_nil |].
  simpl. intros [Hd Hl]%andb_true_iff [->|Hin]%elem_of_cons Hc; [| by apply IH].
  rewrite Hc in Hd. apply andb_true_iff in Hd as [Hd _]. by apply Ascii.eqb_eq in Hd.
Qed.

Lemma spaced_not_adjacent l i :
  spaced l = true → ¬ (l !! i = Some Str.space ∧ l !! S i = Some Str.space).
Proof.
  revert i. induction l as [|c l IH]; intros i Hs [H1 H2]; [done |].
  destruct i as [|i].
  - simpl in H1, H2. injection H1 as ->. simpl in Hs.
    apply andb_true_iff in Hs as [Hnext _].
    destruct l as [|d l]; [done |]. simpl in H2. injection H2 as ->. done.
  - eapply (IH i); [by eapply spaced_tail | done].
Qed.

Lemma clean_single_spaced content : single_spaced (clean content).
Proof.
  unfold clean.
  destruct (replace_white_spaced content false) as [Hs _].
  fold (Str.replace_runs Str.is_white content) in Hs.
  unfold Str.replace_runs at 1.
  rewrite (replace_absent _ _ _ (spaced_no_newline _ Hs)).
  set (r := Str.replace_runs Str.is_white content) in *.
  unfold Str.trim. destruct (trim_end_take (Str.trim_start r)) as [n Hn].
  assert (Hsp : spaced (Str.trim_end (Str.trim_start r)) = true).
  { rewrite Hn. apply spaced_take. by apply spaced_drop_while. }
  assert (Hhead : starts_clear (Str.trim_end (Str.trim_start r))).
  { rewrite Hn. apply starts_clear_take, drop_while_starts_clear. }
  repeat split.
  - intros c. by apply spaced_white_is_space.
  - intros i. by apply spaced_not_adjacent.
  - intros H. by specialize (Hhead _ H).
  - intros H. by apply trim_end_ends_clear in H.
Qed.

(** [lastIndexOf]: the index found holds the character and no later index
    does; -1 when the character does not occur. *)
Lemma lastIndexOf_from_spec c l i found :
  let r := Str.lastIndexOf_from i c l found in
  (r = found ∧ c ∉ l)
  ∨ (i ≤ r < i + Z.of_nat (length l)
     ∧ l !! Z.to_nat (r - i) = Some c
     ∧ ∀ j : nat, (Z.to_nat (r - i) < j)%nat → l !! j ≠ Some c).
Proof.
  revert i found. induction l as [|x l IH]; intros i found; simpl.
  { left. split; [done | apply not_elem_of_nil]. }
  destruct (IH (i + 1) (if Ascii.eqb x c then i else found)) as [[Hr Hnot]|(Hr & Hat & Hlater)].
  - destruct (Ascii.eqb x c) eqn:Hx.
    + apply Ascii.eqb_eq in Hx as ->. right. rewrite Hr.
      replace (i - i) with 0 by lia. simpl. split; [lia |]. split; [done |].
      intros [|j] Hj; [lia |]. simpl. intros Hc. apply Hnot.
      by eapply list_elem_of_lookup_2.
    + left. split; [done |]. apply Ascii.eqb_neq in Hx.
      intros [->|?]%elem_of_cons; done.
  - right. split; [lia |].
    replace (Z.to_nat (Str.lastIndexOf_from (i + 1) c l (if Ascii.eqb x c then i else found) - i))
      with (S (Z.to_nat (Str.lastIndexOf_from (i + 1) c l (if Ascii.eqb x c then i else found) - (i + 1))))
      by lia.
    split; [done |]. intros [|j] Hj; [lia |]. simpl. apply Hlater. lia.
Qed.

Lemma lastIndexOf_spec c l :
  let r := Str.lastIndexOf c l in
  (r = -1 ∧ c ∉ l)
  ∨ (0 ≤ r < Z.of_nat (length l)
     ∧ l !! Z.to_nat r = Some c
     ∧ ∀ j : nat, (Z.to_nat r < j)%nat → l !! j ≠ Some c).
Proof.
  unfold Str.lastIndexOf. destruct (lastIndexOf_from_spec c l 0 (-1)) as [H|(H1 & H2 & H3)].
  - by left.
  - right. rewrite Z.sub_0_r in H2, H3. split; [lia | done].
Qed.

Lemma length_of_chars l : String.length (Str.of_chars l) = length l.
Proof. induction l as [|c l IH]; simpl; [done | by rewrite IH]. Qed.

Lemma chars_nonempty s : s ≠ "" → Js.truthy (VStr s) = true ∧
  Js.strict_eq (Js.prop (VStr s) "length") (VNum 0) = false.
Proof. destruct s; [done |]. intros _. split; reflexivity. Qed.

(** C5 (as stated, refuted): with 1000 characters, [maxContentLength = 50]
    and the space at index 40, the summary does not stop at the space: the
    cut is the hard one, 50 characters and the ellipsis. *)
Lemma summary_space_at_40_cut_hard :
  let content := content_space_at 40 in
  String.length content = 1000%nat ∧
  Str.chars content !! 40%nat = Some Str.space ∧
  createContentSummary (VStr content) (Some 50)
    = Ret (Str.of_chars (take 50 (Str.chars content) ++ ellipsis)) ∧
  createContentSummary (VStr content) (Some 50)
    ≠ Ret (Str.of_chars (take 40 (Str.chars content) ++ ellipsis)).
Proof.
  split; [by vm_compute |]. split; [by vm_compute |]. split; [by vm_compute |].
  intros H. vm_compute in H. discriminate.
Qed.

(** C5 (amended): the summary of non-empty content collapses whitespace to
    single spaces and trims it; content that is still longer than
    [maxLength] is truncated to [maxLength] characters and, exactly when the
    index of the last space of the truncated text is strictly greater than
    0.8 * [maxLength], cut back to the text before that space; ["..."] is
    appended in both cases, so the summary has at most [maxLength + 3]
    characters. *)
Theorem createContentSummary_policy (content : string) (maxLength : Z) :
  content ≠ "" → 0 ≤ maxLength →
  let cleaned := clean (Str.chars content) in
  let truncated := take (Z.to_nat maxLength) cleaned in
  let lastSpace := Str.lastIndexOf Str.space truncated in
  single_spaced cleaned ∧
  ∃ out,
    createContentSummary (VStr content) (Some maxLength) = Ret (Str.of_chars out) ∧
    (Z.of_nat (length cleaned) ≤ maxLength → out = cleaned) ∧
    (maxLength < Z.of_nat (length cleaned) →
       Z.of_nat (length out) ≤ maxLength + 3 ∧
       (4 * maxLength < 5 * lastSpace →
          out = take (Z.to_nat lastSpace) cleaned ++ ellipsis ∧
          cleaned !! Z.to_nat lastSpace = Some Str.space ∧
          ∀ j : nat, (Z.to_nat lastSpace < j < Z.to_nat maxLength)%nat →
                     cleaned !! j ≠ Some Str.space) ∧
       (5 * lastSpace ≤ 4 * maxLength → out = truncated ++ ellipsis)).
Proof.
  intros Hne Hmax cleaned truncated lastSpace.
  split; [apply clean_single_spaced |].
  destruct (chars_nonempty content Hne) as [Ht Hl].
  unfold createContentSummary. rewrite Ht, Hl. simpl.
  unfold summarize. fold cleaned.
  destruct (Z.leb_spec (Z.of_nat (length cleaned)) maxLength) as [Hshort|Hlong].
  { exists cleaned. split; [done |]. split; [done | lia]. }
  unfold cut, Str.substring0. fold truncated. fold lastSpace.
  assert (Htrunc : length truncated = Z.to_nat maxLength).
  { unfold truncated. rewrite length_take. lia. }
  pose proof (lastIndexOf_spec Str.space truncated) as Hspec.
  cbv zeta in Hspec. fold lastSpace in Hspec.
  destruct Hspec as [[Hr _]|(Hr & Hat & Hlater)].
  - (* no space in the window *)
    assert (H : (4 * maxLength <? 5 * lastSpace) = false) by (apply Z.ltb_ge; lia).
    rewrite H. exists (truncated ++ ellipsis).
    split; [done |]. split; [lia |]. intros _.
    split; [rewrite length_app, Htrunc; simpl; lia |].
    split; [lia | done].
  - destruct (Z.ltb_spec (4 * maxLength) (5 * lastSpace)) as [Hback|Hhard].
    + exists (take (Z.to_nat lastSpace) truncated ++ ellipsis).
      split; [done |]. split; [lia |]. intros _.
      assert (Htake : take (Z.to_nat lastSpace) truncated = take (Z.to_nat lastSpace) cleaned).
      { unfold truncated. rewrite take_take. f_equal. lia. }
      split; [rewrite length_app, length_take; simpl; lia |].
      split; [| lia]. intros _. split; [by rewrite Htake |].
      split.
      * unfold truncated in Hat. rewrite lookup_take_lt in Hat by lia. exact Hat.
      * intros j [Hj1 Hj2] Hc. apply (Hlater j Hj1).
        unfold truncated. by rewrite lookup_take_lt by lia.
    + exists (truncated ++ ellipsis).
      split; [done |]. split; [lia |]. intros _.
      split; [rewrite length_app, Htrunc; simpl; lia |].
      split; [lia | done].
Qed.

(** With the last space of the window at index 41 (beyond 0.8 * 50) the
    summary is the 41 characters before it and the ellipsis. *)
Lemma createContentSummary_policy_witness :
  createContentSummary (VStr (content_space_at 41)) (Some 50)
  = Ret (Str.of_chars (replicate 41 "a"%char ++ ellipsis)).
Proof.
  destruct (createContentSummary_policy (content_space_at 41) 50)
    as (_ & out & Hrun & _ & Hlong); [by vm_compute | lia |].
  destruct Hlong as (_ & Hback & _); [by vm_compute |].
  destruct Hback as (Hout & _); [by vm_compute |].
  rewrite Hrun, Hout. by vm_compute.
Defined.

(** ** Navigation affordances *)

Lemma evaluateScript_ok (E : Env) pageId script w v :
  pageId ∈ pages w →
  page_call E (trace w) pageId (Evaluate script) = Ret v →
  evaluateScript E pageId script w
  = (Ret (AutomationResult.ok (VObj [("result", v)])), log (EvPage pageId (Evaluate script)) w).
Proof.
  intros Hin Hcall. unfold evaluateScript, bind, has_page, try_catch, page_do, mret.
  rewrite bool_decide_eq_true_2 by done. simpl. by rewrite Hcall.
Qed.

(** When the navigation probe succeeds with a value [v], what
    [getNavigationState] returns is not [v] but the driver's wrapper
    [{result: v}], whose [canGoForward] and [history] are [undefined]. *)
Lemma getNavigationState_wrapped (E : Env) pageId w v :
  pageId ∈ pages w →
  page_call E (trace w) pageId (Evaluate SNavigationState) = Ret v →
  ∃ state w',
    getNavigationState E pageId w = (Ret state, w') ∧
    state = VObj [("result", v)] ∧
    Js.prop state "canGoForward" = VUndef ∧
    Js.prop state "history" = VUndef.
Proof.
  intros Hin Hcall. unfold getNavigationState.
  eexists _, _. split.
  - erewrite bind_ret by (by apply evaluateScript_ok). reflexivity.
  - done.
Qed.

(** When the probe fails, the fallback reports forward navigation and
    history as unavailable. *)
Lemma getNavigationState_fallback (E : Env) pageId w result w1 :
  evaluateScript E pageId SNavigationState w = (Ret result, w1) →
  AutomationResult.success result = false →
  ∃ state,
    getNavigationState E pageId w = (Ret state, w1) ∧
    Js.prop state "canGoForward" = VBool false ∧
    Js.prop state "history" = VArr [].
Proof.
  intros Hrun Hfail. unfold getNavigationState.
  eexists. split.
  - erewrite bind_ret by exact Hrun. by rewrite Hfail.
  - done.
Qed.

(** C8 (the code at the failing input): on a page whose navigation probe
    evaluates to [{canGoBack: true, canGoForward: false, history: []}], the
    snapshot's [canGoForward] and [navigationHistory] are [undefined], not
    [false] and the empty list. *)
Lemma navigation_unavailable_lost_on_success :
  ∃ context w',
    extractContext honest_env "page-1" no_options ready_world = (Ret context, w') ∧
    BrowserContext.error context = None ∧
    BrowserContext.canGoForward context = VUndef ∧
    BrowserContext.navigationHistory context = VUndef ∧
    BrowserContext.canGoForward context ≠ VBool false ∧
    BrowserContext.navigationHistory context ≠ VArr [].
Proof.
  eexists _, _. split; [by vm_compute |]. by repeat split.
Qed.

(** ** The conversation store *)

Lemma store_get_delete id cs : store_get id (store_delete id cs) = None.
Proof.
  unfold store_get, store_delete. induction cs as [|[k c] cs IH]; [done |].
  rewrite filter_cons. simpl. destruct (decide (k ≠ id)) as [Hk|Hk]; [| done].
  simpl. destruct (String.eqb_spec id k) as [->|_]; done.
Qed.

Lemma store_get_delete_ne id id' cs :
  id' ≠ id → store_get id' (store_delete id cs) = store_get id' cs.
Proof.
  intros Hne. unfold store_get, store_delete. induction cs as [|[k c] cs IH]; [done |].
  rewrite filter_cons. simpl. destruct (decide (k ≠ id)) as [Hk|Hk]; simpl.
  - by rewrite IH.
  - apply dec_stable in Hk as ->. rewrite IH.
    destruct (String.eqb_spec id' id) as [->|_]; done.
Qed.

Lemma store_delete_values id cs :
  (∀ k c, (k, c) ∈ cs → AgentConversation.id c = k) →
  (store_delete id cs).*2 = filter (λ c, AgentConversation.id c ≠ id) (cs.*2).
Proof.
  unfold store_delete. induction cs as [|[k c] cs IH]; intros Hwf; [done |].
  assert (Hk : AgentConversation.id c = k) by (apply Hwf; left).
  assert (Hcs : ∀ k c, (k, c) ∈ cs → AgentConversation.id c = k)
    by (intros ???; apply Hwf; by right).
  rewrite fmap_cons, !filter_cons. simpl. rewrite Hk.
  destruct (decide (k ≠ id)); [rewrite fmap_cons |]; by rewrite IH.
Qed.

Lemma insert_conversation_first a l :
  Forall (λ b, AgentConversation.lastActivity b ≤ AgentConversation.lastActivity a) l →
  insert_conversation a l = a :: l.
Proof.
  intros H. destruct H as [|b l Hb _]; [done |]. simpl.
  destruct (Z.leb_spec (AgentConversation.lastActivity b - AgentConversation.lastActivity a) 0);
    [done | lia].
Qed.

Lemma insert_conversation_elem a l c :
  c ∈ insert_conversation a l ↔ c = a ∨ c ∈ l.
Proof.
  induction l as [|b l IH]; simpl; [by rewrite elem_of_cons |].
  destruct (_ <=? _); [by rewrite elem_of_cons |].
  rewrite !elem_of_cons, IH. tauto.
Qed.

Lemma insert_conversation_sorted a l :
  newest_first l → newest_first (insert_conversation a l).
Proof.
  unfold newest_first. induction 1 as [|b l Hl IH Hb]; simpl.
  { repeat constructor. }
  destruct (Z.leb_spec (AgentConversation.lastActivity b - AgentConversation.lastActivity a) 0)
    as [Hle|Hgt].
  - constructor; [by constructor |]. constructor; [lia |].
    eapply Forall_impl; [exact Hb |]. simpl. intros; lia.
  - constructor; [exact IH |]. apply Forall_forall. intros c Hc.
    apply insert_conversation_elem in Hc as [->|Hc]; [lia |].
    by eapply Forall_forall in Hb.
Qed.

Lemma sort_conversations_sorted l : newest_first (sort_conversations l).
Proof.
  induction l as [|a l IH]; simpl; [constructor | by apply insert_conversation_sorted].
Qed.

Lemma filter_insert_conversation (P : AgentConversation.t → Prop)
    `{!∀ c, Decision (P c)} a l :
  newest_first l →
  filter P (insert_conversation a l)
  = if decide (P a) then insert_conversation a (filter P l) else filter P l.
Proof.
  unfold newest_first. induction 1 as [|b l Hl IH Hb]; simpl.
  { rewrite filter_cons, filter_nil. by destruct (decide (P a)). }
  destruct (Z.leb_spec (AgentConversation.lastActivity b - AgentConversation.lastActivity a) 0)
    as [Hle|Hgt].
  - rewrite (filter_cons _ a). destruct (decide (P a)) as [Ha|Ha]; [| done].
    rewrite insert_conversation_first; [done |].
    apply Forall_forall. intros c Hc. apply list_elem_of_filter in Hc as [_ Hc].
    apply elem_of_cons in Hc as [->|Hc]; [lia |].
    eapply Forall_forall in Hb; [| exact Hc]. simpl in Hb. lia.
  - rewrite !(filter_cons _ b), IH.
    destruct (decide (P b)), (decide (P a)); simpl; try done.
    destruct (Z.leb_spec (AgentConversation.lastActivity b - AgentConversation.lastActivity a) 0);
      [lia | done].
Qed.

Lemma filter_sort_conversations (P : AgentConversation.t → Prop)
    `{!∀ c, Decision (P c)} l :
  filter P (sort_conversations l) = sort_conversations (filter P l).
Proof.
  induction l as [|a l IH]; [done |]. simpl.
  rewrite filter_insert_conversation by apply sort_conversations_sorted.
  rewrite filter_cons, IH. by destruct (decide (P a)).
Qed.

Lemma activeConversations_delete t id cs :
  (∀ k c, (k, c) ∈ cs → AgentConversation.id c = k) →
  activeConversations t (store_delete id cs)
  = filter (λ c, AgentConversation.id c ≠ id) (activeConversations t cs).
Proof.
  intros Hwf. unfold activeConversations.
  rewrite filter_sort_conversations. f_equal.
  rewrite store_delete_values by done.
  rewrite !list_filter_filter. apply list_filter_iff. intros c. tauto.
Qed.

Lemma store_delete_wf id cs : store_wf cs → store_wf (store_delete id cs).
Proof.
  intros [Hnd Hid]. unfold store_delete. split.
  - induction cs as [|[k c] cs IH]; [done |].
    rewrite filter_cons. simpl in *. apply NoDup_cons in Hnd as [Hk Hnd].
    assert (Hcs : ∀ k c, (k, c) ∈ cs → AgentConversation.id c = k)
      by (intros ???; apply Hid; by right).
    destruct (decide (k ≠ id)); [| by apply IH].
    rewrite fmap_cons. apply NoDup_cons. split; [| by apply IH].
    simpl. intros Hin. apply Hk. apply list_elem_of_fmap in Hin as ([k' c'] & -> & Hin).
    apply list_elem_of_filter in Hin as [_ Hin]. apply list_elem_of_fmap. by exists (k', c').
  - intros k c Hin. apply list_elem_of_filter in Hin as [_ Hin]. by apply Hid.
Qed.

(** [getActiveConversations] reads the clock once and returns the active
    list for that instant. *)
Lemma getActiveConversations_at (E : Env) (w : World) :
  getActiveConversations E w
  = (Ret (activeConversations (clock E (ticks w)) (conversations w)), tick w).
Proof. reflexivity. Qed.

(** C9: clearing a conversation removes exactly that conversation: it is no
    longer found under its id nor listed as active; every other conversation
    (on the same page session or not) is found as before, and the active
    list is the former one without the cleared conversation, in the same
    order.  Nothing else in the world changes. *)
Theorem clearConversation_removes_exactly (id : string) (w : World) :
  store_wf (conversations w) →
  ∃ w',
    clearConversation id w = (Ret tt, w') ∧
    store_wf (conversations w') ∧
    store_get id (conversations w') = None ∧
    (∀ t c, c ∈ activeConversations t (conversations w') → AgentConversation.id c ≠ id) ∧
    (∀ id', id' ≠ id →
       store_get id' (conversations w') = store_get id' (conversations w)) ∧
    (∀ t, activeConversations t (conversations w')
          = filter (λ c, AgentConversation.id c ≠ id)
              (activeConversations t (conversations w))) ∧
    set_conversations (conversations w) w' = w.
Proof.
  intros Hwf. eexists. split; [reflexivity |]. simpl.
  split; [by apply store_delete_wf |].
  split; [apply store_get_delete |].
  destruct Hwf as [_ Hid].
  split; [| split; [| split]].
  - intros t c. rewrite activeConversations_delete by done.
    by intros [? _]%list_elem_of_filter.
  - intros id' Hne. by apply store_get_delete_ne.
  - intros t. by apply activeConversations_delete.
  - by destruct w.
Qed.

Lemma clearConversation_removes_exactly_witness :
  ∃ w',
    clearConversation "a" busy_world = (Ret tt, w') ∧
    AgentConversation.id <$> activeConversations 100 (conversations busy_world)
      = ["b"; "c"; "a"] ∧
    AgentConversation.id <$> activeConversations 100 (conversations w') = ["b"; "c"].
Proof.
  destruct (clearConversation_removes_exactly "a" busy_world)
    as (w' & Hrun & _ & _ & _ & _ & Hlist & _).
  { split; [apply (bool_decide_unpack _); by vm_compute |].
    intros k c Hin. unfold busy_world, three_conversations in Hin. simpl in Hin.
    repeat (apply elem_of_cons in Hin as [[= -> ->]|Hin]; [done |]).
    by apply elem_of_nil in Hin. }
  exists w'. split; [exact Hrun |]. split; [by vm_compute |].
  rewrite Hlist. by vm_compute.
Defined.

(** ** Filling a form *)

Lemma seq_throws {A B : Type} (m : M A) (k : M B) w :
  is_throw (bind m (λ _, k) w).1 = is_throw (m w).1 || is_throw (k (m w).2).1.
Proof. unfold bind. by destruct (m w) as [[a|msg] w1]. Qed.

Lemma try_catch_flag (m : M unit) w :
  try_catch (bind m (λ _, mret true)) (λ _, mret false) w
  = (Ret (negb (is_throw (m w).1)), (m w).2).
Proof. unfold try_catch, bind, mret. by destruct (m w) as [[[]|msg] w1]. Qed.

Lemma assign_fresh {A : Type} (k : string) (v : A) ps :
  k ∉ ps.*1 → Js.assign k v ps = ps ++ [(k, v)].
Proof.
  induction ps as [|[k' v'] ps IH]; [done |]. simpl. intros Hk.
  apply not_elem_of_cons in Hk as [Hne Hk].
  destruct (String.eqb_spec k k') as [->|_]; [done |]. by rewrite IH.
Qed.

Section FillForm.

Context (E : Env) (pageId : string) (fails : PageCall → bool).
Hypothesis page_fails : ∀ tr c, is_throw (page_call E tr pageId c) = fails c.

Lemma page_do_throws c w : is_throw (page_do E pageId c w).1 = fails c.
Proof. apply page_fails. Qed.

Lemma fill_field_throws selector value w :
  is_throw (fill_field E pageId selector value w).1
  = negb (field_filled fails selector value).
Proof.
  unfold fill_field, field_filled. rewrite negb_involutive.
  rewrite !seq_throws, !page_do_throws. simpl. by rewrite orb_false_r, !orb_assoc.
Qed.

Lemma fill_fields_results fields results w :
  NoDup (results.*1 ++ fields.*1) →
  ∃ w',
    fill_fields E pageId fields results w
    = (Ret (results ++ ((λ f, (f.1, VBool (field_filled fails f.1 f.2))) <$> fields)), w').
Proof.
  revert results w. induction fields as [|[selector value] fields IH]; intros results w Hnd.
  { exists w. simpl. by rewrite app_nil_r. }
  simpl. erewrite bind_ret by apply try_catch_flag.
  rewrite fill_field_throws, negb_involutive.
  rewrite assign_fresh.
  2:{ apply NoDup_app in Hnd as (_ & Hdis & _). intros Hin.
      apply (Hdis _ Hin). rewrite fmap_cons. left. }
  edestruct (IH (results ++ [(selector, VBool (field_filled fails selector value))]))
    as [w' ->].
  { rewrite fmap_app, <- (assoc_L (++)). exact Hnd. }
  exists w'. by rewrite <- (assoc_L (++)).
Qed.

Lemma fillForm_results fields w :
  pageId ∈ pages w → NoDup fields.*1 → fails Url = false →
  ∃ u w',
    fillForm E pageId (VObj fields) w
    = (Ret (AutomationResult.ok
              (VObj [("formData",
                      VObj ((λ f, (f.1, VBool (field_filled fails f.1 f.2))) <$> fields));
                     ("currentUrl", u)])), w').
Proof.
  intros Hin Hnd Hurl. unfold fillForm.
  erewrite bind_ret; [| unfold has_page; by rewrite bool_decide_eq_true_2].
  simpl. destruct (fill_fields_results fields [] w Hnd) as [w1 H1].
  pose proof (page_do_throws Url w1) as Hu. rewrite Hurl in Hu.
  destruct (page_do E pageId Url w1) as [[u|msg] w2] eqn:H2; [| done].
  exists u, w2. apply try_catch_ret.
  erewrite bind_ret by exact H1. by erewrite bind_ret by exact H2.
Qed.

End FillForm.

Lemma dispatch_fill_form (E : Env) toolCall options :
  BrowserToolCall.name toolCall = "fill_form" →
  dispatch E toolCall options =
    executeFillForm E (BrowserToolCall.arguments toolCall) options.
Proof. intros H. unfold dispatch. by rewrite H. Qed.

(** Once the gate is passed and the driver is ready, [executeTool] returns
    what the tool implementation returns, when that raises nothing. *)
Lemma executeTool_dispatched (E : Env) toolCall options w result w1 :
  canExecuteTool (BrowserToolCall.name toolCall)
    (safetyOf (BrowserToolCall.name toolCall)) options = true →
  isInitialized w && browser w = true →
  dispatch E toolCall options w = (Ret result, w1) →
  ∃ w', executeTool E toolCall options w = (Ret result, w').
Proof.
  intros Hgate Hready Hrun.
  assert (∃ w', executeTool_body E toolCall options w = (Ret result, w')) as [w' Hbody].
  { unfold executeTool_body. rewrite Hgate. simpl.
    erewrite bind_ret; [| unfold isReady; by rewrite Hready]. simpl.
    erewrite bind_ret by reflexivity. simpl.
    erewrite bind_ret by exact Hrun.
    match goal with
    | |- ∃ _, bind ?m _ _ = _ => assert (Ht : total m)
    end.
    { destruct (flag _ && _); [| apply total_mret].
      apply total_try_catch. intros _. apply total_mret. }
    destruct (Ht w1) as ([] & w2 & H2). exists w2. by erewrite bind_ret by exact H2. }
  exists w'. by apply try_catch_ret.
Qed.




(** ** What the driver side leaves alone *)

Lemma quiet_mret {A : Type} (a : A) : quiet (mret a).
Proof. by intros w. Qed.

Lemma quiet_throw {A : Type} (msg : string) : quiet (@throw A msg).
Proof. by intros w. Qed.

Lemma quiet_bind {A B : Type} (m : M A) (k : A → M B) :
  quiet m → (∀ a, quiet (k a)) → quiet (bind m k).
Proof.
  intros Hm Hk w. unfold bind. specialize (Hm w).
  destruct (m w) as [[a|msg] w1]; simpl in *; [| done].
  destruct Hm as [<- <-]. apply Hk.
Qed.

Lemma quiet_try_catch {A : Type} (m : M A) (h : string → M A) :
  quiet m → (∀ msg, quiet (h msg)) → quiet (try_catch m h).
Proof.
  intros Hm Hh w. unfold try_catch. specialize (Hm w).
  destruct (m w) as [[a|msg] w1]; simpl in *; [done |].
  destruct Hm as [<- <-]. apply Hh.
Qed.

Lemma sends_snoc_other tr e : is_send e = false → sends (tr ++ [e]) = sends tr.
Proof.
  intros He. unfold sends. rewrite filter_app, filter_cons, filter_nil.
  rewrite He. simpl. by rewrite app_nil_r.
Qed.

Lemma quiet_page_do (E : Env) pageId c : quiet (page_do E pageId c).
Proof. intros w. simpl. by rewrite sends_snoc_other. Qed.

Lemma quiet_launch_do (E : Env) : quiet (launch_do E).
Proof. intros w. simpl. by rewrite sends_snoc_other. Qed.

Lemma quiet_now (E : Env) : quiet (now E).
Proof. by intros w. Qed.

Lemma quiet_get v k : quiet (get v k).
Proof. unfold get. destruct (Js.nullish v); [apply quiet_throw | apply quiet_mret]. Qed.

Create HintDb quiet discriminated.
#[export] Hint Resolve quiet_mret quiet_throw quiet_page_do quiet_launch_do
  quiet_now quiet_get : quiet.

(** One step of the proof that a computation is [quiet]: follow its
    structure; a state access written as a function of the world is settled
    by computation. *)
Ltac quiet_step :=
  lazymatch goal with
  | |- quiet (bind _ _) => apply quiet_bind; [| intros ?]
  | |- quiet (try_catch _ _) => apply quiet_try_catch; [| intros ?]
  | |- quiet (if ?b then _ else _) => destruct b
  | |- quiet (match ?x with _ => _ end) => destruct x
  | |- quiet (λ _, _) => by intros ?
  | |- quiet _ => solve [eauto with quiet]
  end.
Ltac quiet := cbv zeta; repeat quiet_step.

Lemma quiet_has_page pageId : quiet (has_page pageId).
Proof. by intros w. Qed.
Lemma quiet_isReady : quiet isReady.
Proof. by intros w. Qed.
#[export] Hint Resolve quiet_has_page quiet_isReady : quiet.

Lemma quiet_initialize (E : Env) : quiet (initialize E).
Proof. unfold initialize. quiet. Qed.
#[export] Hint Resolve quiet_initialize : quiet.

Lemma quiet_getPageInfo (E : Env) pageId : quiet (getPageInfo E pageId).
Proof. unfold getPageInfo. quiet. Qed.
#[export] Hint Resolve quiet_getPageInfo : quiet.

Lemma quiet_navigateToUrl (E : Env) pageId url : quiet (navigateToUrl E pageId url).
Proof. unfold navigateToUrl. quiet. Qed.

Lemma quiet_getPageContent (E : Env) pageId : quiet (getPageContent E pageId).
Proof. unfold getPageContent. quiet. Qed.

Lemma quiet_takeScreenshot (E : Env) pageId fullPage : quiet (takeScreenshot E pageId fullPage).
Proof. unfold takeScreenshot. quiet. Qed.

Lemma quiet_clickElement (E : Env) pageId selector : quiet (clickElement E pageId selector).
Proof. unfold clickElement. quiet. Qed.

Lemma quiet_fill_field (E : Env) pageId selector value :
  quiet (fill_field E pageId selector value).
Proof. unfold fill_field. quiet. Qed.
#[export] Hint Resolve quiet_fill_field : quiet.

Lemma quiet_fill_fields (E : Env) pageId fields results :
  quiet (fill_fields E pageId fields results).
Proof.
  revert results. induction fields as [|[selector value] fields IH]; intros results; simpl.
  - apply quiet_mret.
  - quiet.
Qed.

#[export] Hint Resolve quiet_fill_fields : quiet.

Lemma quiet_fillForm (E : Env) pageId formData : quiet (fillForm E pageId formData).
Proof. unfold fillForm. quiet. Qed.

Lemma quiet_evaluateScript (E : Env) pageId script : quiet (evaluateScript E pageId script).
Proof. unfold evaluateScript. quiet. Qed.

#[export] Hint Resolve quiet_navigateToUrl quiet_getPageContent quiet_takeScreenshot
  quiet_clickElement quiet_fillForm quiet_evaluateScript : quiet.

Lemma quiet_extractContext (E : Env) pageId options :
  quiet (extractContext E pageId options).
Proof.
  unfold extractContext, extract_body, minimal_context, getBasicPageInfo,
    extractInteractiveElements, getNavigationState, getViewportInfo.
  quiet.
Qed.

Lemma quiet_manager_updateContext context : quiet (manager_updateContext context).
Proof. by intros w. Qed.
#[export] Hint Resolve quiet_extractContext quiet_manager_updateContext : quiet.

Lemma quiet_updateContext (E : Env) pageId options :
  quiet (updateContext E pageId options).
Proof. unfold updateContext. quiet. Qed.

Lemma quiet_getContextSummary (E : Env) : quiet (getContextSummary E).
Proof. by intros w. Qed.

Lemma quiet_dispatch (E : Env) toolCall options : quiet (dispatch E toolCall options).
Proof.
  unfold dispatch, executeNavigate, executeClick, executeType, executeScroll,
    executeScreenshot, executeExtractText, executeExtractLinks, executeWaitForElement,
    executeGetPageInfo, executeFillForm, executeEvaluateScript.
  quiet.
Qed.

#[export] Hint Resolve quiet_dispatch quiet_updateContext quiet_getContextSummary : quiet.

Lemma quiet_executeTool (E : Env) toolCall options : quiet (executeTool E toolCall options).
Proof. unfold executeTool, executeTool_body. quiet. Qed.
#[export] Hint Resolve quiet_executeTool : quiet.

(** ** The conversation loop *)

Lemma in_order_length E options toolCalls w results w' :
  executed_in_order E options toolCalls w results w' →
  length results = length toolCalls.
Proof. induction 1; simpl; congruence. Qed.

Lemma in_order_quiet E options toolCalls w results w' :
  executed_in_order E options toolCalls w results w' →
  sends (trace w') = sends (trace w).
Proof.
  induction 1 as [|toolCall rest w result w1 results w2 Hrun _ IH]; [done |].
  rewrite IH. pose proof (quiet_executeTool E toolCall (execution_options options) w) as [Hq _].
  by rewrite Hrun in Hq.
Qed.

Lemma executeToolCalls_from_in_order E options toolCalls done w :
  ∃ results w',
    executeToolCalls_from E toolCalls options done w = (Ret (done ++ results), w') ∧
    executed_in_order E options toolCalls w results w'.
Proof.
  revert done w. induction toolCalls as [|toolCall rest IH]; intros done w; simpl.
  { exists [], w. rewrite app_nil_r. split; [done | constructor]. }
  destruct (total_executeTool E toolCall (execution_options options) w) as (result & w1 & Hrun).
  destruct (IH (done ++ [result]) w1) as (results & w2 & Hrest & Hord).
  exists (result :: results), w2. split.
  - erewrite bind_ret by exact Hrun. rewrite Hrest. by rewrite <- (assoc_L (++)).
  - by econstructor.
Qed.

Lemma executeToolCalls_in_order E options toolCalls w :
  ∃ results w',
    executeToolCalls E toolCalls options w = (Ret results, w') ∧
    executed_in_order E options toolCalls w results w'.
Proof. apply (executeToolCalls_from_in_order E options toolCalls []). Qed.

Lemma or_str_empty s : Js.or_str s "" = s.
Proof. unfold Js.or_str. by destruct (String.eqb_spec s "") as [->|]. Qed.

Lemma assoc_assign {A : Type} (k : string) (v : A) ps :
  Js.assoc k (Js.assign k v ps) = Some v.
Proof.
  induction ps as [|[k' v'] ps IH]; simpl.
  - by rewrite String.eqb_refl.
  - destruct (String.eqb_spec k k') as [->|Hne]; simpl.
    + by rewrite String.eqb_refl.
    + destruct (String.eqb_spec k k'); [done | exact IH].
Qed.

Lemma push_tool_messages_spec E toolCalls i toolResults conversation w :
  (i + length toolCalls)%nat = length toolResults →
  Forall (formattable E) (drop i toolResults) →
  ∃ conversation' w' toolMessages,
    push_tool_messages E i toolCalls toolResults conversation w = (Ret conversation', w') ∧
    AgentConversation.messages conversation'
      = AgentConversation.messages conversation ++ toolMessages ∧
    AgentConversation.id conversation' = AgentConversation.id conversation ∧
    answers E toolCalls (drop i toolResults) toolMessages ∧
    trace w' = trace w.
Proof.
  revert i conversation w.
  induction toolCalls as [|toolCall rest IH]; intros i conversation w Hlen Hfmt; simpl in *.
  { exists conversation, w, []. rewrite app_nil_r.
    rewrite drop_ge by lia. by repeat split. }
  destruct (lookup_lt_is_Some_2 toolResults i) as [result Hi]; [lia |].
  rewrite (drop_S _ _ _ Hi) in Hfmt. apply Forall_cons in Hfmt as [[text Htext] Hfmt].
  rewrite Hi.
  erewrite bind_ret; [| unfold lift; by rewrite Htext].
  erewrite bind_ret by reflexivity.
  erewrite bind_ret by reflexivity.
  edestruct (IH (S i)) as (conversation' & w' & toolMessages & Hrun & Hmsgs & Hid & Hans & Htr);
    [lia | exact Hfmt |].
  rewrite Hrun. eexists _, _, (_ :: toolMessages).
  split; [reflexivity |]. rewrite Hmsgs, Hid. simpl.
  split; [by rewrite <- (assoc_L (++)) |]. split; [done |]. split; [| by rewrite Htr].
  destruct Hans as (H1 & H2 & H3 & H4).
  rewrite (drop_S _ _ _ Hi).
  split; [simpl; by rewrite H1 |]. split; [by constructor |].
  rewrite !fmap_cons. split; [by rewrite H3 | by rewrite H4, Htext].
Qed.

Lemma getFollowUpResponse_sends E service messages tools w :
  ∃ reply,
    getFollowUpResponse E service messages tools w
    = (Ret reply,
       log (EvSend service (supportsToolCalling E service) messages
              (if supportsToolCalling E service then tools else [])) w).
Proof.
  unfold getFollowUpResponse, try_catch, send, mret.
  destruct (supportsToolCalling E service);
    destruct (backend E (trace w) service _ messages) as [reply|msg]; by eexists.
Qed.

Lemma sends_snoc_send tr service withTools messages tools :
  sends (tr ++ [EvSend service withTools messages tools])
  = sends tr ++ [EvSend service withTools messages tools].
Proof. unfold sends. by rewrite filter_app. Qed.

(** What the branch of a response with tool calls does. *)
Lemma run_tool_calls_spec E service tools response toolCalls options agentResponse
    conversation w :
  batch_formattable E options toolCalls w →
  ∃ reply conversation' w' w3 t toolMessages,
    run_tool_calls E service tools response toolCalls options agentResponse conversation w
      = (Ret (reply, conversation'), w') ∧
    executed_in_order E options toolCalls w (AgentResponse.toolResults reply) w3 ∧
    AgentConversation.id conversation' = AgentConversation.id conversation ∧
    AgentConversation.messages conversation'
      = AgentConversation.messages conversation
        ++ [AIMessage.mk assistant (AIResponse.content response) (Some t)
              (Some toolCalls) None]
        ++ toolMessages ∧
    answers E toolCalls (AgentResponse.toolResults reply) toolMessages ∧
    sends (trace w')
      = sends (trace w)
        ++ (if existsb BrowserToolResult.success (AgentResponse.toolResults reply)
            then [EvSend service (supportsToolCalling E service)
                    (AgentConversation.messages conversation')
                    (if supportsToolCalling E service then tools else [])]
            else []) ∧
    (existsb BrowserToolResult.success (AgentResponse.toolResults reply) = false →
     AgentResponse.message reply = AgentResponse.message agentResponse).
Proof.
  intros Hfmt. unfold run_tool_calls.
  destruct (executeToolCalls_in_order E options toolCalls w) as (results & w3 & Hexec & Hord).
  specialize (Hfmt results w3 Hexec).
  erewrite bind_ret by exact Hexec.
  erewrite bind_ret by reflexivity. erewrite bind_ret by reflexivity.
  rewrite or_str_empty.
  edestruct (push_tool_messages_spec E toolCalls 0 results)
    as (conversation' & w4 & toolMessages & Hpush & Hmsgs & Hid & Hans & Htr).
  { by rewrite (in_order_length _ _ _ _ _ _ Hord). }
  { by rewrite drop_0. }
  erewrite bind_ret by exact Hpush. rewrite drop_0 in Hans.
  simpl in Hmsgs, Hid, Htr.
  destruct (existsb BrowserToolResult.success results) eqn:Hsome.
  - destruct (getFollowUpResponse_sends E service
                (AgentConversation.messages conversation') tools w4) as [followUp Hfollow].
    erewrite bind_ret; [| by erewrite bind_ret by exact Hfollow]. simpl.
    match goal with
    | |- context [bind (updateContext E ?p ?o) _ ?w5] =>
        destruct (total_updateContext E p o w5) as (c & w6 & Hupd);
        pose proof (quiet_updateContext E p o w5) as [Hq _]
    end.
    rewrite Hupd in Hq. simpl in Hq.
    erewrite bind_ret by exact Hupd. erewrite bind_ret by reflexivity.
    eexists _, _, _, w3, _, toolMessages. split; [reflexivity |]. simpl.
    rewrite Hsome. split; [done |]. split; [done |].
    split; [by rewrite Hmsgs, <- (assoc_L (++)) |]. split; [done |].
    split; [| done].
    rewrite Hq, sends_snoc_send, Htr. simpl.
    by rewrite (in_order_quiet _ _ _ _ _ _ Hord).
  - erewrite bind_ret by reflexivity.
    match goal with
    | |- context [bind (updateContext E ?p ?o) _ ?w5] =>
        destruct (total_updateContext E p o w5) as (c & w6 & Hupd);
        pose proof (quiet_updateContext E p o w5) as [Hq _]
    end.
    rewrite Hupd in Hq. simpl in Hq.
    erewrite bind_ret by exact Hupd. erewrite bind_ret by reflexivity.
    eexists _, _, _, w3, _, toolMessages. split; [reflexivity |]. simpl.
    rewrite Hsome. split; [done |]. split; [done |].
    split; [by rewrite Hmsgs, <- (assoc_L (++)) |]. split; [done |].
    split; [| done].
    rewrite Hq, Htr. simpl. rewrite app_nil_r.
    by rewrite (in_order_quiet _ _ _ _ _ _ Hord).
Qed.

(** A turn whose response carries tool calls, from the request on. *)
Lemma tool_turn E conversationId userMessage options w conversation context w1
    response toolCalls :
  open_turn E conversationId userMessage options w = (Ret (conversation, context), w1) →
  service_available E (AgentExecutionOptions.serviceType options) = true →
  backend E (trace w1) (AgentExecutionOptions.serviceType options)
    (asks_with_tools E (AgentExecutionOptions.serviceType options))
    (AgentConversation.messages conversation) = Ret response →
  AIResponse.toolCalls response = Some toolCalls →
  toolCalls ≠ [] →
  batch_formattable E options toolCalls (log (first_request E options conversation) w1) →
  ∃ reply w' w3 final t toolMessages,
    sendMessage E conversationId userMessage options w = (Ret reply, w') ∧
    executed_in_order E options toolCalls
      (log (first_request E options conversation) w1)
      (AgentResponse.toolResults reply) w3 ∧
    store_get (AgentConversation.id conversation) (conversations w') = Some final ∧
    AgentConversation.messages final
      = AgentConversation.messages conversation
        ++ [AIMessage.mk assistant (AIResponse.content response) (Some t)
              (Some toolCalls) None]
        ++ toolMessages ∧
    answers E toolCalls (AgentResponse.toolResults reply) toolMessages ∧
    sends (trace w')
      = sends (trace w1) ++ [first_request E options conversation]
        ++ (if existsb BrowserToolResult.success (AgentResponse.toolResults reply)
            then [follow_up_request E options (AgentConversation.messages final)]
            else []) ∧
    (existsb BrowserToolResult.success (AgentResponse.toolResults reply) = false →
     AgentResponse.message reply = Js.or_str (AIResponse.content response) placeholder).
Proof.
  intros Hopen Hservice Hbackend Hcalls Hsome Hfmt.
  set (service := AgentExecutionOptions.serviceType options) in *.
  set (w2 := log (first_request E options conversation) w1) in *.
  set (initial :=
         {| AgentResponse.message := Js.or_str (AIResponse.content response) placeholder;
            AgentResponse.toolResults := [];
            AgentResponse.contextUpdate := None;
            AgentResponse.screenshot :=
              if flag (AgentExecutionOptions.includeScreenshot options)
              then BrowserContext.screenshot context else VUndef |}).
  destruct (run_tool_calls_spec E service (offered_tools E service) response toolCalls
              options initial conversation w2 Hfmt)
    as (reply & conversation' & w' & w3 & t & toolMessages
        & Hrun & Hord & Hid & Hmsgs & Hans & Hsends & Hmessage).
  assert (Hbody : answer_turn E options conversation context w1
                  = (Ret reply,
                     set_conversations
                       (store_set (AgentConversation.id conversation')
                          (with_lastActivity (clock E (ticks w')) conversation')
                          (conversations w')) (tick w'))).
  { unfold answer_turn. fold service. rewrite Hservice.
    erewrite bind_ret by reflexivity.
    erewrite bind_ret; [| unfold send; rewrite Hbackend; reflexivity].
    rewrite Hcalls. fold initial. fold w2.
    destruct toolCalls as [|toolCall rest]; [done |].
    erewrite bind_ret by exact Hrun. reflexivity. }
  eexists reply, _, w3, _, t, toolMessages. split.
  { unfold sendMessage, sendMessage_body. apply try_catch_ret.
    erewrite bind_ret by exact Hopen. exact Hbody. }
  split; [exact Hord |]. simpl.
  split; [rewrite <- Hid; apply assoc_assign |].
  split; [exact Hmsgs |]. split; [exact Hans |]. split; [| exact Hmessage].
  rewrite Hsends. unfold w2, first_request, follow_up_request. fold service.
  simpl. rewrite sends_snoc_send, <- (assoc_L (++)).
  by destruct (existsb _ _).
Qed.

Lemma formattable_without_bigint (E : Env) result :
  Js.has_bigint (BrowserToolResult.data result) = false → formattable E result.
Proof.
  intros Hdata. unfold formattable, formatToolResult, stringify. rewrite Hdata.
  destruct (negb _); [by eexists |].
  destruct (Js.truthy _); [| by eexists].
  destruct (BrowserToolResult.data result); by eexists.
Qed.

(** C3 (the code at the failing input): the assistant message is stored before
    the loop that formats the results, and formatting a result whose data
    holds a [BigInt] raises.  A turn whose only tool call evaluates
    [2n ** 64n] runs the call, which succeeds, and ends in the error reply;
    the conversation is left with the assistant message and its one tool
    call, and with no [tool] message for it. *)
Lemma bigint_result_leaves_call_unanswered :
  ∃ reply w' final,
    sendMessage bigint_env "conversation-1" "compute it" confirmed_options ready_world
      = (Ret reply, w') ∧
    AgentResponse.message reply
      = "I encountered an error: Do not know how to serialize a BigInt. Please try again." ∧
    AgentResponse.toolResults reply = [] ∧
    EvPage "page-1" (Evaluate (SCallerScript (VStr "2n ** 64n"))) ∈ trace w' ∧
    store_get "conversation-1" (conversations w') = Some final ∧
    AIMessage.role <$> AgentConversation.messages final = [system; user; assistant] ∧
    AIMessage.toolCalls <$> AgentConversation.messages final
      = [None; None; Some [bigint_call]].
Proof.
  eexists _, _, _. split; [by vm_compute |].
  split; [reflexivity |]. split; [reflexivity |].
  split; [| by repeat split]. simpl. set_solver.
Qed.






(** ** The driver wrapper on a page that is not registered *)

Lemma has_page_absent pageId w :
  pageId ∉ pages w → has_page pageId w = (Ret false, w).
Proof. intros H. unfold has_page. by rewrite bool_decide_eq_false_2. Qed.

Lemma has_page_present pageId w :
  pageId ∈ pages w → has_page pageId w = (Ret true, w).
Proof. intros H. unfold has_page. by rewrite bool_decide_eq_true_2. Qed.

Lemma evaluateScript_absent (E : Env) pageId script w :
  pageId ∉ pages w →
  evaluateScript E pageId script w = (Ret (page_not_found pageId), w).
Proof.
  intros H. unfold evaluateScript. by erewrite bind_ret by by apply has_page_absent.
Qed.

Lemma getPageContent_absent (E : Env) pageId w :
  pageId ∉ pages w → getPageContent E pageId w = (Ret (page_not_found pageId), w).
Proof.
  intros H. unfold getPageContent. by erewrite bind_ret by by apply has_page_absent.
Qed.

Lemma takeScreenshot_absent (E : Env) pageId fullPage w :
  pageId ∉ pages w →
  takeScreenshot E pageId fullPage w = (Ret (page_not_found pageId), w).
Proof.
  intros H. unfold takeScreenshot. by erewrite bind_ret by by apply has_page_absent.
Qed.

(** X1: on a page id that is not registered, every method of the driver
    wrapper returns the failure ["Page <id> not found"] ([getPageInfo]
    returns [null]) and calls nothing: the world is unchanged. *)
Theorem unregistered_page_not_found (E : Env) pageId w :
  pageId ∉ pages w →
  (∀ url, navigateToUrl E pageId url w = (Ret (page_not_found pageId), w)) ∧
  getPageContent E pageId w = (Ret (page_not_found pageId), w) ∧
  (∀ fullPage, takeScreenshot E pageId fullPage w = (Ret (page_not_found pageId), w)) ∧
  (∀ selector, clickElement E pageId selector w = (Ret (page_not_found pageId), w)) ∧
  (∀ formData, fillForm E pageId formData w = (Ret (page_not_found pageId), w)) ∧
  (∀ script, evaluateScript E pageId script w = (Ret (page_not_found pageId), w)) ∧
  getPageInfo E pageId w = (Ret VNull, w).
Proof.
  intros H. pose proof (has_page_absent pageId w H) as Hp.
  repeat split; intros;
    unfold navigateToUrl, getPageContent, takeScreenshot, clickElement, fillForm,
      evaluateScript, getPageInfo;
    by erewrite bind_ret by exact Hp.
Qed.

Lemma unregistered_page_not_found_witness :
  evaluateScript plain_env "page-9" SNavigationState ready_world
  = (Ret (AutomationResult.failure "Page page-9 not found"), ready_world).
Proof.
  destruct (unregistered_page_not_found plain_env "page-9" ready_world)
    as (_ & _ & _ & _ & _ & H & _); [by vm_compute |].
  apply H.
Defined.

Lemma extractContext_absent (E : Env) pageId options w :
  pageId ∉ pages w →
  extractContext E pageId options w
  = (Ret (default_context "No content available" (clock E (S (ticks w)))
            (clock E (S (S (ticks w))) - clock E (ticks w))),
     tick (tick (tick w))).
Proof.
  intros H. unfold extractContext. apply try_catch_ret. unfold extract_body.
  erewrite bind_ret by reflexivity.
  assert (Hw : pageId ∉ pages (tick w)) by done.
  unfold getBasicPageInfo, extractInteractiveElements, getNavigationState, getViewportInfo.
  erewrite bind_ret; [| by erewrite bind_ret by by apply evaluateScript_absent].
  erewrite bind_ret by by apply getPageContent_absent.
  erewrite bind_ret; [| by erewrite bind_ret by by apply evaluateScript_absent].
  erewrite bind_ret; [| by erewrite bind_ret by by apply evaluateScript_absent].
  erewrite bind_ret; [| by erewrite bind_ret by by apply evaluateScript_absent].
  erewrite bind_ret.
  2:{ destruct (flag (includeScreenshot options)); [| reflexivity].
      by erewrite bind_ret by by apply takeScreenshot_absent. }
  simpl. reflexivity.
Qed.

(** X2: on a page id that is not registered, extraction calls nothing on
    the page and returns the snapshot of defaults (url ["unknown"], title
    ["Unknown"], empty collections, viewport 1366x768), with the summary
    ["No content available"] and with no [error]: only the clock is read,
    three times. *)
Theorem extractContext_unregistered_page (E : Env) pageId options w :
  pageId ∉ pages w →
  extractContext E pageId options w
  = (Ret (default_context "No content available" (clock E (S (ticks w)))
            (clock E (S (S (ticks w))) - clock E (ticks w))),
     tick (tick (tick w))).
Proof. apply extractContext_absent. Qed.

Lemma extractContext_unregistered_page_witness :
  ∃ context,
    (extractContext honest_env "page-9" no_options ready_world).1 = Ret context ∧
    BrowserContext.error context = None ∧
    BrowserContext.currentUrl context = VStr "unknown" ∧
    trace (extractContext honest_env "page-9" no_options ready_world).2 = [].
Proof.
  rewrite (extractContext_unregistered_page honest_env "page-9" no_options ready_world);
    [| by vm_compute].
  by eexists.
Defined.

(** ** Extraction never raises *)

Lemma evaluateScript_returns (E : Env) pageId script w :
  ∃ r w',
    evaluateScript E pageId script w = (Ret r, w') ∧
    (AutomationResult.success r = true →
     ∃ v, AutomationResult.data r = VObj [("result", v)]).
Proof.
  unfold evaluateScript, bind, has_page, try_catch, page_do, mret.
  destruct (bool_decide (pageId ∈ pages w)); simpl;
    [destruct (page_call E (trace w) pageId (Evaluate script)) |];
    eexists _, _; (split; [reflexivity |]); simpl; try done.
  intros _. by eexists.
Qed.

(** A probe of the snapshot returns an object: what the driver returned, or
    its defaults. *)
Lemma probe_returns (E : Env) pageId script (defaults : list (string * JsVal)) w :
  ∃ v w',
    (let! result := evaluateScript E pageId script in
     if AutomationResult.success result then mret (AutomationResult.data result)
     else mret (VObj defaults)) w = (Ret v, w') ∧
    Js.nullish v = false.
Proof.
  destruct (evaluateScript_returns E pageId script w) as (r & w' & Hr & Hdata).
  erewrite bind_ret by exact Hr.
  destruct (AutomationResult.success r); [| by eexists _, _].
  destruct Hdata as [v Hv]; [done |]. rewrite Hv. by eexists _, _.
Qed.

Lemma createContentSummary_raises content maxLength msg :
  createContentSummary content maxLength = Throw msg →
  msg = "content.replace is not a function".
Proof.
  unfold createContentSummary. destruct (_ || _); [done |].
  destruct content; congruence.
Qed.

Lemma get_object (v : JsVal) k w :
  Js.nullish v = false → get v k w = (Ret (Js.prop v k), w).
Proof. intros H. unfold get. by rewrite H. Qed.

Lemma extract_body_cases (E : Env) pageId options w :
  (∃ context w', extract_body E pageId options w = (Ret context, w')
                 ∧ BrowserContext.error context = None)
  ∨ (∃ w', extract_body E pageId options w
           = (Throw "content.replace is not a function", w')).
Proof.
  unfold extract_body.
  erewrite bind_ret by reflexivity.
  unfold getBasicPageInfo, extractInteractiveElements, getNavigationState, getViewportInfo.
  edestruct (probe_returns E pageId SBasicPageInfo) as (info & w1 & Hinfo & Hninfo).
  erewrite bind_ret by exact Hinfo.
  destruct (total_guarded pageId (page_not_found pageId)
              (let! text := page_do E pageId (Evaluate SBodyInnerText) in
               let! meta := page_do E pageId (Evaluate SMetaInformation) in
               let! links := page_do E pageId (Evaluate SAnchors) in
               mret (AutomationResult.ok
                       (VObj [("text", text); ("meta", meta); ("links", links)])))
              (λ msg, mret (AutomationResult.failure ("Failed to get content: " +:+ msg)))
              (λ msg, total_mret _) w1) as (content & w2 & Hcontent).
  fold (getPageContent E pageId) in Hcontent.
  erewrite bind_ret by exact Hcontent.
  cbv zeta.
  edestruct (probe_returns E pageId
               (SInteractiveElements (flag (includeInvisibleElements options))
                  (num_or (maxElementsPerType options) 20)
                  (num_or (maxElementsPerType options) 30))) as (els & w3 & Hels & Hnels).
  erewrite bind_ret by exact Hels.
  edestruct (probe_returns E pageId SNavigationState) as (nav & w4 & Hnav & Hnnav).
  erewrite bind_ret by exact Hnav.
  edestruct (probe_returns E pageId SViewportInfo) as (view & w5 & Hview & Hnview).
  erewrite bind_ret by exact Hview.
  match goal with |- context [bind ?m _ w5] =>
    assert (∃ shot w6, m w5 = (Ret shot, w6)) as (shot & w6 & Hshot)
  end.
  { destruct (flag (includeScreenshot options)); [| by eexists _, _].
    destruct (total_guarded pageId (page_not_found pageId)
                (let! shot := page_do E pageId (Screenshot (VBool false)) in
                 mret (AutomationResult.mk true (VObj [("screenshot", shot)]) None shot))
                (λ msg, mret (AutomationResult.failure ("Screenshot failed: " +:+ msg)))
                (λ msg, total_mret _) w5) as (r & w6 & Hr).
    fold (takeScreenshot E pageId (VBool false)) in Hr.
    erewrite bind_ret by exact Hr. by eexists _, _. }
  erewrite bind_ret by exact Hshot.
  rewrite !(bind_ret _ _ _ _ _ (get_object info _ _ Hninfo)).
  match goal with |- context [createContentSummary ?c ?m] =>
    destruct (createContentSummary c m) as [summary|msg] eqn:Hsum
  end.
  - left. erewrite bind_ret by reflexivity.
    rewrite !(bind_ret _ _ _ _ _ (get_object els _ _ Hnels)).
    rewrite !(bind_ret _ _ _ _ _ (get_object view _ _ Hnview)).
    rewrite !(bind_ret _ _ _ _ _ (get_object nav _ _ Hnnav)).
    erewrite bind_ret by reflexivity. erewrite bind_ret by reflexivity.
    by eexists _, _.
  - right. apply createContentSummary_raises in Hsum as ->.
    eexists. unfold bind at 1. reflexivity.
Qed.

Lemma evaluateScript_fails (E : Env) pageId script w :
  pageId ∉ pages w ∨ dead_page E pageId →
  ∃ r w',
    evaluateScript E pageId script w = (Ret r, w') ∧
    AutomationResult.success r = false ∧ ticks w' = ticks w ∧ pages w' = pages w.
Proof.
  intros Hpage. unfold evaluateScript, bind, has_page, try_catch, page_do, mret.
  destruct (bool_decide_reflect (pageId ∈ pages w)) as [Hin|Hout]; simpl.
  - destruct Hpage as [?|Hdead]; [done |].
    destruct (Hdead (trace w) (Evaluate script)) as [msg ->]. by eexists _, _.
  - by eexists _, _.
Qed.

Lemma probe_fails (E : Env) pageId script (defaults : list (string * JsVal)) w :
  pageId ∉ pages w ∨ dead_page E pageId →
  ∃ w',
    (let! result := evaluateScript E pageId script in
     if AutomationResult.success result then mret (AutomationResult.data result)
     else mret (VObj defaults)) w = (Ret (VObj defaults), w') ∧
    ticks w' = ticks w ∧ pages w' = pages w.
Proof.
  intros Hpage.
  destruct (evaluateScript_fails E pageId script w Hpage) as (r & w' & Hr & Hfail & Ht & Hp).
  erewrite bind_ret by exact Hr. rewrite Hfail. by exists w'.
Qed.

Lemma getPageContent_fails (E : Env) pageId w :
  pageId ∉ pages w ∨ dead_page E pageId →
  ∃ r w',
    getPageContent E pageId w = (Ret r, w') ∧
    AutomationResult.success r = false ∧ ticks w' = ticks w ∧ pages w' = pages w.
Proof.
  intros Hpage. unfold getPageContent, bind, has_page, try_catch, page_do, mret.
  destruct (bool_decide_reflect (pageId ∈ pages w)) as [Hin|Hout]; simpl.
  - destruct Hpage as [?|Hdead]; [done |].
    destruct (Hdead (trace w) (Evaluate SBodyInnerText)) as [msg ->]. by eexists _, _.
  - by eexists _, _.
Qed.

Lemma takeScreenshot_fails (E : Env) pageId fullPage w :
  pageId ∉ pages w ∨ dead_page E pageId →
  ∃ r w',
    takeScreenshot E pageId fullPage w = (Ret r, w') ∧
    AutomationResult.success r = false ∧ ticks w' = ticks w ∧ pages w' = pages w.
Proof.
  intros Hpage. unfold takeScreenshot, bind, has_page, try_catch, page_do, mret.
  destruct (bool_decide_reflect (pageId ∈ pages w)) as [Hin|Hout]; simpl.
  - destruct Hpage as [?|Hdead]; [done |].
    destruct (Hdead (trace w) (Screenshot fullPage)) as [msg ->]. by eexists _, _.
  - by eexists _, _.
Qed.

(** Extraction when no call on the page goes through. *)
Lemma extract_body_fails (E : Env) pageId options w :
  pageId ∉ pages w ∨ dead_page E pageId →
  ∃ w',
    extract_body E pageId options w
    = (Ret (default_context "No content available" (clock E (S (ticks w)))
              (clock E (S (S (ticks w))) - clock E (ticks w))), w').
Proof.
  intros Hpage. unfold extract_body.
  assert (Hkeep : ∀ w0, pages w0 = pages w →
                        pageId ∉ pages w0 ∨ dead_page E pageId).
  { intros w0 Hw0. destruct Hpage; [left; by rewrite Hw0 | by right]. }
  erewrite bind_ret by reflexivity.
  unfold getBasicPageInfo, extractInteractiveElements, getNavigationState, getViewportInfo.
  edestruct (probe_fails E pageId SBasicPageInfo) as (w1 & H1 & Ht1 & Hp1);
    [| erewrite bind_ret by exact H1]; [by apply Hkeep |].
  edestruct (getPageContent_fails E pageId w1) as (content & w2 & H2 & Hf2 & Ht2 & Hp2);
    [| erewrite bind_ret by exact H2]; [apply Hkeep; by rewrite Hp1 |].
  cbv zeta. rewrite Hf2.
  edestruct (probe_fails E pageId
               (SInteractiveElements (flag (includeInvisibleElements options))
                  (num_or (maxElementsPerType options) 20)
                  (num_or (maxElementsPerType options) 30))) as (w3 & H3 & Ht3 & Hp3);
    [| erewrite bind_ret by exact H3]; [apply Hkeep; by rewrite Hp2, Hp1 |].
  edestruct (probe_fails E pageId SNavigationState) as (w4 & H4 & Ht4 & Hp4);
    [| erewrite bind_ret by exact H4]; [apply Hkeep; by rewrite Hp3, Hp2, Hp1 |].
  edestruct (probe_fails E pageId SViewportInfo) as (w5 & H5 & Ht5 & Hp5);
    [| erewrite bind_ret by exact H5]; [apply Hkeep; by rewrite Hp4, Hp3, Hp2, Hp1 |].
  match goal with |- context [bind ?m _ w5] =>
    assert (∃ w6, m w5 = (Ret VUndef, w6) ∧ ticks w6 = ticks w5) as (w6 & H6 & Ht6)
  end.
  { destruct (flag (includeScreenshot options)); [| by eexists].
    edestruct (takeScreenshot_fails E pageId (VBool false) w5)
      as (shot & w6 & Hs & Hfs & Hts & _);
      [| erewrite bind_ret by exact Hs]; [apply Hkeep; by rewrite Hp5, Hp4, Hp3, Hp2, Hp1 |].
    rewrite Hfs. by eexists. }
  erewrite bind_ret by exact H6.
  eexists. cbv [bind get mret now]. simpl.
  rewrite Ht6, Ht5, Ht4, Ht3, Ht2, Ht1. simpl. reflexivity.
Qed.




(** ** Extraction on a page that answers *)

Lemma page_do_ret (E : Env) pageId c w v :
  page_call E (trace w) pageId c = Ret v →
  page_do E pageId c w = (Ret v, log (EvPage pageId c) w).
Proof. intros H. unfold page_do. by rewrite H. Qed.

Lemma evaluateScript_answering (E : Env) pageId script w :
  answering E pageId → pageId ∈ pages w →
  ∃ v, evaluateScript E pageId script w
       = (Ret (AutomationResult.ok (VObj [("result", v)])),
          log (EvPage pageId (Evaluate script)) w).
Proof.
  intros Ha Hin. destruct (Ha (trace w) (Evaluate script)) as (v & Hv & _).
  exists v. by apply evaluateScript_ok.
Qed.

Lemma getPageContent_answering (E : Env) pageId w :
  answering E pageId → pageId ∈ pages w →
  ∃ text meta links w',
    getPageContent E pageId w
    = (Ret (AutomationResult.ok
              (VObj [("text", VStr text); ("meta", meta); ("links", links)])), w')
    ∧ pages w' = pages w ∧ ticks w' = ticks w.
Proof.
  intros Ha Hin. unfold getPageContent.
  erewrite bind_ret by by apply has_page_present. simpl.
  destruct (Ha (trace w) (Evaluate SBodyInnerText)) as (? & H1 & text & ->); [done |].
  destruct (Ha (trace (log (EvPage pageId (Evaluate SBodyInnerText)) w))
              (Evaluate SMetaInformation)) as (meta & H2 & _).
  set (w2 := log (EvPage pageId (Evaluate SMetaInformation))
               (log (EvPage pageId (Evaluate SBodyInnerText)) w)).
  destruct (Ha (trace w2) (Evaluate SAnchors)) as (links & H3 & _).
  exists text, meta, links, (log (EvPage pageId (Evaluate SAnchors)) w2).
  split; [| done]. apply try_catch_ret.
  erewrite bind_ret by by apply page_do_ret.
  erewrite bind_ret by by apply page_do_ret.
  by erewrite bind_ret by by apply page_do_ret.
Qed.

Lemma takeScreenshot_answering (E : Env) pageId fullPage w :
  answering E pageId → pageId ∈ pages w →
  ∃ r w', takeScreenshot E pageId fullPage w = (Ret r, w')
          ∧ pages w' = pages w ∧ ticks w' = ticks w.
Proof.
  intros Ha Hin. unfold takeScreenshot.
  erewrite bind_ret by by apply has_page_present. simpl.
  destruct (Ha (trace w) (Screenshot fullPage)) as (shot & H1 & _).
  eexists _, _. split; [| split].
  - apply try_catch_ret. by erewrite bind_ret by by apply page_do_ret.
  - done.
  - done.
Qed.

Lemma createContentSummary_string s maxLength :
  ∃ summary, createContentSummary (Js.or (VStr s) (VStr "")) maxLength = Ret summary.
Proof.
  unfold createContentSummary, Js.or. simpl.
  destruct (String.eqb_spec s "") as [->|Hne]; simpl; [by eexists |].
  destruct s; [done |]. simpl. by eexists.
Qed.

(** What extraction returns on a registered page that answers every call. *)
Lemma extract_body_answering (E : Env) pageId options w :
  answering E pageId → pageId ∈ pages w →
  ∃ context w',
    extract_body E pageId options w = (Ret context, w') ∧
    BrowserContext.error context = None ∧
    (∃ text, BrowserContext.pageContent context = VStr text) ∧
    probes_undefined context ∧
    pages w' = pages w.
Proof.
  intros Ha Hin. unfold extract_body.
  erewrite bind_ret by reflexivity.
  unfold getBasicPageInfo, extractInteractiveElements, getNavigationState, getViewportInfo.
  edestruct (evaluateScript_answering E pageId SBasicPageInfo (tick w)) as [info Hinfo];
    [done | done |].
  erewrite bind_ret; [| by erewrite bind_ret by exact Hinfo]. simpl.
  edestruct (getPageContent_answering E pageId) as (text & meta & links & w2 & Hc & Hp2 & _);
    [done | | erewrite bind_ret by exact Hc]; [done |].
  simpl.
  edestruct (evaluateScript_answering E pageId
               (SInteractiveElements (flag (includeInvisibleElements options))
                  (num_or (maxElementsPerType options) 20)
                  (num_or (maxElementsPerType options) 30)) w2) as [els Hels];
    [done | by rewrite Hp2 |].
  erewrite bind_ret; [| by erewrite bind_ret by exact Hels]. simpl.
  match goal with |- context [bind _ _ ?w3] =>
    edestruct (evaluateScript_answering E pageId SNavigationState w3) as [nav Hnav];
      [done | simpl; by rewrite Hp2 |] end.
  erewrite bind_ret; [| by erewrite bind_ret by exact Hnav]. simpl.
  match goal with |- context [bind _ _ ?w4] =>
    edestruct (evaluateScript_answering E pageId SViewportInfo w4) as [view Hview];
      [done | simpl; by rewrite Hp2 |] end.
  erewrite bind_ret; [| by erewrite bind_ret by exact Hview]. simpl.
  match goal with |- context [bind ?m _ ?w5] =>
    assert (∃ shot w6, m w5 = (Ret shot, w6) ∧ pages w6 = pages w)
      as (shot & w6 & Hshot & Hp6)
  end.
  { destruct (flag (includeScreenshot options)).
    - edestruct (takeScreenshot_answering E pageId (VBool false)) as (r & w6 & Hr & Hp & _);
        [done | | erewrite bind_ret by exact Hr]; [simpl; by rewrite Hp2 |].
      eexists _, _. split; [reflexivity |]. rewrite Hp. simpl. by rewrite Hp2.
    - eexists _, _. split; [reflexivity |]. simpl. by rewrite Hp2. }
  erewrite bind_ret by exact Hshot.
  unfold get. simpl.
  destruct (createContentSummary_string text (maxContentLength options)) as [summary Hsum].
  change (get_opt _ "text") with (VStr text).
  cbv [bind mret now]. rewrite Hsum.
  eexists _, _. split; [reflexivity |]. simpl.
  split; [done |]. split; [| split; [by repeat split | done]].
  unfold Js.or. simpl. destruct (String.eqb text ""); by eexists.
Qed.

Lemma honest_env_answering : answering honest_env "page-1".
Proof.
  intros tr c. destruct c as [| | |s| | | | | | |]; try (by eexists).
  destruct s; (eexists; split; [reflexivity |]); try done.
  intros _. by eexists.
Qed.

(** X3: on a registered page that answers every probe, extraction reports
    no error, but every field it reads from a probe (url, title, domain,
    protocol, the five element collections, viewport, scroll position,
    can-go-back, can-go-forward, history) is [undefined], whatever the page
    answered: the helpers return the driver's wrapper [{result: value}], not
    the value. *)
Theorem extractContext_probe_fields_undefined (E : Env) pageId options w :
  answering E pageId → pageId ∈ pages w →
  ∃ context w',
    extractContext E pageId options w = (Ret context, w') ∧
    BrowserContext.error context = None ∧
    probes_undefined context.
Proof.
  intros Ha Hin.
  destruct (extract_body_answering E pageId options w Ha Hin)
    as (context & w' & Hrun & Herr & _ & Hund & _).
  exists context, w'. split; [by apply try_catch_ret | done].
Qed.

Lemma extractContext_probe_fields_undefined_witness :
  ∃ context w',
    extractContext honest_env "page-1" no_options ready_world = (Ret context, w') ∧
    BrowserContext.currentUrl context = VUndef ∧
    BrowserContext.buttons context = VUndef.
Proof.
  destruct (extractContext_probe_fields_undefined honest_env "page-1" no_options ready_world)
    as (context & w' & Hrun & _ & Hund); [apply honest_env_answering | by vm_compute |].
  exists context, w'. split; [exact Hrun |].
  destruct Hund as (H1 & _ & _ & _ & _ & _ & _ & H8 & _). by split.
Defined.

(** ** The [get_page_info] tool *)

Lemma try_catch_throw {A : Type} (m : M A) (h : string → M A) (w w' : World) (msg : string) :
  m w = (Throw msg, w') → try_catch m h w = h msg w'.
Proof. intros H. unfold try_catch. by rewrite H. Qed.

(** X4: on a registered page that answers every probe, [get_page_info]
    fails: the snapshot's [buttons] is [undefined] and reading its length
    raises, which the tool reports as its error. *)
Theorem get_page_info_fails_on_answering_page (E : Env) args options w :
  answering E (ToolExecutionOptions.pageId options) →
  ToolExecutionOptions.pageId options ∈ pages w →
  ∃ w',
    executeGetPageInfo E args options w
    = (Ret (BrowserToolResult.failure
              "Failed to get page info: Cannot read properties of undefined (reading 'length')"),
       w').
Proof.
  intros Ha Hin. unfold executeGetPageInfo.
  match goal with
  | |- context [extractContext E ?p ?o] =>
      destruct (extract_body_answering E p o w Ha Hin)
        as (context & w' & Hrun & _ & _ & Hund & _)
  end.
  exists w'. erewrite try_catch_throw; [reflexivity |].
  erewrite bind_ret by (apply try_catch_ret; exact Hrun).
  destruct Hund as (_ & _ & _ & _ & _ & _ & _ & Hb & _). by rewrite Hb.
Qed.

Lemma get_page_info_fails_on_answering_page_witness :
  ∃ w',
    executeGetPageInfo honest_env [] (ToolExecutionOptions.mk "page-1" None None None)
      ready_world
    = (Ret (BrowserToolResult.failure
              "Failed to get page info: Cannot read properties of undefined (reading 'length')"),
       w').
Proof.
  apply (get_page_info_fails_on_answering_page honest_env []
           (ToolExecutionOptions.mk "page-1" None None None) ready_world).
  - apply honest_env_answering.
  - by vm_compute.
Defined.

(** X5: on a page id that is not registered, [get_page_info] succeeds: it
    reports the defaults (url ["unknown"], no buttons, links or fields) and
    calls nothing on the page. *)
Theorem get_page_info_succeeds_on_unregistered_page (E : Env) args options w :
  ToolExecutionOptions.pageId options ∉ pages w →
  executeGetPageInfo E args options w
  = (Ret {| BrowserToolResult.success := true;
            BrowserToolResult.data := unknown_page_info;
            BrowserToolResult.error := None;
            BrowserToolResult.screenshot := VUndef;
            BrowserToolResult.message := Some "Page information extracted" |},
     tick (tick (tick w))).
Proof.
  intros Hin. unfold executeGetPageInfo. apply try_catch_ret.
  by erewrite bind_ret by by apply extractContext_absent.
Qed.

Lemma get_page_info_succeeds_on_unregistered_page_witness :
  (executeGetPageInfo plain_env [] (ToolExecutionOptions.mk "page-9" None None None)
     ready_world).1
  = Ret {| BrowserToolResult.success := true;
           BrowserToolResult.data := unknown_page_info;
           BrowserToolResult.error := None;
           BrowserToolResult.screenshot := VUndef;
           BrowserToolResult.message := Some "Page information extracted" |}.
Proof.
  rewrite (get_page_info_succeeds_on_unregistered_page plain_env []
             (ToolExecutionOptions.mk "page-9" None None None) ready_world);
    [reflexivity | by vm_compute].
Defined.

(** ** Results say why they failed *)

Lemma yields_mret {A : Type} (Q : A → Prop) (a : A) : Q a → yields Q (mret a).
Proof. intros H w a' w' [= <- _]. exact H. Qed.

Lemma yields_throw {A : Type} (Q : A → Prop) (msg : string) : yields Q (throw msg).
Proof. by intros w a w'. Qed.

Lemma yields_bind {A B : Type} (P : A → Prop) (Q : B → Prop) (m : M A) (k : A → M B) :
  yields P m → (∀ a, P a → yields Q (k a)) → yields Q (bind m k).
Proof.
  intros Hm Hk w b w'. unfold bind.
  destruct (m w) as [[a|msg] w1] eqn:Hw; [| done].
  apply (Hk a); by eapply Hm.
Qed.

Lemma yields_bind_any {A B : Type} (Q : B → Prop) (m : M A) (k : A → M B) :
  (∀ a, yields Q (k a)) → yields Q (bind m k).
Proof. intros Hk. apply (yields_bind (λ _, True)); [done | auto]. Qed.

Lemma yields_try_catch {A : Type} (Q : A → Prop) (m : M A) (h : string → M A) :
  yields Q m → (∀ msg, yields Q (h msg)) → yields Q (try_catch m h).
Proof.
  intros Hm Hh w a w'. unfold try_catch.
  destruct (m w) as [[a'|msg] w1] eqn:Hw.
  - intros [= <- <-]. by eapply Hm.
  - apply Hh.
Qed.

Lemma explained_failure e : explained false (Some e).
Proof. split; [by eexists | done]. Qed.

Lemma explained_success : explained true None.
Proof. split; [done | by intros [? ?]]. Qed.

Create HintDb yields discriminated.
#[export] Hint Resolve explained_failure explained_success : yields.

(** One step of the proof that the results of a computation are explained:
    follow the structure; at a [bind], use what is known of the first
    computation when there is something known. *)
Ltac yields_step :=
  lazymatch goal with
  | |- yields _ (mret _) =>
      apply yields_mret;
      first [ assumption
            | apply explained_failure
            | apply explained_success
            | (unfold explained_tool_result, explained_result in *; simpl; assumption) ]
  | |- yields _ (throw _) => apply yields_throw
  | |- yields _ (bind _ _) =>
      first [ eapply yields_bind; [solve [eauto with yields] | intros ? ?]
            | apply yields_bind_any; intros ? ]
  | |- yields _ (try_catch _ _) => apply yields_try_catch; [| intros ?]
  | |- yields _ (if ?b then _ else _) => destruct b eqn:?
  | |- yields _ (match ?x with _ => _ end) => destruct x eqn:?
  end.
Ltac yields := cbv zeta; repeat yields_step.

Lemma navigateToUrl_explained (E : Env) pageId url :
  yields explained_result (navigateToUrl E pageId url).
Proof. unfold navigateToUrl, page_not_found. yields. Qed.

Lemma getPageContent_explained (E : Env) pageId :
  yields explained_result (getPageContent E pageId).
Proof. unfold getPageContent, page_not_found. yields. Qed.

Lemma takeScreenshot_explained (E : Env) pageId fullPage :
  yields explained_result (takeScreenshot E pageId fullPage).
Proof. unfold takeScreenshot, page_not_found. yields. Qed.

Lemma clickElement_explained (E : Env) pageId selector :
  yields explained_result (clickElement E pageId selector).
Proof. unfold clickElement, page_not_found. yields. Qed.

Lemma fillForm_explained (E : Env) pageId formData :
  yields explained_result (fillForm E pageId formData).
Proof. unfold fillForm, page_not_found. yields. Qed.

Lemma evaluateScript_explained (E : Env) pageId script :
  yields explained_result (evaluateScript E pageId script).
Proof. unfold evaluateScript, page_not_found. yields. Qed.

#[export] Hint Resolve navigateToUrl_explained getPageContent_explained
  takeScreenshot_explained clickElement_explained fillForm_explained
  evaluateScript_explained : yields.

Lemma dispatch_explained (E : Env) toolCall options :
  yields explained_tool_result (dispatch E toolCall options).
Proof.
  unfold dispatch, executeNavigate, executeClick, executeType, executeScroll,
    executeScreenshot, executeExtractText, executeExtractLinks, executeWaitForElement,
    executeGetPageInfo, executeFillForm, executeEvaluateScript.
  yields.
Qed.
#[export] Hint Resolve dispatch_explained : yields.

Lemma executeTool_explained (E : Env) toolCall options :
  yields explained_tool_result (executeTool E toolCall options).
Proof. unfold executeTool, executeTool_body, confirmation_required. yields. Qed.

Lemma total_yields {A : Type} (Q : A → Prop) (m : M A) w :
  total m → yields Q m → ∃ a w', m w = (Ret a, w') ∧ Q a.
Proof.
  intros Ht Hy. destruct (Ht w) as (a & w' & H).
  exists a, w'. split; [done | by eapply Hy].
Qed.

(** X6: [executeTool] never raises, and the result it returns carries an
    error string exactly when [success] is false; the text the agent makes
    of a failed result is therefore ["Error: "] followed by that string. *)
Theorem tool_results_are_explained (E : Env) toolCall options w :
  ∃ result w',
    executeTool E toolCall options w = (Ret result, w') ∧
    (BrowserToolResult.success result = false ↔ is_Some (BrowserToolResult.error result)) ∧
    (BrowserToolResult.success result = false →
     ∃ e, BrowserToolResult.error result = Some e
          ∧ formatToolResult E result = Ret ("Error: " +:+ e)).
Proof.
  destruct (total_yields explained_tool_result (executeTool E toolCall options) w)
    as (result & w' & Hrun & Hex);
    [apply total_executeTool | apply executeTool_explained |].
  exists result, w'. split; [done |]. split; [exact Hex |].
  intros Hfail. destruct (proj1 Hex Hfail) as [e He]. exists e. split; [done |].
  unfold formatToolResult. by rewrite Hfail, He.
Qed.

(** X7: the page methods of the driver wrapper never raise, whatever the
    page does: each returns a result, and the result carries an error
    string exactly when [success] is false. *)
Theorem driver_results_are_explained (E : Env) pageId w :
  (∀ url, ∃ r w', navigateToUrl E pageId url w = (Ret r, w') ∧ explained_result r) ∧
  (∃ r w', getPageContent E pageId w = (Ret r, w') ∧ explained_result r) ∧
  (∀ fullPage, ∃ r w',
     takeScreenshot E pageId fullPage w = (Ret r, w') ∧ explained_result r) ∧
  (∀ selector, ∃ r w',
     clickElement E pageId selector w = (Ret r, w') ∧ explained_result r) ∧
  (∀ formData, ∃ r w',
     fillForm E pageId formData w = (Ret r, w') ∧ explained_result r) ∧
  (∀ script, ∃ r w', evaluateScript E pageId script w = (Ret r, w') ∧ explained_result r).
Proof.
  repeat split; intros; apply total_yields;
    first [ apply total_guarded; intros msg; apply total_mret
          | eauto with yields ].
Qed.

(** ** Relations every step respects *)

Create HintDb steady discriminated.

Section SteadyRules.

Context (R : relation World) `{!PreOrder R}.

Lemma steady_mret {A : Type} (a : A) : steady R (mret a).
Proof. intros w. reflexivity. Qed.

Lemma steady_throw {A : Type} (msg : string) : steady R (@throw A msg).
Proof. intros w. reflexivity. Qed.

Lemma steady_lift {A : Type} (o : Outcome A) : steady R (lift o).
Proof. intros w. reflexivity. Qed.

Lemma steady_bind {A B : Type} (m : M A) (k : A → M B) :
  steady R m → (∀ a, steady R (k a)) → steady R (bind m k).
Proof.
  intros Hm Hk w. unfold bind. specialize (Hm w).
  destruct (m w) as [[a|msg] w1]; simpl in *; [| done].
  etrans; [exact Hm | apply Hk].
Qed.

Lemma steady_try_catch {A : Type} (m : M A) (h : string → M A) :
  steady R m → (∀ msg, steady R (h msg)) → steady R (try_catch m h).
Proof.
  intros Hm Hh w. unfold try_catch. specialize (Hm w).
  destruct (m w) as [[a|msg] w1]; simpl in *; [done |].
  etrans; [exact Hm | apply Hh].
Qed.

Lemma steady_bind_mret {A B : Type} (a : A) (k : A → M B) :
  steady R (k a) → steady R (bind (mret a) k).
Proof. intros Hk w. exact (Hk w). Qed.

Lemma steady_bind_throw {A B : Type} (msg : string) (k : A → M B) :
  steady R (bind (throw msg) k).
Proof. intros w. reflexivity. Qed.

End SteadyRules.

Ltac steady_step :=
  lazymatch goal with
  | |- steady _ (bind (mret _) _) => apply steady_bind_mret
  | |- steady _ (bind (throw _) _) => apply steady_bind_throw; apply _
  | |- steady _ (bind _ _) => apply steady_bind; [apply _ .. | | intros ?]
  | |- steady _ (try_catch _ _) => apply steady_try_catch; [apply _ .. | | intros ?]
  | |- steady _ (mret _) => apply steady_mret; try apply _
  | |- steady _ (throw _) => apply steady_throw; try apply _
  | |- steady _ (lift _) => apply steady_lift; try apply _
  | |- steady _ (if ?b then _ else _) => destruct b
  | |- steady _ (match ?x with _ => _ end) => destruct x
  | |- steady _ (λ _, _) => intros ?; simpl; solve [eauto with steady]
  | |- steady _ _ => solve [eauto with steady]
  end.
Ltac steady := cbv zeta; repeat steady_step.

(** *** What may reach the page *)

(** The steps of the driver, of the context service and of the tools, for
    one page.  A relation is respected as soon as it is respected by the
    events that are [allowed]; the calls made for a tool classified [safe]
    and for the context service ([unconfirmed_call]) are told apart from the
    others. *)
Section Reach.

Context (R : relation World) `{!PreOrder R} (allowed : Event → Prop).
Context (E : Env) (pageId : string).

Hypothesis R_log : ∀ e w, allowed e → R w (log e w).
Hypothesis R_tick : ∀ w, R w (tick w).
Hypothesis R_launched : ∀ w, R w (set_launched w).
Hypothesis may_launch : allowed EvLaunch.
Hypothesis may_read : ∀ c, unconfirmed_call c = true → allowed (EvPage pageId c).

Local Hint Extern 1 => reflexivity : steady.
Local Hint Resolve R_tick R_launched : steady.

Lemma reach_get v k : steady R (get v k).
Proof. unfold get. steady. Qed.

Lemma reach_page_do c : allowed (EvPage pageId c) → steady R (page_do E pageId c).
Proof. intros Hc w. by apply R_log. Qed.

Lemma reach_launch_do : steady R (launch_do E).
Proof. intros w. by apply R_log. Qed.

Lemma reach_now : steady R (now E).
Proof. intros w. apply R_tick. Qed.

Lemma reach_has_page : steady R (has_page pageId).
Proof. intros w. reflexivity. Qed.

Lemma reach_isReady : steady R isReady.
Proof. intros w. reflexivity. Qed.

Local Hint Resolve reach_get reach_launch_do reach_now reach_has_page reach_isReady
  : steady.
Local Hint Extern 1 (steady _ (page_do _ _ _)) =>
  apply reach_page_do, may_read; reflexivity : steady.

Lemma reach_initialize : steady R (initialize E).
Proof. unfold initialize. steady. Qed.

Lemma reach_getPageInfo : steady R (getPageInfo E pageId).
Proof. unfold getPageInfo. steady. Qed.
Local Hint Resolve reach_initialize reach_getPageInfo : steady.

Lemma reach_navigateToUrl url : steady R (navigateToUrl E pageId url).
Proof. unfold navigateToUrl. steady. Qed.

Lemma reach_getPageContent : steady R (getPageContent E pageId).
Proof. unfold getPageContent. steady. Qed.

Lemma reach_takeScreenshot fullPage : steady R (takeScreenshot E pageId fullPage).
Proof. unfold takeScreenshot. steady. Qed.

Lemma reach_evaluateScript script :
  allowed (EvPage pageId (Evaluate script)) →
  steady R (evaluateScript E pageId script).
Proof.
  intros Hscript. unfold evaluateScript. steady. by apply reach_page_do.
Qed.

Local Hint Resolve reach_navigateToUrl reach_getPageContent reach_takeScreenshot : steady.
Local Hint Extern 1 (steady _ (evaluateScript _ _ _)) =>
  apply reach_evaluateScript, may_read; reflexivity : steady.

Lemma reach_extractContext options : steady R (extractContext E pageId options).
Proof.
  unfold extractContext, extract_body, minimal_context, getBasicPageInfo,
    extractInteractiveElements, getNavigationState, getViewportInfo.
  steady.
Qed.
Local Hint Resolve reach_extractContext : steady.

Hypothesis R_manager : ∀ context w, R w (manager_updateContext context w).2.

Lemma reach_manager_updateContext context : steady R (manager_updateContext context).
Proof. intros w. apply R_manager. Qed.
Local Hint Resolve reach_manager_updateContext : steady.

Lemma reach_updateContext options : steady R (updateContext E pageId options).
Proof. unfold updateContext. steady. Qed.

(** The tools, called for the page. *)
Context (options : ToolExecutionOptions.t).
Hypothesis on_page : ToolExecutionOptions.pageId options = pageId.

Lemma reach_executeNavigate args : steady R (executeNavigate E args options).
Proof. unfold executeNavigate. rewrite on_page. steady. Qed.

Lemma reach_executeScreenshot args : steady R (executeScreenshot E args options).
Proof. unfold executeScreenshot. rewrite on_page. steady. Qed.

Lemma reach_executeExtractText args : steady R (executeExtractText E args options).
Proof.
  unfold executeExtractText. rewrite on_page. cbv zeta.
  destruct (Js.truthy _); steady.
Qed.

Lemma reach_executeExtractLinks args : steady R (executeExtractLinks E args options).
Proof.
  unfold executeExtractLinks. rewrite on_page. cbv zeta.
  destruct (Js.truthy _); [destruct (arg args "filter") |]; steady.
Qed.

Lemma reach_executeWaitForElement args :
  steady R (executeWaitForElement E args options).
Proof. unfold executeWaitForElement. rewrite on_page. steady. Qed.

Lemma reach_executeGetPageInfo args : steady R (executeGetPageInfo E args options).
Proof. unfold executeGetPageInfo. rewrite on_page. steady. Qed.

(** The tools the safety table classifies as [safe]. *)
Lemma reach_dispatch_safe toolCall :
  safetyOf (BrowserToolCall.name toolCall) = SAFE →
  steady R (dispatch E toolCall options).
Proof.
  unfold safetyOf. intros Hsafe.
  destruct (TOOL_SAFETY_LEVELS !! BrowserToolCall.name toolCall) as [level|] eqn:Hlevel;
    [| by destruct (Js.assoc _ OBJECT_PROTOTYPE)].
  injection Hsafe as ->.
  apply elem_of_list_to_map_2 in Hlevel.
  unfold dispatch.
  repeat (apply elem_of_cons in Hlevel as [[= Hname]|Hlevel];
          [rewrite Hname; simpl;
           first [ apply reach_executeNavigate | apply reach_executeScreenshot
                 | apply reach_executeExtractText | apply reach_executeExtractLinks
                 | apply reach_executeGetPageInfo | apply reach_executeWaitForElement ]
          |]);
    repeat (apply elem_of_cons in Hlevel as [?|Hlevel]; [done |]).
  by apply elem_of_nil in Hlevel.
Qed.

(** A call made without [autoConfirm] and without a granted level. *)
Lemma reach_executeTool_unconfirmed toolCall :
  flag (ToolExecutionOptions.autoConfirm options) = false →
  ToolExecutionOptions.safetyLevel options = None →
  steady R (executeTool E toolCall options).
Proof.
  intros Hconfirm Hgranted. unfold executeTool, executeTool_body. cbv zeta.
  destruct (canExecuteTool _ _ options) eqn:Hgate; simpl; [| steady].
  assert (Hsafe : safetyOf (BrowserToolCall.name toolCall) = SAFE).
  { unfold canExecuteTool in Hgate. rewrite Hconfirm, Hgranted, orb_false_r in Hgate.
    by apply bool_decide_eq_true_1 in Hgate. }
  pose proof (reach_dispatch_safe toolCall Hsafe).
  rewrite on_page. steady.
Qed.

(** The tools that act on the page. *)
Hypothesis may_act : ∀ c, allowed (EvPage pageId c).

Local Hint Extern 1 (steady _ (page_do _ _ _)) => apply reach_page_do, may_act : steady.
Local Hint Extern 1 (steady _ (evaluateScript _ _ _)) =>
  apply reach_evaluateScript, may_act : steady.

Lemma reach_clickElement selector : steady R (clickElement E pageId selector).
Proof. unfold clickElement. steady. Qed.

Lemma reach_fill_field selector value : steady R (fill_field E pageId selector value).
Proof. unfold fill_field. steady. Qed.
Local Hint Resolve reach_fill_field : steady.

Lemma reach_fill_fields fields results :
  steady R (fill_fields E pageId fields results).
Proof.
  revert results. induction fields as [|[selector value] fields IH]; intros results; simpl.
  - steady.
  - steady.
Qed.
Local Hint Resolve reach_fill_fields : steady.

Lemma reach_fillForm formData : steady R (fillForm E pageId formData).
Proof. unfold fillForm. steady. Qed.
Local Hint Resolve reach_clickElement reach_fillForm : steady.

Lemma reach_dispatch toolCall : steady R (dispatch E toolCall options).
Proof.
  unfold dispatch, executeNavigate, executeClick, executeType, executeScroll,
    executeScreenshot, executeExtractText, executeExtractLinks, executeWaitForElement,
    executeGetPageInfo, executeFillForm, executeEvaluateScript.
  rewrite on_page. steady.
Qed.
Local Hint Resolve reach_dispatch : steady.

Lemma reach_executeTool toolCall : steady R (executeTool E toolCall options).
Proof. unfold executeTool, executeTool_body. rewrite on_page. steady. Qed.

End Reach.

(** *** The agent, over any executor *)

Section SteadyTurn.

Context (R : relation World) `{!PreOrder R}.

Hypothesis R_tick : ∀ w, R w (tick w).
Hypothesis R_conversations : ∀ cs w, R w (set_conversations cs w).

Local Hint Extern 1 => reflexivity : steady.
Local Hint Resolve R_tick R_conversations : steady.

Lemma steady_now (E : Env) : steady R (now E).
Proof. intros w. apply R_tick. Qed.

Lemma steady_getContextSummary (E : Env) : steady R (getContextSummary E).
Proof. intros w. reflexivity. Qed.

Lemma steady_put conversation : steady R (put conversation).
Proof. intros w. apply R_conversations. Qed.
Local Hint Resolve steady_now steady_getContextSummary steady_put : steady.

Lemma steady_push m conversation : steady R (push m conversation).
Proof. unfold push. steady. Qed.
Local Hint Resolve steady_push : steady.

Lemma steady_createOrGetConversation (E : Env) id pageId initialUrl :
  steady R (createOrGetConversation E id pageId initialUrl).
Proof. unfold createOrGetConversation. steady. Qed.

Lemma steady_hasContextChanged conversation context :
  steady R (hasContextChanged conversation context).
Proof. unfold hasContextChanged. steady. Qed.
Local Hint Resolve steady_createOrGetConversation steady_hasContextChanged : steady.

Lemma steady_clearConversation id : steady R (clearConversation id).
Proof. intros w. apply R_conversations. Qed.

Lemma steady_cleanupOldConversations (E : Env) : steady R (cleanupOldConversations E).
Proof. unfold cleanupOldConversations. steady. Qed.

(** A turn, given what its tool calls, its context updates and its
    requests respect. *)
Context (E : Env) (options : AgentExecutionOptions.t).

Hypothesis R_tools :
  ∀ toolCall, steady R (executeTool E toolCall (execution_options options)).
Hypothesis R_context :
  ∀ o, steady R (updateContext E (AgentExecutionOptions.pageId options) o).
Hypothesis R_send :
  ∀ service withTools messages tools,
    steady R (send E service withTools messages tools).

Local Hint Resolve R_tools R_context R_send : steady.

Lemma turn_open_turn conversationId userMessage :
  steady R (open_turn E conversationId userMessage options).
Proof. unfold open_turn. steady. Qed.

Lemma turn_executeToolCalls_from toolCalls results :
  steady R (executeToolCalls_from E toolCalls options results).
Proof.
  revert results. induction toolCalls as [|toolCall rest IH]; intros results; simpl.
  - steady.
  - steady.
Qed.

Lemma turn_executeToolCalls toolCalls :
  steady R (executeToolCalls E toolCalls options).
Proof. apply turn_executeToolCalls_from. Qed.

Lemma turn_getFollowUpResponse service messages tools :
  steady R (getFollowUpResponse E service messages tools).
Proof. unfold getFollowUpResponse. steady. Qed.

Lemma turn_push_tool_messages i toolCalls toolResults conversation :
  steady R (push_tool_messages E i toolCalls toolResults conversation).
Proof.
  revert i conversation.
  induction toolCalls as [|toolCall rest IH]; intros i conversation; simpl.
  - steady.
  - steady.
Qed.
Local Hint Resolve turn_executeToolCalls turn_getFollowUpResponse
  turn_push_tool_messages : steady.

Lemma turn_sendMessage conversationId userMessage :
  steady R (sendMessage E conversationId userMessage options).
Proof.
  unfold sendMessage, sendMessage_body, open_turn, answer_turn, run_tool_calls.
  steady.
Qed.

End SteadyTurn.

(** *** Relations every event respects *)

Section Steady.

Context (R : relation World) `{!PreOrder R}.

Hypothesis R_log : ∀ e w, R w (log e w).
Hypothesis R_tick : ∀ w, R w (tick w).
Hypothesis R_launched : ∀ w, R w (set_launched w).

Lemma steady_send (E : Env) service withTools messages tools :
  steady R (send E service withTools messages tools).
Proof. intros w. apply R_log. Qed.

Lemma steady_initialize (E : Env) : steady R (initialize E).
Proof. apply (reach_initialize R (λ _, True)); auto. Qed.

Lemma steady_getPageInfo (E : Env) pageId : steady R (getPageInfo E pageId).
Proof. apply (reach_getPageInfo R (λ _, True)); auto. Qed.

Lemma steady_extractContext (E : Env) pageId options :
  steady R (extractContext E pageId options).
Proof. apply (reach_extractContext R (λ _, True)); auto. Qed.

Lemma steady_dispatch (E : Env) toolCall options : steady R (dispatch E toolCall options).
Proof.
  apply (reach_dispatch R (λ _, True) E (ToolExecutionOptions.pageId options)); auto.
Qed.

Lemma steady_getFollowUpResponse (E : Env) service messages tools :
  steady R (getFollowUpResponse E service messages tools).
Proof. apply turn_getFollowUpResponse; [apply _ |]. intros. apply steady_send. Qed.

Hypothesis R_manager : ∀ context w, R w (manager_updateContext context w).2.

Lemma steady_updateContext (E : Env) pageId options :
  steady R (updateContext E pageId options).
Proof. apply (reach_updateContext R (λ _, True)); auto. Qed.

Lemma steady_executeTool (E : Env) toolCall options :
  steady R (executeTool E toolCall options).
Proof.
  apply (reach_executeTool R (λ _, True) E (ToolExecutionOptions.pageId options)); auto.
Qed.

Lemma steady_executeToolCalls (E : Env) toolCalls options :
  steady R (executeToolCalls E toolCalls options).
Proof. apply turn_executeToolCalls; [apply _ |]. intros. apply steady_executeTool. Qed.

Hypothesis R_conversations : ∀ cs w, R w (set_conversations cs w).

Lemma steady_sendMessage (E : Env) conversationId userMessage options :
  steady R (sendMessage E conversationId userMessage options).
Proof.
  apply turn_sendMessage; [apply _ | done | done | ..]; intros.
  - apply steady_executeTool.
  - apply steady_updateContext.
  - apply steady_send.
Qed.

End Steady.

(** ** Navigation always has a protocol *)

Lemma grows_preorder : PreOrder grows.
Proof.
  split.
  - intros w. unfold grows. reflexivity.
  - intros w1 w2 w3. unfold grows. by etrans.
Qed.
#[global] Existing Instance grows_preorder.

Lemma grows_log e w : grows w (log e w).
Proof. unfold grows. simpl. by apply prefix_app_r. Qed.

Lemma grows_tick w : grows w (tick w).
Proof. unfold grows. reflexivity. Qed.

Lemma grows_launched w : grows w (set_launched w).
Proof. unfold grows. reflexivity. Qed.

Lemma startsWith_app p s : startsWith p (p +:+ s) = true.
Proof.
  unfold startsWith. apply bool_decide_eq_true_2.
  induction p as [|c p IH]; [done |]. simpl. by rewrite IH.
Qed.

Lemma with_protocol_has_protocol url :
  startsWith "http://" (with_protocol url) = true
  ∨ startsWith "https://" (with_protocol url) = true.
Proof.
  unfold with_protocol.
  destruct (startsWith "http://" url) eqn:H1; [by left |].
  destruct (startsWith "https://" url) eqn:H2; [by right |].
  right. apply (startsWith_app "https://").
Qed.

(** X8: [navigateToUrl] on a registered page hands [page.goto] the url
    itself when it starts with ["http://"] or ["https://"] and the url
    prefixed with ["https://"] otherwise, so the first call it makes is a
    [goto] of a url with a protocol; a url that is not a string is refused
    with a failure and nothing is called: the failure says that
    [startsWith] cannot be read when the url is [undefined] or [null], and
    that it is not a function otherwise. *)
Theorem navigateToUrl_adds_protocol (E : Env) pageId w :
  pageId ∈ pages w →
  (∀ url : string,
     (startsWith "http://" (with_protocol url) = true
      ∨ startsWith "https://" (with_protocol url) = true) ∧
     ∃ rest,
       trace (navigateToUrl E pageId (VStr url) w).2
       = trace w ++ EvPage pageId (Goto (with_protocol url)) :: rest) ∧
  (∀ url, (∀ s, url ≠ VStr s) →
     navigateToUrl E pageId url w
     = (Ret (AutomationResult.failure
               ("Navigation failed: "
                +:+ if Js.nullish url
                    then "Cannot read properties of " +:+ Js.to_string url
                         +:+ " (reading 'startsWith')"
                    else "url.startsWith is not a function")), w)).
Proof.
  intros Hin. split.
  - intros url. split; [apply with_protocol_has_protocol |].
    unfold navigateToUrl. erewrite bind_ret by by apply has_page_present. simpl.
    fold (with_protocol url).
    assert (Hrest : ∀ response,
              steady grows
                (let! pageInfo := getPageInfo E pageId in
                 let! u := page_do E pageId Url in
                 let! t := page_do E pageId Title in
                 mret (AutomationResult.ok
                         (VObj [("url", u); ("title", t);
                                ("status", get_opt response "status");
                                ("pageInfo", pageInfo)])))).
    { intros response. apply steady_bind; [apply _ | |].
      - apply steady_getPageInfo; auto using grows_log, grows_tick with typeclass_instances.
      - intros ?. apply steady_bind; [apply _ | by intros ?; apply grows_log |].
        intros ?. apply steady_bind; [apply _ | by intros ?; apply grows_log |].
        intros ?. apply steady_mret. apply _. }
    unfold try_catch, bind at 1, mret at 1, bind at 1, page_do at 1.
    destruct (page_call E (trace w) pageId (Goto (with_protocol url))) as [response|msg].
    + specialize (Hrest response (log (EvPage pageId (Goto (with_protocol url))) w)).
      destruct Hrest as [rest Hrest]. simpl in Hrest.
      match goal with
      | |- context [trace (let (_, _) := ?x in _).2] => destruct x as [[a|msg] w'] eqn:Hx
      end; simpl in *; exists rest; by rewrite Hrest, <- (assoc_L (++)).
    + by exists [].
  - intros url Hns. unfold navigateToUrl.
    erewrite bind_ret by by apply has_page_present. simpl.
    destruct url; try done. by destruct (Hns s).
Qed.

Lemma navigateToUrl_adds_protocol_witness :
  ∃ rest,
    trace (navigateToUrl plain_env "page-1" (VStr "example.com") ready_world).2
    = EvPage "page-1" (Goto "https://example.com") :: rest.
Proof.
  destruct (navigateToUrl_adds_protocol plain_env "page-1" ready_world) as [H _];
    [by vm_compute |].
  destruct (H "example.com") as [_ [rest Hrest]]. by exists rest.
Defined.

(** ** Validation of tool calls *)

(** X9: for every tool of the catalog and every parameter the catalog
    declares required for it, a call whose argument for that parameter is
    missing or falsy is rejected by the tool implementation: the result has
    [success = false] and an error string, and nothing is called (the world
    is unchanged). *)
Theorem missing_required_argument_rejected (E : Env) toolCall options w tool parameter :
  tool ∈ BROWSER_TOOLS →
  BrowserToolCall.name toolCall = tool_name tool →
  parameter ∈ tool_required tool →
  Js.truthy (arg (BrowserToolCall.arguments toolCall) parameter) = false →
  ∃ result,
    dispatch E toolCall options w = (Ret result, w) ∧
    BrowserToolResult.success result = false ∧
    is_Some (BrowserToolResult.error result).
Proof.
  intros Htool Hname Hparam Harg. unfold dispatch. rewrite Hname.
  unfold BROWSER_TOOLS in Htool.
  repeat (apply elem_of_cons in Htool as [->|Htool]);
    try (by apply elem_of_nil in Htool);
    simpl in Hparam;
    repeat (apply elem_of_cons in Hparam as [->|Hparam]);
    try (by apply elem_of_nil in Hparam);
    simpl;
    unfold executeNavigate, executeClick, executeType, executeScroll,
      executeWaitForElement, executeFillForm, executeEvaluateScript;
    rewrite Harg; simpl; rewrite ?orb_true_r;
    (eexists; split; [reflexivity | split; [reflexivity | by eexists]]).
Qed.

Lemma missing_required_argument_rejected_witness :
  dispatch plain_env (BrowserToolCall.mk "call-1" "navigate" [])
    (ToolExecutionOptions.mk "page-1" None None None) ready_world
  = (Ret (BrowserToolResult.failure "URL is required for navigation"), ready_world).
Proof.
  destruct (missing_required_argument_rejected plain_env
              (BrowserToolCall.mk "call-1" "navigate" [])
              (ToolExecutionOptions.mk "page-1" None None None) ready_world
              {| tool_name := "navigate"; tool_required := ["url"] |} "url")
    as (result & Hrun & _);
    [apply elem_of_cons; by left | reflexivity | apply elem_of_cons; by left
    | reflexivity |].
  rewrite Hrun. vm_compute in Hrun. by injection Hrun as <-.
Defined.

Lemma eqb_false_of_ne (a b : string) : a ≠ b → String.eqb a b = false.
Proof. intros H. by apply String.eqb_neq. Qed.

(** X10: a name is a tool of the catalog exactly when the safety table
    classifies it, and for every other name the dispatcher returns the
    failure ["Unknown tool: <name>"] and calls nothing. *)
Theorem unknown_tool_rejected (E : Env) toolCall options w :
  (∀ name, name ∈ tool_name <$> BROWSER_TOOLS ↔ is_Some (TOOL_SAFETY_LEVELS !! name)) ∧
  (BrowserToolCall.name toolCall ∉ tool_name <$> BROWSER_TOOLS →
   dispatch E toolCall options w
   = (Ret (BrowserToolResult.failure
             ("Unknown tool: " +:+ BrowserToolCall.name toolCall)), w)).
Proof.
  split.
  - intros name. rewrite <- elem_of_dom.
    assert (Hdom : dom TOOL_SAFETY_LEVELS
                   = list_to_set (tool_name <$> BROWSER_TOOLS) :> gset string)
      by (by apply (bool_decide_unpack _); vm_compute).
    rewrite Hdom. by rewrite elem_of_list_to_set.
  - intros Hname. unfold dispatch.
    simpl in Hname. repeat (apply not_elem_of_cons in Hname as [? Hname]).
    by rewrite !eqb_false_of_ne.
Qed.

Lemma unknown_tool_rejected_witness :
  dispatch plain_env (BrowserToolCall.mk "call-1" "download" [])
    (ToolExecutionOptions.mk "page-1" None None None) ready_world
  = (Ret (BrowserToolResult.failure "Unknown tool: download"), ready_world).
Proof.
  destruct (unknown_tool_rejected plain_env (BrowserToolCall.mk "call-1" "download" [])
              (ToolExecutionOptions.mk "page-1" None None None) ready_world) as [_ H].
  apply H. apply (bool_decide_unpack _). by vm_compute.
Defined.

(** ** The gate, case by case *)

(** What a name resolves to in the safety table: a level (its own, or
    [moderate] for a name that is nowhere), or what [Object.prototype] holds
    under that name: the prototype itself under ["__proto__"], a native
    function under the eleven other names. *)
Lemma safetyOf_resolves (name : string) :
  (∃ l : ToolSafetyLevel, safetyOf name = l)
  ∨ safetyOf name = Inherited "[object Object]"
  ∨ ∃ f, f ∈ ["Object"; "__defineGetter__"; "__defineSetter__"; "hasOwnProperty";
              "__lookupGetter__"; "__lookupSetter__"; "isPrototypeOf";
              "propertyIsEnumerable"; "toString"; "valueOf"; "toLocaleString"]
         ∧ safetyOf name = Inherited (native_function f).
Proof.
  unfold safetyOf.
  destruct (TOOL_SAFETY_LEVELS !! name) as [l|]; [left; by exists l |].
  destruct (Js.assoc name OBJECT_PROTOTYPE) as [text|] eqn:Hp; [| left; by exists MODERATE].
  right. unfold OBJECT_PROTOTYPE in Hp. cbn [Js.assoc] in Hp.
  repeat (destruct (String.eqb name _);
          [injection Hp as <-;
           first [ by left
                 | right; eexists; split; [| reflexivity]; set_solver ] |]).
  discriminate Hp.
Qed.

(** X11: the safety gate admits a call exactly when [autoConfirm] is set, or
    the tool is [safe], or a level is granted and what the name resolves to
    in the safety table, compared with the granted level as text, is not
    greater: any granted level admits a [dangerous] tool and the name
    ["__proto__"] (which resolves to the prototype object, printed
    ["[object Object]"]); a [moderate] tool, and a name that resolves to a
    native function of [Object.prototype], is admitted under a granted
    [moderate] or [safe] but not under a granted [dangerous]. A call that is
    not admitted is answered with the confirmation-required failure, which
    names what the name resolved to, and nothing runs. *)
Theorem gate_decision_table (E : Env) toolCall options w :
  let name := BrowserToolCall.name toolCall in
  let level := safetyOf name in
  (canExecuteTool name level options = true ↔
     flag (ToolExecutionOptions.autoConfirm options) = true
     ∨ level = SAFE
     ∨ ∃ granted, ToolExecutionOptions.safetyLevel options = Some granted
                  ∧ (level = DANGEROUS ∨ level = Inherited "[object Object]"
                     ∨ ((level = MODERATE ∨ ∃ f, level = Inherited (native_function f))
                        ∧ granted ≠ DANGEROUS)))
  ∧ (canExecuteTool name level options = false →
     executeTool E toolCall options w = (Ret (confirmation_required name level), w)).
Proof.
  intros name level. split; [| apply executeTool_refused].
  unfold canExecuteTool.
  destruct (flag (ToolExecutionOptions.autoConfirm options)); [by split; [left |] |].
  destruct (decide (level = SAFE)) as [Hsafe|Hsafe].
  { rewrite bool_decide_eq_true_2 by done. split; [by right; left | done]. }
  rewrite bool_decide_eq_false_2 by done. simpl.
  assert (Hlevel :
    ∀ granted,
      resolved_le level granted = true ↔
      level = DANGEROUS ∨ level = Inherited "[object Object]"
      ∨ ((level = MODERATE ∨ ∃ f, level = Inherited (native_function f))
         ∧ granted ≠ DANGEROUS)).
  { intros granted. subst level.
    destruct (safetyOf_resolves name) as [[l Hl]|[Hl|(f & Hf & Hl)]]; rewrite Hl in *.
    - destruct l, granted; try done;
        (match goal with
         | |- ?b = true ↔ _ => let v := eval vm_compute in b in change b with v
         end);
        (split;
         [ intros Hc;
           first [ discriminate Hc | by left
                 | right; right; split; [by left | discriminate] ]
         | intros [Hc|[Hc|[[Hc|[f Hc]] Hne]]]; done ]).
    - split; [by right; left | by destruct granted].
    - repeat (apply elem_of_cons in Hf as [->|Hf]);
        try (by apply elem_of_nil in Hf);
        (destruct granted;
         (match goal with
          | |- ?b = true ↔ _ => let v := eval vm_compute in b in change b with v
          end);
         (split;
          [ intros Hc;
            first [ discriminate Hc
                  | right; right; split; [right; by eexists | discriminate] ]
          | intros [Hc|[Hc|[_ Hne]]]; done ])). }
  destruct (ToolExecutionOptions.safetyLevel options) as [granted|].
  - rewrite Hlevel. split.
    + intros Hc. right; right. by exists granted.
    + intros [Hc|[Hc|(g & [= <-] & Hc)]]; done.
  - split; [done |]. by intros [Hc|[Hc|(g & Hg & _)]].
Qed.

(** ** Launching the browser on demand *)

Lemma stays_ready_preorder : PreOrder stays_ready.
Proof.
  split.
  - intros w Hw. exact Hw.
  - intros w1 w2 w3 H12 H23 H1. apply H23, H12, H1.
Qed.
#[global] Existing Instance stays_ready_preorder.

Lemma initialize_launched (E : Env) w :
  launch E (trace w) = Ret tt →
  initialize E w = (Ret true, set_launched (log EvLaunch w)).
Proof. intros H. unfold initialize, try_catch, bind, launch_do, mret. by rewrite H. Qed.

Lemma initialize_failed (E : Env) w msg :
  launch E (trace w) = Throw msg →
  initialize E w = (Ret false, log EvLaunch w).
Proof. intros H. unfold initialize, try_catch, bind, launch_do, mret. by rewrite H. Qed.

Lemma executeTool_admitted (E : Env) toolCall options w :
  canExecuteTool (BrowserToolCall.name toolCall)
    (safetyOf (BrowserToolCall.name toolCall)) options = true →
  executeTool_body E toolCall options w
  = (let! ready := isReady in
     let! initialized := if negb ready then initialize E else mret true in
     if negb initialized then
       mret (BrowserToolResult.failure "Failed to initialize browser automation")
     else
       let! result := dispatch E toolCall options in
       (if flag (ToolExecutionOptions.updateContext options)
           && BrowserToolResult.success result
        then
          try_catch
            (let! newContext :=
               extractContext E (ToolExecutionOptions.pageId options)
                 {| includeScreenshot := Some false; includeFullContent := None;
                    includeInvisibleElements := None; maxContentLength := Some 1000;
                    maxElementsPerType := None |} in
             manager_updateContext newContext)
            (λ _, mret tt)
        else mret tt);;
       mret result) w.
Proof. intros H. unfold executeTool_body. by rewrite H. Qed.

Lemma executeTool_on_ready (E : Env) toolCall options w :
  canExecuteTool (BrowserToolCall.name toolCall)
    (safetyOf (BrowserToolCall.name toolCall)) options = true →
  ready w = true →
  carried_out E toolCall options w (executeTool E toolCall options w).
Proof.
  intros Hgate Hready. unfold carried_out, ready in *.
  destruct (dispatch E toolCall options w) as [[result|msg] w1] eqn:Hrun.
  - set (refresh :=
           if flag (ToolExecutionOptions.updateContext options)
              && BrowserToolResult.success result
           then
             try_catch
               (let! newContext :=
                  extractContext E (ToolExecutionOptions.pageId options)
                    {| includeScreenshot := Some false; includeFullContent := None;
                       includeInvisibleElements := None; maxContentLength := Some 1000;
                       maxElementsPerType := None |} in
                manager_updateContext newContext)
               (λ _, mret tt)
           else mret tt).
    assert (Ht : total refresh).
    { subst refresh. destruct (flag _ && _); [| apply total_mret].
      apply total_try_catch. intros _. apply total_mret. }
    assert (Hs : steady grows refresh).
    { subst refresh. destruct (flag _ && _); [| by apply steady_mret; apply _].
      apply steady_try_catch; [apply _ | | by intros ?; apply steady_mret; apply _].
      apply steady_bind; [apply _ | |].
      - apply steady_extractContext;
          auto using grows_log, grows_tick, grows_launched with typeclass_instances.
      - intros context w0. unfold grows. reflexivity. }
    destruct (Ht w1) as ([] & w2 & H2). specialize (Hs w1). rewrite H2 in Hs.
    assert (Hbody : executeTool_body E toolCall options w = (Ret result, w2)).
    { rewrite executeTool_admitted by done.
      erewrite bind_ret; [| unfold isReady; by rewrite Hready]. simpl.
      erewrite bind_ret by reflexivity. simpl.
      erewrite bind_ret by exact Hrun.
      by erewrite bind_ret by exact H2. }
    unfold executeTool. rewrite (try_catch_ret _ _ _ _ _ Hbody). by split.
  - unfold executeTool, try_catch. rewrite executeTool_admitted by done.
    erewrite bind_ret; [| unfold isReady; by rewrite Hready]. simpl.
    erewrite bind_ret by reflexivity. simpl.
    unfold bind at 1. by rewrite Hrun.
Qed.

Lemma executeTool_launches (E : Env) toolCall options w :
  canExecuteTool (BrowserToolCall.name toolCall)
    (safetyOf (BrowserToolCall.name toolCall)) options = true →
  ready w = false →
  launch E (trace w) = Ret tt →
  executeTool E toolCall options w
  = executeTool E toolCall options (set_launched (log EvLaunch w)).
Proof.
  intros Hgate Hready Hlaunch. unfold ready in Hready.
  unfold executeTool, try_catch. rewrite !executeTool_admitted by done.
  erewrite bind_ret; [| unfold isReady; by rewrite Hready]. simpl.
  erewrite bind_ret by by apply initialize_launched.
  symmetry. erewrite bind_ret by reflexivity. simpl.
  by erewrite bind_ret by reflexivity.
Qed.

Lemma executeTool_launch_fails (E : Env) toolCall options w msg :
  canExecuteTool (BrowserToolCall.name toolCall)
    (safetyOf (BrowserToolCall.name toolCall)) options = true →
  ready w = false →
  launch E (trace w) = Throw msg →
  executeTool E toolCall options w
  = (Ret (BrowserToolResult.failure "Failed to initialize browser automation"),
     log EvLaunch w).
Proof.
  intros Hgate Hready Hlaunch. unfold ready in Hready.
  unfold executeTool. apply try_catch_ret.
  rewrite executeTool_admitted by done.
  erewrite bind_ret; [| unfold isReady; by rewrite Hready]. simpl.
  by erewrite bind_ret by exact (initialize_failed E w msg Hlaunch).
Qed.

(** C1 (amended): a tool classified [dangerous], executed with [autoConfirm]
    not set and no safety level granted, yields the confirmation-required
    failure ([success = false]) and leaves the world as it was, so that no
    call reaches the driver.  When the granted level is [dangerous] the gate
    lets the call through and the call is carried out: on a driver that is
    ready, or that is launched for the call, [executeTool] returns what the
    tool's implementation returns (an exception of the implementation as a
    failed result) and the calls it made on the page are kept in the trace;
    only when the launch fails is the tool not run, and the result is the
    initialisation failure. *)
Theorem dangerous_tool_gated (E : Env) toolCall options w :
  safetyOf (BrowserToolCall.name toolCall) = DANGEROUS →
  flag (ToolExecutionOptions.autoConfirm options) = false →
  (ToolExecutionOptions.safetyLevel options = None →
     executeTool E toolCall options w =
       (Ret (confirmation_required (BrowserToolCall.name toolCall) DANGEROUS), w)
     ∧ BrowserToolResult.success
         (confirmation_required (BrowserToolCall.name toolCall) DANGEROUS) = false)
  ∧ (ToolExecutionOptions.safetyLevel options = Some DANGEROUS →
     canExecuteTool (BrowserToolCall.name toolCall) DANGEROUS options = true
     ∧ (ready w = true →
        carried_out E toolCall options w (executeTool E toolCall options w))
     ∧ (ready w = false → launch E (trace w) = Ret tt →
        carried_out E toolCall options (set_launched (log EvLaunch w))
          (executeTool E toolCall options w))
     ∧ (ready w = false → ∀ msg, launch E (trace w) = Throw msg →
        executeTool E toolCall options w
        = (Ret (BrowserToolResult.failure "Failed to initialize browser automation"),
           log EvLaunch w))).
Proof.
  intros Hd Ha. split.
  - intros Hs. split; [| reflexivity].
    rewrite executeTool_refused; rewrite Hd; [done |].
    by apply canExecuteTool_ungranted.
  - intros Hs.
    assert (Hgate : canExecuteTool (BrowserToolCall.name toolCall)
                      (safetyOf (BrowserToolCall.name toolCall)) options = true).
    { rewrite Hd. unfold canExecuteTool. rewrite Ha, Hs. reflexivity. }
    split; [by rewrite <- Hd |]. split; [| split].
    + intros Hready. by apply executeTool_on_ready.
    + intros Hready Hlaunch. rewrite executeTool_launches by done.
      apply executeTool_on_ready; [done |]. unfold ready. reflexivity.
    + intros Hready msg Hlaunch. by eapply executeTool_launch_fails.
Qed.

Lemma dangerous_tool_gated_witness :
  executeTool plain_env
    (BrowserToolCall.mk "call-1" "evaluate_script" [("script", VStr "document.title")])
    (ToolExecutionOptions.mk "page-1" (Some false) None (Some true)) ready_world
  = (Ret (confirmation_required "evaluate_script" DANGEROUS), ready_world)
  ∧ carried_out plain_env
      (BrowserToolCall.mk "call-1" "evaluate_script" [("script", VStr "document.title")])
      (ToolExecutionOptions.mk "page-1" (Some false) (Some DANGEROUS) (Some true))
      ready_world
      (executeTool plain_env
         (BrowserToolCall.mk "call-1" "evaluate_script" [("script", VStr "document.title")])
         (ToolExecutionOptions.mk "page-1" (Some false) (Some DANGEROUS) (Some true))
         ready_world).
Proof.
  split.
  - apply (dangerous_tool_gated plain_env
             (BrowserToolCall.mk "call-1" "evaluate_script"
                [("script", VStr "document.title")])
             (ToolExecutionOptions.mk "page-1" (Some false) None (Some true)) ready_world);
      reflexivity.
  - apply (dangerous_tool_gated plain_env
             (BrowserToolCall.mk "call-1" "evaluate_script"
                [("script", VStr "document.title")])
             (ToolExecutionOptions.mk "page-1" (Some false) (Some DANGEROUS) (Some true))
             ready_world);
      reflexivity.
Defined.

(** X12: when a call passes the gate and the driver is not ready, the
    browser is launched first. If the launch raises, the result is the
    failure ["Failed to initialize browser automation"] and nothing else is
    called; if it succeeds, the call proceeds exactly as on the launched
    driver, and the driver is ready afterwards. *)
Theorem launch_on_demand (E : Env) toolCall options w :
  canExecuteTool (BrowserToolCall.name toolCall)
    (safetyOf (BrowserToolCall.name toolCall)) options = true →
  ready w = false →
  (∀ msg, launch E (trace w) = Throw msg →
     executeTool E toolCall options w
     = (Ret (BrowserToolResult.failure "Failed to initialize browser automation"),
        log EvLaunch w)) ∧
  (launch E (trace w) = Ret tt →
     executeTool E toolCall options w
     = executeTool E toolCall options (set_launched (log EvLaunch w))
     ∧ ready (executeTool E toolCall options w).2 = true).
Proof.
  intros Hgate Hready. unfold ready in Hready. split.
  - intros msg Hlaunch. unfold executeTool. apply try_catch_ret.
    rewrite executeTool_admitted by done.
    erewrite bind_ret; [| unfold isReady; by rewrite Hready]. simpl.
    by erewrite bind_ret by exact (initialize_failed E w msg Hlaunch).
  - intros Hlaunch.
    assert (Heq : executeTool E toolCall options w
                  = executeTool E toolCall options (set_launched (log EvLaunch w))).
    { unfold executeTool, try_catch. rewrite !executeTool_admitted by done.
      erewrite bind_ret; [| unfold isReady; by rewrite Hready]. simpl.
      erewrite bind_ret by by apply initialize_launched.
      symmetry. erewrite bind_ret by reflexivity. simpl.
      by erewrite bind_ret by reflexivity. }
    split; [exact Heq |]. rewrite Heq.
    assert (Hs : steady stays_ready (executeTool E toolCall options)).
    { apply steady_executeTool; [apply _ | ..]; intros; intros Hr;
        first [exact Hr | reflexivity]. }
    by apply (Hs (set_launched (log EvLaunch w))).
Qed.

Lemma launch_on_demand_witness :
  ready (executeTool plain_env
           (BrowserToolCall.mk "call-1" "screenshot" [])
           (ToolExecutionOptions.mk "page-1" None None None)
           {| trace := []; ticks := 0; browser := false; isInitialized := false;
              pages := {["page-1"]}; currentContext := None; contextHistory := [];
              conversations := [] |}).2 = true.
Proof.
  destruct (launch_on_demand plain_env (BrowserToolCall.mk "call-1" "screenshot" [])
              (ToolExecutionOptions.mk "page-1" None None None)
              {| trace := []; ticks := 0; browser := false; isInitialized := false;
                 pages := {["page-1"]}; currentContext := None; contextHistory := [];
                 conversations := [] |}) as [_ H]; [reflexivity | reflexivity |].
  by destruct H.
Defined.

(** ** The context manager *)

Lemma keeps_history_bounded_preorder : PreOrder keeps_history_bounded.
Proof.
  split.
  - intros w Hw. exact Hw.
  - intros w1 w2 w3 H12 H23 H1. apply H23, H12, H1.
Qed.
#[global] Existing Instance keeps_history_bounded_preorder.

Lemma same_context_preorder : PreOrder same_context.
Proof.
  split.
  - by intros w.
  - intros w1 w2 w3 [H1 H2] [H3 H4]. split; congruence.
Qed.
#[global] Existing Instance same_context_preorder.

Lemma manager_updateContext_bounded context w :
  history_bounded w → history_bounded (manager_updateContext context w).2.
Proof.
  unfold history_bounded, manager_updateContext, maxHistorySize. simpl.
  destruct (currentContext w); [| done]. intros H.
  case_bool_decide as Hlen; rewrite ?length_drop, length_app in *; simpl in *; lia.
Qed.

Lemma steady_bounded_sendMessage (E : Env) conversationId userMessage options :
  steady keeps_history_bounded (sendMessage E conversationId userMessage options).
Proof.
  apply steady_sendMessage; [apply _ | ..]; intros; intros Hb;
    first [exact Hb | by apply manager_updateContext_bounded].
Qed.

Lemma steady_bounded_executeTool (E : Env) toolCall options :
  steady keeps_history_bounded (executeTool E toolCall options).
Proof.
  apply steady_executeTool; [apply _ | ..]; intros; intros Hb;
    first [exact Hb | by apply manager_updateContext_bounded].
Qed.

Lemma steady_bounded_updateContext (E : Env) pageId options :
  steady keeps_history_bounded (updateContext E pageId options).
Proof.
  apply steady_updateContext; [apply _ | ..]; intros; intros Hb;
    first [exact Hb | by apply manager_updateContext_bounded].
Qed.

(** X13: the history of snapshots never exceeds its bound of 10: when it
    holds at most 10 snapshots, it still does after a context update, after
    a tool call and after a whole turn of the agent. *)
Theorem context_history_stays_bounded (E : Env) w :
  (length (contextHistory w) ≤ 10)%nat →
  (∀ pageId options,
     (length (contextHistory (updateContext E pageId options w).2) ≤ 10)%nat) ∧
  (∀ toolCall options,
     (length (contextHistory (executeTool E toolCall options w).2) ≤ 10)%nat) ∧
  (∀ conversationId userMessage options,
     (length (contextHistory
                (sendMessage E conversationId userMessage options w).2) ≤ 10)%nat).
Proof.
  intros Hb. split; [| split]; intros.
  - by apply (steady_bounded_updateContext E pageId options w).
  - by apply (steady_bounded_executeTool E toolCall options w).
  - by apply (steady_bounded_sendMessage E conversationId userMessage options w).
Qed.

Lemma context_history_stays_bounded_witness :
  (length (contextHistory
             (sendMessage batch_env "conversation-1" "open the page" confirmed_options
                ready_world).2) ≤ 10)%nat.
Proof.
  destruct (context_history_stays_bounded batch_env ready_world) as (_ & _ & H);
    [simpl; lia |].
  apply H.
Defined.

Lemma extractContext_same_context (E : Env) pageId options :
  steady same_context (extractContext E pageId options).
Proof. apply steady_extractContext; [apply _ | ..]; by intros. Qed.

(** X14: [updateContext] never raises; the snapshot it returns becomes the
    current one.  With a history within its bound, the snapshot that was
    current before becomes the last entry of the history, the entries
    before it are the former history without its oldest entries, and the
    length is the former length plus one, capped at 10; a first update (no
    current snapshot) leaves the history as it was. *)
Theorem updateContext_records_previous (E : Env) pageId options w :
  (length (contextHistory w) ≤ 10)%nat →
  ∃ context w',
    updateContext E pageId options w = (Ret context, w') ∧
    getCurrentContext w' = (Ret (Some context), w') ∧
    match currentContext w with
    | None => contextHistory w' = contextHistory w
    | Some previous =>
        last (contextHistory w') = Some previous ∧
        contextHistory w' `suffix_of` contextHistory w ++ [previous] ∧
        length (contextHistory w') = (length (contextHistory w) + 1) `min` 10
    end%nat.
Proof.
  intros Hb.
  destruct (total_extractContext E pageId options w) as (context & w1 & Hrun).
  pose proof (extractContext_same_context E pageId options w) as [Hc Hh].
  rewrite Hrun in Hc, Hh. simpl in Hc, Hh.
  eexists context, _. split.
  { unfold updateContext. erewrite bind_ret by exact Hrun.
    erewrite bind_ret by reflexivity. reflexivity. }
  split; [done |]. simpl. rewrite Hc, Hh.
  destruct (currentContext w) as [previous|]; [| done].
  unfold maxHistorySize. case_bool_decide as Hlen.
  - rewrite length_app in Hlen. simpl in Hlen.
    destruct (contextHistory w) as [|c0 history] eqn:Hhist; [simpl in Hlen; lia |].
    simpl. rewrite drop_0. split; [apply last_snoc |]. split.
    + by apply suffix_cons_r.
    + rewrite length_app. simpl in *. lia.
  - split; [apply last_snoc |]. split; [done |].
    rewrite length_app in *. simpl in *. lia.
Qed.

Lemma updateContext_records_previous_witness :
  ∃ context w',
    updateContext honest_env "page-1" no_options busy_world = (Ret context, w') ∧
    getCurrentContext w' = (Ret (Some context), w').
Proof.
  destruct (updateContext_records_previous honest_env "page-1" no_options busy_world)
    as (context & w' & Hrun & Hcur & _); [simpl; lia |].
  by exists context, w'.
Defined.

Lemma steady_same_context_dispatch (E : Env) toolCall options :
  steady same_context (dispatch E toolCall options).
Proof. apply steady_dispatch; [apply _ | ..]; by intros. Qed.

Lemma steady_same_context_initialize (E : Env) : steady same_context (initialize E).
Proof. apply steady_initialize; [apply _ | ..]; by intros. Qed.

(** The steps of an admitted call after the driver is ready. *)
Lemma executeTool_dispatch_context (E : Env) toolCall options w :
  ∃ r w',
    try_catch
      (let! result := dispatch E toolCall options in
       (if flag (ToolExecutionOptions.updateContext options)
           && BrowserToolResult.success result
        then
          try_catch
            (let! newContext :=
               extractContext E (ToolExecutionOptions.pageId options)
                 {| includeScreenshot := Some false; includeFullContent := None;
                    includeInvisibleElements := None; maxContentLength := Some 1000;
                    maxElementsPerType := None |} in
             manager_updateContext newContext)
            (λ _, mret tt)
        else mret tt);;
       mret result)
      (λ msg, mret (BrowserToolResult.failure ("Tool execution failed: " +:+ msg))) w
    = (Ret r, w') ∧
    (flag (ToolExecutionOptions.updateContext options)
     && BrowserToolResult.success r = false → same_context w w') ∧
    (flag (ToolExecutionOptions.updateContext options)
     && BrowserToolResult.success r = true → is_Some (currentContext w')).
Proof.
  pose proof (steady_same_context_dispatch E toolCall options w) as Hd.
  unfold try_catch at 1. unfold bind at 1.
  destruct (dispatch E toolCall options w) as [[result|msg] w1]; simpl in Hd.
  - destruct (flag (ToolExecutionOptions.updateContext options)
              && BrowserToolResult.success result) eqn:Hupdate.
    + destruct (total_extractContext E (ToolExecutionOptions.pageId options)
                  {| includeScreenshot := Some false; includeFullContent := None;
                     includeInvisibleElements := None; maxContentLength := Some 1000;
                     maxElementsPerType := None |} w1) as (context & w2 & Hrun).
      eexists result, _. split; [| split].
      * unfold try_catch, bind. rewrite Hrun. reflexivity.
      * rewrite Hupdate. done.
      * intros _. simpl. by eexists.
    + exists result, w1. split; [reflexivity |]. rewrite Hupdate. split; done.
  - eexists _, w1. split; [reflexivity |]. simpl. rewrite andb_false_r.
    split; done.
Qed.

(** X15: a tool call rewrites the agent's view of the page only when it
    succeeded and the caller asked for it.  [executeTool] always returns a
    result; when the result is a failure, or the [updateContext] option is
    not set, the context manager holds the snapshot and the history it held
    before the call; when the result is a success and the option is set,
    the manager holds a current snapshot afterwards. *)
Theorem context_updated_only_on_success (E : Env) toolCall options w :
  ∃ r w',
    executeTool E toolCall options w = (Ret r, w') ∧
    (BrowserToolResult.success r = false
     ∨ flag (ToolExecutionOptions.updateContext options) = false →
     currentContext w' = currentContext w ∧ contextHistory w' = contextHistory w) ∧
    (BrowserToolResult.success r = true →
     flag (ToolExecutionOptions.updateContext options) = true →
     is_Some (currentContext w')).
Proof.
  destruct (canExecuteTool (BrowserToolCall.name toolCall)
              (safetyOf (BrowserToolCall.name toolCall)) options) eqn:Hgate.
  - unfold executeTool. unfold try_catch at 1.
    rewrite (executeTool_admitted E toolCall options w Hgate).
    unfold bind at 1, isReady. simpl.
    assert (Hrest : ∀ w1, same_context w w1 →
      ∃ r w',
        (let (o, w2) :=
           (let! result := dispatch E toolCall options in
            (if flag (ToolExecutionOptions.updateContext options)
                && BrowserToolResult.success result
             then
               try_catch
                 (let! newContext :=
                    extractContext E (ToolExecutionOptions.pageId options)
                      {| includeScreenshot := Some false; includeFullContent := None;
                         includeInvisibleElements := None;
                         maxContentLength := Some 1000;
                         maxElementsPerType := None |} in
                  manager_updateContext newContext)
                 (λ _, mret tt)
             else mret tt);;
            mret result) w1 in
         match o with
         | Ret a => (Ret a, w2)
         | Throw msg =>
             mret (BrowserToolResult.failure ("Tool execution failed: " +:+ msg)) w2
         end) = (Ret r, w') ∧
        (BrowserToolResult.success r = false
         ∨ flag (ToolExecutionOptions.updateContext options) = false →
         currentContext w' = currentContext w ∧ contextHistory w' = contextHistory w) ∧
        (BrowserToolResult.success r = true →
         flag (ToolExecutionOptions.updateContext options) = true →
         is_Some (currentContext w'))).
    { intros w1 Hw1.
      destruct (executeTool_dispatch_context E toolCall options w1)
        as (r & w' & Hrun & Hsame & Hset).
      exists r, w'. split; [exact Hrun |]. split.
      - intros Hor.
        assert (Hoff : flag (ToolExecutionOptions.updateContext options)
                       && BrowserToolResult.success r = false).
        { destruct Hor as [-> | ->]; [apply andb_false_r | done]. }
        destruct (Hsame Hoff) as [H1 H2]. destruct Hw1 as [H3 H4].
        split; congruence.
      - intros Hs Hf. apply Hset. by rewrite Hs, Hf. }
    destruct (isInitialized w && browser w) eqn:Hready; simpl.
    + unfold bind at 1, mret at 1. simpl. by apply Hrest.
    + unfold bind at 1.
      pose proof (steady_same_context_initialize E w) as Hinit.
      destruct (initialize E w) as [[initialized|msg] w1]; simpl in Hinit.
      * destruct initialized; simpl; [by apply Hrest |].
        eexists _, w1. split; [reflexivity |]. simpl.
        split; [intros _; exact Hinit | done].
      * eexists _, w1. split; [reflexivity |]. simpl.
        split; [intros _; exact Hinit | done].
  - eexists _, w. split.
    + apply executeTool_refused. exact Hgate.
    + simpl. split; done.
Qed.

(** ** Opening, listing and clearing conversations *)

Lemma assoc_elem {A : Type} (k : string) (ps : list (string * A)) v :
  Js.assoc k ps = Some v → (k, v) ∈ ps.
Proof.
  induction ps as [|[k' v'] ps IH]; simpl; [done |].
  destruct (String.eqb_spec k k') as [->|_].
  - intros [= ->]. left.
  - intros H. right. by apply IH.
Qed.

Lemma assoc_None {A : Type} (k : string) (ps : list (string * A)) :
  Js.assoc k ps = None ↔ k ∉ ps.*1.
Proof.
  induction ps as [|[k' v'] ps IH]; simpl.
  - split; [intros _; apply not_elem_of_nil | done].
  - rewrite not_elem_of_cons. destruct (String.eqb_spec k k') as [->|Hne].
    + split; [done | by intros [? _]].
    + rewrite IH. split; [by intros ? | by intros [_ ?]].
Qed.

Lemma assoc_NoDup {A : Type} (k : string) (ps : list (string * A)) v :
  NoDup ps.*1 → (k, v) ∈ ps → Js.assoc k ps = Some v.
Proof.
  induction ps as [|[k' v'] ps IH]; simpl; intros Hnd Hin.
  - by apply elem_of_nil in Hin.
  - apply NoDup_cons in Hnd as [Hk' Hnd].
    apply elem_of_cons in Hin as [[= -> ->]|Hin].
    + by rewrite String.eqb_refl.
    + destruct (String.eqb_spec k k') as [->|_]; [| by apply IH].
      destruct Hk'. apply list_elem_of_fmap. by exists (k', v).
Qed.

Lemma assoc_assign_ne {A : Type} (k k' : string) (v : A) ps :
  k' ≠ k → Js.assoc k' (Js.assign k v ps) = Js.assoc k' ps.
Proof.
  intros Hne. induction ps as [|[k0 v0] ps IH]; simpl.
  - by destruct (String.eqb_spec k' k).
  - destruct (String.eqb_spec k k0) as [->|_]; simpl.
    + by destruct (String.eqb_spec k' k0).
    + by rewrite IH.
Qed.

Lemma assign_present {A : Type} (k : string) (v : A) ps :
  k ∈ ps.*1 → (Js.assign k v ps).*1 = ps.*1.
Proof.
  induction ps as [|[k0 v0] ps IH]; intros Hin.
  - by apply elem_of_nil in Hin.
  - cbn [Js.assign]. destruct (String.eqb_spec k k0) as [->|Hne]; [done |].
    rewrite fmap_cons in Hin. apply elem_of_cons in Hin as [->|Hin]; [done |].
    rewrite !fmap_cons. by rewrite IH.
Qed.

Lemma assign_elem {A : Type} (k : string) (v : A) ps e :
  e ∈ Js.assign k v ps → e = (k, v) ∨ e ∈ ps.
Proof.
  induction ps as [|[k0 v0] ps IH]; simpl.
  - intros ->%list_elem_of_singleton. by left.
  - destruct (String.eqb_spec k k0) as [->|_].
    + intros [->|H]%elem_of_cons; [by left | right; by right].
    + intros [->|H]%elem_of_cons; [right; left |].
      destruct (IH H) as [->|?]; [by left | right; by right].
Qed.

Lemma store_set_wf id c cs :
  store_wf cs → AgentConversation.id c = id → store_wf (store_set id c cs).
Proof.
  intros [Hnd Hid] Hc. unfold store_set. split.
  - destruct (decide (id ∈ cs.*1)) as [Hin|Hout].
    + by rewrite assign_present.
    + rewrite assign_fresh, fmap_app by done. simpl.
      apply NoDup_app. split; [done |]. split; [| apply NoDup_singleton].
      intros k Hk ->%list_elem_of_singleton. done.
  - intros k c' [[= -> ->]|Hin]%assign_elem; [done | by apply Hid].
Qed.

Lemma store_get_wf id c cs :
  store_wf cs → store_get id cs = Some c → AgentConversation.id c = id.
Proof. intros [_ Hid] Hget. by apply Hid, assoc_elem. Qed.

Lemma busy_world_wf : store_wf (conversations busy_world).
Proof.
  split; [apply (bool_decide_unpack _); by vm_compute |].
  intros k c Hin. simpl in Hin. unfold three_conversations in Hin.
  repeat (apply elem_of_cons in Hin as [[= -> ->]|Hin]; [done |]).
  by apply elem_of_nil in Hin.
Qed.

Lemma set_conversations_same w : set_conversations (conversations w) w = w.
Proof. by destruct w. Qed.

(** X16: [createOrGetConversation] on a store with one entry per id.  The
    conversation it returns is the one the store holds under the id
    afterwards, and no other entry changes.  For an id already present the
    stored conversation keeps its messages, its page, its url and its
    creation time, whatever page and url are passed, and keeps its place in
    the store; only [lastActivity] is set to the time of the call.  For a
    new id the conversation has no messages, the page and url passed, and is
    added after the existing entries. *)
Theorem createOrGetConversation_finds_or_files (E : Env) id pageId initialUrl w :
  store_wf (conversations w) →
  ∃ conversation w',
    createOrGetConversation E id pageId initialUrl w = (Ret conversation, w') ∧
    store_wf (conversations w') ∧
    getConversation id w' = (Ret (Some conversation), w') ∧
    AgentConversation.id conversation = id ∧
    (∀ id', id' ≠ id →
            store_get id' (conversations w') = store_get id' (conversations w)) ∧
    match store_get id (conversations w) with
    | Some existing =>
        AgentConversation.messages conversation = AgentConversation.messages existing ∧
        AgentConversation.pageId conversation = AgentConversation.pageId existing ∧
        AgentConversation.currentUrl conversation
        = AgentConversation.currentUrl existing ∧
        AgentConversation.createdAt conversation = AgentConversation.createdAt existing ∧
        AgentConversation.lastActivity conversation = clock E (ticks w) ∧
        (conversations w').*1 = (conversations w).*1
    | None =>
        AgentConversation.messages conversation = [] ∧
        AgentConversation.pageId conversation = pageId ∧
        AgentConversation.currentUrl conversation = initialUrl ∧
        conversations w' = conversations w ++ [(id, conversation)]
    end.
Proof.
  intros Hwf. unfold createOrGetConversation, getConversation, bind at 1.
  destruct (store_get id (conversations w)) as [existing|] eqn:Hget.
  - pose proof (store_get_wf _ _ _ Hwf Hget) as Hid.
    eexists _, _. split; [reflexivity |]. simpl. rewrite Hid.
    split; [by apply store_set_wf |].
    split; [unfold store_get, store_set; by rewrite assoc_assign |].
    split; [done |].
    split; [intros id' Hne; by apply assoc_assign_ne |].
    repeat (split; [done |]).
    apply assign_present. apply list_elem_of_fmap.
    exists (id, existing). split; [done | by apply assoc_elem].
  - eexists _, _. split; [reflexivity |]. simpl.
    split; [by apply store_set_wf |].
    split; [unfold store_get, store_set; by rewrite assoc_assign |].
    split; [done |].
    split; [intros id' Hne; by apply assoc_assign_ne |].
    repeat (split; [done |]).
    unfold store_set. apply assign_fresh. by apply assoc_None.
Qed.

Lemma createOrGetConversation_finds_or_files_witness :
  ∃ conversation w',
    createOrGetConversation plain_env "b" "page-9" (VStr "https://example.com")
      busy_world = (Ret conversation, w') ∧
    AgentConversation.pageId conversation = "page-1".
Proof.
  destruct (createOrGetConversation_finds_or_files plain_env "b" "page-9"
              (VStr "https://example.com") busy_world busy_world_wf)
    as (conversation & w' & Hrun & _ & _ & _ & _ & Hold).
  exists conversation, w'. split; [exact Hrun |].
  simpl in Hold. by destruct Hold as (_ & -> & _).
Defined.

Lemma store_filter_wf (P : string * AgentConversation.t → Prop)
    `{!∀ e, Decision (P e)} cs :
  store_wf cs → store_wf (filter P cs).
Proof.
  intros [Hnd Hid]. split.
  - clear Hid. induction cs as [|[k c] cs IH]; [done |].
    rewrite fmap_cons in Hnd. apply NoDup_cons in Hnd as [Hk Hnd].
    rewrite filter_cons. destruct (decide (P (k, c))); [| by apply IH].
    rewrite fmap_cons. apply NoDup_cons. split; [| by apply IH].
    intros (e & He & Hin)%list_elem_of_fmap. apply list_elem_of_filter in Hin as [_ Hin].
    apply Hk. apply list_elem_of_fmap. by exists e.
  - intros k c [_ Hin]%list_elem_of_filter. by apply Hid.
Qed.

Lemma store_get_filter (P : string * AgentConversation.t → Prop)
    `{!∀ e, Decision (P e)} cs id c :
  store_wf cs →
  store_get id (filter P cs) = Some c ↔ store_get id cs = Some c ∧ P (id, c).
Proof.
  intros Hwf. pose proof (store_filter_wf P cs Hwf) as Hwf'.
  destruct Hwf as [Hnd _], Hwf' as [Hnd' _]. unfold store_get. split.
  - intros [HP Hin]%assoc_elem%list_elem_of_filter. split; [| done].
    by apply assoc_NoDup.
  - intros [Hin%assoc_elem HP]. apply assoc_NoDup; [done |].
    by apply list_elem_of_filter.
Qed.

Lemma filter_values (P : AgentConversation.t → Prop) `{!∀ c, Decision (P c)}
    (cs : list (string * AgentConversation.t)) :
  (filter (λ e, P e.2) cs).*2 = filter P (cs.*2).
Proof.
  induction cs as [|[k c] cs IH]; [done |].
  rewrite fmap_cons, !filter_cons. simpl.
  destruct (decide (P c)); [rewrite fmap_cons |]; by rewrite IH.
Qed.

(** X17: [cleanupOldConversations] at time [t] keeps exactly the
    conversations whose last activity is at most 24 hours before [t]: a
    conversation is found under its id afterwards exactly when it was found
    before and is that recent.  The conversations listed as active, at [t]
    or at any later time, are the same before and after; a conversation
    whose last activity is exactly 24 hours old is kept although it is not
    listed as active. *)
Theorem cleanup_keeps_recent_conversations (E : Env) w :
  store_wf (conversations w) →
  ∃ w',
    cleanupOldConversations E w = (Ret tt, w') ∧
    store_wf (conversations w') ∧
    (∀ id c,
       store_get id (conversations w') = Some c ↔
       store_get id (conversations w) = Some c
       ∧ clock E (ticks w) - AgentConversation.lastActivity c ≤ maxAge) ∧
    (∀ t, clock E (ticks w) ≤ t →
          activeConversations t (conversations w')
          = activeConversations t (conversations w)) ∧
    (∀ id c,
       store_get id (conversations w) = Some c →
       clock E (ticks w) - AgentConversation.lastActivity c = maxAge →
       store_get id (conversations w') = Some c
       ∧ c ∉ activeConversations (clock E (ticks w)) (conversations w')).
Proof.
  intros Hwf. eexists. split; [reflexivity |]. simpl.
  assert (Hget : ∀ id c,
    store_get id
      (filter (λ e, ¬ (maxAge < clock E (ticks w) - AgentConversation.lastActivity e.2))
         (conversations w)) = Some c ↔
    store_get id (conversations w) = Some c
    ∧ clock E (ticks w) - AgentConversation.lastActivity c ≤ maxAge).
  { intros id c. rewrite store_get_filter by done. simpl. split.
    - intros [? ?]. split; [done | lia].
    - intros [? ?]. split; [done | lia]. }
  split; [by apply store_filter_wf |]. split; [exact Hget |]. split.
  - intros t Ht. unfold activeConversations. f_equal.
    trans (filter (λ conv, t - AgentConversation.lastActivity conv < maxAge)
             (filter
                (λ c, ¬ (maxAge < clock E (ticks w) - AgentConversation.lastActivity c))
                ((conversations w).*2))).
    { f_equal.
      exact (filter_values
               (λ c, ¬ (maxAge < clock E (ticks w) - AgentConversation.lastActivity c))
               (conversations w)). }
    rewrite list_filter_filter. apply list_filter_iff. intros c. split.
    + by intros [? _].
    + intros H. split; [done | lia].
  - intros id c Hc Hage. split; [apply Hget; split; [done | lia] |].
    unfold activeConversations, sort_conversations.
    intros Hin.
    assert (Hmem : ∀ l, c ∈ foldr insert_conversation [] l → c ∈ l).
    { induction l as [|a l IH]; simpl; [done |].
      intros [->|H]%insert_conversation_elem; [left | right; by apply IH]. }
    apply Hmem in Hin. apply list_elem_of_filter in Hin as [Hlt _]. lia.
Qed.

Lemma cleanup_keeps_recent_conversations_witness :
  ∃ w',
    cleanupOldConversations plain_env busy_world = (Ret tt, w') ∧
    store_wf (conversations w').
Proof.
  destruct (cleanup_keeps_recent_conversations plain_env busy_world busy_world_wf)
    as (w' & Hrun & Hwf & _).
  by exists w'.
Defined.

Lemma insert_conversation_perm a l : insert_conversation a l ≡ₚ a :: l.
Proof.
  induction l as [|b l IH]; simpl; [done |].
  destruct (_ <=? _); [done |]. rewrite IH. apply Permutation_swap.
Qed.

Lemma sort_conversations_perm l : sort_conversations l ≡ₚ l.
Proof.
  induction l as [|a l IH]; simpl; [done |].
  rewrite insert_conversation_perm. by rewrite IH.
Qed.

(** X18: [getActiveConversations] lists, most recently active first, exactly
    the stored conversations whose last activity is less than 24 hours
    before the time of the call, each once: a conversation is listed exactly
    when it is found under its id and is that recent.  The call reads the
    clock and changes nothing else. *)
Theorem active_conversations_recent_newest_first (E : Env) w :
  store_wf (conversations w) →
  ∃ listed,
    getActiveConversations E w = (Ret listed, tick w) ∧
    newest_first listed ∧
    NoDup (AgentConversation.id <$> listed) ∧
    listed ≡ₚ filter (λ c, clock E (ticks w) - AgentConversation.lastActivity c < maxAge)
                (conversations w).*2 ∧
    (∀ c, c ∈ listed ↔
          store_get (AgentConversation.id c) (conversations w) = Some c
          ∧ clock E (ticks w) - AgentConversation.lastActivity c < maxAge).
Proof.
  intros Hwf. eexists. split; [apply getActiveConversations_at |].
  unfold activeConversations.
  split; [apply sort_conversations_sorted |].
  assert (Hids : AgentConversation.id <$> (conversations w).*2 = (conversations w).*1).
  { destruct Hwf as [_ Hid]. induction (conversations w) as [|[k c] cs IH]; [done |].
    rewrite !fmap_cons. simpl. rewrite (Hid k c) by left.
    f_equal. apply IH. intros k' c' Hin. apply Hid. by right. }
  split; [| split].
  - rewrite sort_conversations_perm.
    eapply sublist_NoDup; [| apply fmap_sublist, sublist_filter].
    rewrite Hids. apply Hwf.
  - apply sort_conversations_perm.
  - intros c. rewrite sort_conversations_perm, list_elem_of_filter.
    destruct Hwf as [Hnd Hid]. split.
    + intros [Hage Hin]. split; [| done].
      apply list_elem_of_fmap in Hin as ([k c'] & -> & Hin). simpl.
      rewrite (Hid k c' Hin). by apply assoc_NoDup.
    + intros [Hget Hage]. split; [done |].
      apply assoc_elem in Hget. apply list_elem_of_fmap.
      by exists (AgentConversation.id c, c).
Qed.

Lemma active_conversations_recent_newest_first_witness :
  ∃ listed,
    getActiveConversations plain_env busy_world = (Ret listed, tick busy_world) ∧
    newest_first listed.
Proof.
  destruct (active_conversations_recent_newest_first plain_env busy_world busy_world_wf)
    as (listed & Hrun & Hsorted & _).
  by exists listed.
Defined.

Lemma store_delete_absent id cs : store_get id cs = None → store_delete id cs = cs.
Proof.
  intros Hnone%assoc_None. unfold store_delete.
  induction cs as [|[k c] cs IH]; [done |].
  rewrite fmap_cons in Hnone. apply not_elem_of_cons in Hnone as [Hne Hnone].
  rewrite filter_cons. simpl. destruct (decide (k ≠ id)) as [_|Heq].
  - by rewrite IH.
  - destruct Heq. by intros ->.
Qed.

(** X19: clearing an id under which no conversation is stored changes
    nothing, so that clearing a conversation twice is the same as clearing
    it once. *)
Theorem clearConversation_unknown_id_changes_nothing (id : string) (w : World) :
  (getConversation id w = (Ret None, w) → clearConversation id w = (Ret tt, w)) ∧
  (clearConversation id;; clearConversation id) w = clearConversation id w.
Proof.
  assert (Hnoop : ∀ w, store_get id (conversations w) = None →
                       clearConversation id w = (Ret tt, w)).
  { intros w0 Hnone. unfold clearConversation.
    rewrite store_delete_absent by done. by rewrite set_conversations_same. }
  split.
  - intros [= Hnone]. by apply Hnoop.
  - unfold bind. simpl.
    rewrite (Hnoop (set_conversations (store_delete id (conversations w)) w)); [done |].
    simpl. apply store_get_delete.
Qed.

Lemma clearConversation_unknown_id_changes_nothing_witness :
  clearConversation "z" busy_world = (Ret tt, busy_world).
Proof. by apply clearConversation_unknown_id_changes_nothing. Defined.

(** ** A turn works on one conversation *)

Lemma same_store_preorder : PreOrder same_store.
Proof.
  split.
  - by intros w.
  - intros w1 w2 w3 H12 H23. unfold same_store in *. congruence.
Qed.
#[global] Existing Instance same_store_preorder.

Lemma extends_preorder : PreOrder extends.
Proof.
  split.
  - by intros c.
  - intros c1 c2 c3 (? & ? & ? & ?) (? & ? & ? & ?).
    repeat split; try congruence. by etrans.
Qed.
#[global] Existing Instance extends_preorder.

Lemma idle_now (E : Env) : steady same_store (now E).
Proof. by apply steady_now. Qed.

Lemma idle_updateContext (E : Env) pageId options :
  steady same_store (updateContext E pageId options).
Proof. apply steady_updateContext; [apply _ | ..]; by intros. Qed.

Lemma idle_getContextSummary (E : Env) : steady same_store (getContextSummary E).
Proof. apply steady_getContextSummary. apply _. Qed.

Lemma idle_executeToolCalls (E : Env) toolCalls options :
  steady same_store (executeToolCalls E toolCalls options).
Proof. apply steady_executeToolCalls; [apply _ | ..]; by intros. Qed.

Lemma idle_send (E : Env) service withTools messages tools :
  steady same_store (send E service withTools messages tools).
Proof. by apply steady_send. Qed.

Lemma idle_getFollowUpResponse (E : Env) service messages tools :
  steady same_store (getFollowUpResponse E service messages tools).
Proof. apply steady_getFollowUpResponse; [apply _ | by intros]. Qed.

#[export] Hint Resolve idle_now idle_updateContext idle_getContextSummary
  idle_executeToolCalls idle_send idle_getFollowUpResponse : steady.

Lemma extends_with_message m c : extends c (with_message m c).
Proof. repeat split; try done. simpl. by apply prefix_app_r. Qed.

Lemma extends_with_lastActivity t c : extends c (with_lastActivity t c).
Proof. repeat split; done. Qed.

Lemma extends_with_currentUrl u c : extends c (with_currentUrl u c).
Proof. repeat split; done. Qed.

Lemma extends_id c c' : extends c c' → AgentConversation.id c' = AgentConversation.id c.
Proof. by intros [? _]. Qed.

Section Threads.

Context (rel : relation AgentConversation.t) `{!PreOrder rel}.

Hypothesis rel_id : ∀ c c', rel c c' → AgentConversation.id c' = AgentConversation.id c.
Hypothesis rel_message : ∀ m c, rel c (with_message m c).
Hypothesis rel_lastActivity : ∀ t c, rel c (with_lastActivity t c).

Lemma threads_mret {A : Type} c (q : A → AgentConversation.t → Prop) a :
  q a c → threads rel c q (mret a).
Proof.
  intros Hq w Hw. exists c. split; [done |]. split; [done |].
  split; [by intros ? ? |]. by intros ? [= <-].
Qed.

Lemma threads_throw {A : Type} c (q : A → AgentConversation.t → Prop) msg :
  threads rel c q (throw msg).
Proof.
  intros w Hw. exists c. split; [done |]. split; [done |].
  split; [by intros ? ? | done].
Qed.

Lemma threads_bind {A B : Type} c (p : A → AgentConversation.t → Prop)
    (q : B → AgentConversation.t → Prop) (m : M A) (k : A → M B) :
  threads rel c p m → (∀ a c', p a c' → threads rel c' q (k a)) →
  threads rel c q (bind m k).
Proof.
  intros Hm Hk w Hw. destruct (Hm w Hw) as (c1 & Hext & Hheld & Hkept & Hp).
  unfold bind. destruct (m w) as [[a|msg] w1]; simpl in *.
  - destruct (Hk a c1 (Hp a eq_refl) w1 Hheld) as (c2 & Hext2 & Hheld2 & Hkept2 & Hq).
    exists c2. split; [by etrans |]. split; [done |]. split; [| done].
    intros id' Hne. rewrite Hkept2; [by apply Hkept |].
    by rewrite (rel_id _ _ Hext).
  - exists c1. split; [done |]. split; [done |]. split; done.
Qed.

Lemma threads_idle {A : Type} c (m : M A) :
  steady same_store m → threads rel c (λ _ c', c' = c) m.
Proof.
  intros Hm w [Hwf Hget]. specialize (Hm w). unfold same_store in Hm.
  exists c. split; [done |]. unfold holds, others_kept. rewrite Hm.
  split; [done |]. split; [done |].
  intros a _. done.
Qed.

Lemma threads_put c c1 :
  rel c c1 → threads rel c (λ _ c', c' = c1) (put c1).
Proof.
  intros Hext w [Hwf Hget]. exists c1. split; [done |]. simpl.
  split; [split |]; [by apply store_set_wf | apply assoc_assign |].
  split; [| done]. intros id' Hne. apply assoc_assign_ne.
  by rewrite (rel_id _ _ Hext).
Qed.

Lemma threads_push m c : threads rel c (λ a c', a = c') (push m c).
Proof.
  unfold push. cbv zeta.
  eapply threads_bind; [apply threads_put, rel_message |].
  intros _ c' ->. by apply threads_mret.
Qed.

Lemma threads_push_exact m c :
  threads rel c (λ a c', a = c' ∧ c' = with_message m c) (push m c).
Proof.
  unfold push. cbv zeta.
  eapply threads_bind; [apply threads_put, rel_message |].
  intros _ c' ->. by apply threads_mret.
Qed.

Ltac idle_bind :=
  eapply threads_bind; [apply threads_idle; solve [steady] | intros ? ? ->].

Ltac push_bind :=
  eapply threads_bind; [apply threads_push | intros ? ? ->].

Lemma threads_push_tool_messages (E : Env) toolCalls i toolResults c :
  threads rel c (λ a c', a = c') (push_tool_messages E i toolCalls toolResults c).
Proof.
  revert i c. induction toolCalls as [|toolCall rest IH]; intros i c; simpl.
  - by apply threads_mret.
  - eapply threads_bind.
    { apply threads_idle. destruct (toolResults !! i); steady. }
    intros content ? ->. idle_bind. push_bind. apply IH.
Qed.

Lemma threads_run_tool_calls (E : Env) service tools response toolCalls options
    agentResponse c :
  threads rel c (λ a c', a.2 = c')
    (run_tool_calls E service tools response toolCalls options agentResponse c).
Proof.
  unfold run_tool_calls. idle_bind. idle_bind. push_bind.
  eapply threads_bind; [apply threads_push_tool_messages |]. intros ? ? ->.
  idle_bind. idle_bind. idle_bind. by apply threads_mret.
Qed.

Lemma threads_answer_turn (E : Env) options c context :
  threads rel c (λ _ _, True) (answer_turn E options c context).
Proof.
  unfold answer_turn. cbv zeta. idle_bind. idle_bind.
  eapply (threads_bind _ (λ a c', a.2 = c')).
  { destruct (AIResponse.toolCalls _) as [[|toolCall rest]|].
    - idle_bind. push_bind. by apply threads_mret.
    - apply threads_run_tool_calls.
    - idle_bind. push_bind. by apply threads_mret. }
  intros [agentResponse conversation] ? Heq. simpl in Heq. subst.
  idle_bind.
  eapply threads_bind; [apply threads_put, rel_lastActivity |].
  intros _ ? _. by apply threads_mret.
Qed.

Hypothesis rel_currentUrl : ∀ u c, rel c (with_currentUrl u c).
Hypothesis rel_page :
  ∀ c c', rel c c' → AgentConversation.pageId c' = AgentConversation.pageId c.

Lemma threads_hasContextChanged c context :
  threads rel c (λ a c', a.2 = c') (hasContextChanged c context).
Proof.
  unfold hasContextChanged. destruct (_ || _).
  - cbv zeta. eapply threads_bind; [apply threads_put, rel_currentUrl |].
    intros _ c' ->. by apply threads_mret.
  - by apply threads_mret.
Qed.

Lemma enters_bind {A B : Type} id pageId (p : A → AgentConversation.t → Prop)
    (q : B → AgentConversation.t → Prop) (m : M A) (k : A → M B) :
  enters rel id pageId p m → (∀ a c', p a c' → threads rel c' q (k a)) →
  enters rel id pageId q (bind m k).
Proof.
  intros Hm Hk w Hw.
  destruct (Hm w Hw) as (c1 & Hheld & Hid & Hkept & Hfrom & Hp).
  unfold bind. destruct (m w) as [[a|msg] w1]; simpl in *.
  - destruct (Hk a c1 (Hp a eq_refl) w1 Hheld) as (c2 & Hext2 & Hheld2 & Hkept2 & Hq).
    exists c2. split; [done |]. split; [by rewrite (rel_id _ _ Hext2) |].
    split; [| split; [| done]].
    + intros id' Hne. rewrite Hkept2; [by apply Hkept | by rewrite Hid].
    + destruct (store_get id (conversations w)); [by etrans |].
      by rewrite (rel_page _ _ Hext2).
  - exists c1. split; [done |]. split; [done |]. split; [done |]. split; done.
Qed.

Lemma enters_createOrGetConversation (E : Env) id pageId initialUrl :
  enters rel id pageId (λ a c', a = c') (createOrGetConversation E id pageId initialUrl).
Proof.
  intros w Hwf. unfold createOrGetConversation.
  rewrite (bind_ret (λ w0, (Ret (store_get id (conversations w0)), w0)) _ w w
             (store_get id (conversations w)) eq_refl).
  destruct (store_get id (conversations w)) as [existing|] eqn:Hget.
  - pose proof (store_get_wf _ _ _ Hwf Hget) as Hid. subst id.
    assert (Hthreads : threads rel existing (λ a c', a = c')
              (let! t := now E in
               let conversation := with_lastActivity t existing in
               put conversation;; mret conversation)).
    { cbv zeta. idle_bind.
      eapply threads_bind; [apply threads_put, rel_lastActivity |].
      intros _ ? ->. by apply threads_mret. }
    destruct (Hthreads w (conj Hwf Hget)) as (c' & Hext & Hheld & Hkept & Hq).
    exists c'. split; [exact Hheld |]. split; [exact (rel_id _ _ Hext) |].
    split; [exact Hkept |]. split; [exact Hext | exact Hq].
  - eexists. simpl.
    split; [split; [by apply store_set_wf | apply assoc_assign] |].
    split; [done |].
    split; [intros id' Hne; by apply assoc_assign_ne |].
    split; [done | by intros ? [= <-]].
Qed.

Lemma enters_open_turn (E : Env) conversationId userMessage options :
  enters rel conversationId (AgentExecutionOptions.pageId options)
    (λ a c', a.1 = c'
             ∧ ∃ t, last (AgentConversation.messages c')
                    = Some (AIMessage.mk user userMessage (Some t) None None))
    (open_turn E conversationId userMessage options).
Proof.
  unfold open_turn. cbv zeta.
  eapply enters_bind; [apply enters_createOrGetConversation |].
  intros ? conversation ->. idle_bind.
  eapply (threads_bind _ (λ a c', a.2 = c')).
  { destruct (AgentConversation.messages conversation).
    - by apply threads_mret.
    - apply threads_hasContextChanged. }
  intros [changed conversation'] ? Heq. simpl in Heq. subst.
  eapply (threads_bind _ (λ a c', a = c')).
  { destruct changed; [| by apply threads_mret]. idle_bind. apply threads_push. }
  intros ? ? ->. idle_bind.
  eapply threads_bind; [apply threads_push_exact |]. intros ? ? [-> ->].
  apply threads_mret. split; [done |]. eexists. simpl. apply last_snoc.
Qed.

Lemma enters_sendMessage_body (E : Env) conversationId userMessage options :
  enters rel conversationId (AgentExecutionOptions.pageId options) (λ _ _, True)
    (sendMessage_body E conversationId userMessage options).
Proof.
  unfold sendMessage_body.
  eapply enters_bind; [apply enters_open_turn |].
  intros [conversation context] ? [Heq _]. simpl in Heq. subst.
  apply threads_answer_turn.
Qed.

End Threads.

Lemma extends_page c c' :
  extends c c' → AgentConversation.pageId c' = AgentConversation.pageId c.
Proof. by intros (_ & ? & _). Qed.

Lemma open_turn_extends (E : Env) conversationId userMessage options :
  enters extends conversationId (AgentExecutionOptions.pageId options)
    (λ a c', a.1 = c'
             ∧ ∃ t, last (AgentConversation.messages c')
                    = Some (AIMessage.mk user userMessage (Some t) None None))
    (open_turn E conversationId userMessage options).
Proof.
  apply enters_open_turn;
    auto using extends_id, extends_page, extends_with_message, extends_with_lastActivity,
      extends_with_currentUrl with typeclass_instances.
Qed.

Lemma sendMessage_body_extends (E : Env) conversationId userMessage options :
  enters extends conversationId (AgentExecutionOptions.pageId options) (λ _ _, True)
    (sendMessage_body E conversationId userMessage options).
Proof.
  apply enters_sendMessage_body;
    auto using extends_id, extends_page, extends_with_message, extends_with_lastActivity,
      extends_with_currentUrl with typeclass_instances.
Qed.

Lemma try_catch_mret_world {A : Type} (m : M A) (f : string → A) w :
  (try_catch m (λ msg, mret (f msg)) w).2 = (m w).2.
Proof. unfold try_catch. by destruct (m w) as [[a|msg] w1]. Qed.

(** X20: a turn works on its own conversation only.  On a store with one
    entry per id, after [sendMessage] for the id [conversationId] (whether
    the turn succeeds or ends in the error response) the store still has one
    entry per id, every other conversation is found exactly as before, and
    the conversation of the turn is found under its id; if it existed
    before, it keeps its id, page and creation time and the messages it had
    are the first of the messages it has now (nothing is rewritten or
    dropped); if it is new, its page is the page of the turn. *)
Theorem turn_confined_to_its_conversation (E : Env) conversationId userMessage options w :
  store_wf (conversations w) →
  ∃ response w',
    sendMessage E conversationId userMessage options w = (Ret response, w') ∧
    store_wf (conversations w') ∧
    (∀ id', id' ≠ conversationId →
            store_get id' (conversations w') = store_get id' (conversations w)) ∧
    ∃ conversation,
      getConversation conversationId w' = (Ret (Some conversation), w') ∧
      AgentConversation.id conversation = conversationId ∧
      match store_get conversationId (conversations w) with
      | Some before =>
          AgentConversation.pageId conversation = AgentConversation.pageId before ∧
          AgentConversation.createdAt conversation = AgentConversation.createdAt before ∧
          AgentConversation.messages before
            `prefix_of` AgentConversation.messages conversation
      | None =>
          AgentConversation.pageId conversation = AgentExecutionOptions.pageId options
      end.
Proof.
  intros Hwf.
  destruct (sendMessage_body_extends E conversationId userMessage options w Hwf)
    as (c' & [Hwf' Hget] & Hid & Hkept & Hfrom & _).
  assert (Hworld : (sendMessage E conversationId userMessage options w).2
                   = (sendMessage_body E conversationId userMessage options w).2)
    by apply try_catch_mret_world.
  assert (Hret : ∃ response,
             (sendMessage E conversationId userMessage options w).1 = Ret response).
  { unfold sendMessage, try_catch.
    destruct (sendMessage_body E conversationId userMessage options w) as [[a|msg] w1];
      by eexists. }
  destruct Hret as [response Hret].
  destruct (sendMessage E conversationId userMessage options w) as [o w'] eqn:Hrun.
  simpl in Hworld, Hret. subst o w'.
  exists response, (sendMessage_body E conversationId userMessage options w).2.
  split; [done |]. split; [done |]. split; [exact Hkept |].
  exists c'. unfold getConversation. rewrite <- Hid at 1. rewrite Hget.
  split; [done |]. split; [done |].
  destruct (store_get conversationId (conversations w)) as [before|]; [| done].
  destruct Hfrom as (_ & ? & ? & ?). done.
Qed.

Lemma turn_confined_to_its_conversation_witness :
  ∃ response w',
    sendMessage batch_env "b" "open the page" confirmed_options busy_world
    = (Ret response, w') ∧
    store_get "a" (conversations w') = store_get "a" (conversations busy_world).
Proof.
  destruct (turn_confined_to_its_conversation batch_env "b" "open the page"
              confirmed_options busy_world busy_world_wf)
    as (response & w' & Hrun & _ & Hkept & _).
  exists response, w'. split; [exact Hrun |]. by apply Hkept.
Defined.

(** ** What a tool call and a turn add to the trace *)

Lemma appends_preorder allowed : PreOrder (appends allowed).
Proof.
  split.
  - intros w. exists []. by rewrite app_nil_r.
  - intros w1 w2 w3 (ev1 & H1 & Hev1) (ev2 & H2 & Hev2).
    exists (ev1 ++ ev2). rewrite H2, H1, <- (assoc_L (++)).
    split; [done | by apply Forall_app].
Qed.
#[global] Existing Instance appends_preorder.

Lemma appends_log allowed e w : allowed e → appends allowed w (log e w).
Proof. intros He. exists [e]. split; [done | by apply Forall_singleton]. Qed.

Lemma appends_same allowed w w' : trace w' = trace w → appends allowed w w'.
Proof. intros Hsame. exists []. by rewrite app_nil_r. Qed.

Section AppendsTurn.

Context (allowed : Event → Prop) (E : Env) (options : AgentExecutionOptions.t).

Hypothesis may_send :
  ∀ service withTools messages tools, allowed (EvSend service withTools messages tools).
Hypothesis tools_append :
  ∀ toolCall, steady (appends allowed) (executeTool E toolCall (execution_options options)).
Hypothesis context_appends :
  ∀ o, steady (appends allowed)
         (updateContext E (AgentExecutionOptions.pageId options) o).

Lemma appends_sendMessage conversationId userMessage :
  steady (appends allowed) (sendMessage E conversationId userMessage options).
Proof.
  apply turn_sendMessage; [apply _ | ..]; try done.
  - intros w. by apply appends_same.
  - intros cs w. by apply appends_same.
  - intros service withTools messages tools w. apply appends_log, may_send.
Qed.

End AppendsTurn.

Lemma appends_on_page_executeTool (E : Env) toolCall options :
  steady (appends (on_page (ToolExecutionOptions.pageId options)))
    (executeTool E toolCall options).
Proof.
  apply (reach_executeTool _ (on_page (ToolExecutionOptions.pageId options)) E
           (ToolExecutionOptions.pageId options)); try done.
  - intros e w He. by apply appends_log.
  - intros w. by apply appends_same.
  - intros w. by apply appends_same.
  - intros context w. by apply appends_same.
Qed.

Lemma appends_on_page_updateContext (E : Env) pageId options :
  steady (appends (on_page pageId)) (updateContext E pageId options).
Proof.
  apply (reach_updateContext _ (on_page pageId)); try done.
  - intros e w He. by apply appends_log.
  - intros w. by apply appends_same.
  - intros context w. by apply appends_same.
Qed.

(** X21: a tool call and a turn reach only their own page.  Whatever the
    tool, its arguments and the answers of the backend, every method
    [executeTool] or [sendMessage] calls on a page is called on the page
    named in the options; what was in the trace before stays in front. *)
Theorem calls_reach_only_their_page (E : Env) :
  (∀ toolCall options w,
     ∃ events,
       trace (executeTool E toolCall options w).2 = trace w ++ events ∧
       ∀ pageId c, EvPage pageId c ∈ events →
                   pageId = ToolExecutionOptions.pageId options) ∧
  (∀ conversationId userMessage options w,
     ∃ events,
       trace (sendMessage E conversationId userMessage options w).2
       = trace w ++ events ∧
       ∀ pageId c, EvPage pageId c ∈ events →
                   pageId = AgentExecutionOptions.pageId options).
Proof.
  split.
  - intros toolCall options w.
    destruct (appends_on_page_executeTool E toolCall options w) as (events & Htrace & Hev).
    exists events. split; [done |]. intros pageId c Hin.
    rewrite Forall_forall in Hev. exact (Hev _ Hin).
  - intros conversationId userMessage options w.
    destruct (appends_sendMessage (on_page (AgentExecutionOptions.pageId options)) E
                options (λ _ _ _ _, I)
                (λ toolCall,
                   appends_on_page_executeTool E toolCall (execution_options options))
                (appends_on_page_updateContext E (AgentExecutionOptions.pageId options))
                conversationId userMessage w) as (events & Htrace & Hev).
    exists events. split; [done |]. intros pageId c Hin.
    rewrite Forall_forall in Hev. exact (Hev _ Hin).
Qed.

Lemma appends_unconfirmed_executeTool (E : Env) toolCall options :
  flag (ToolExecutionOptions.autoConfirm options) = false →
  ToolExecutionOptions.safetyLevel options = None →
  steady (appends (unconfirmed_event (ToolExecutionOptions.pageId options)))
    (executeTool E toolCall options).
Proof.
  intros Hconfirm Hgranted.
  apply (reach_executeTool_unconfirmed _
           (unconfirmed_event (ToolExecutionOptions.pageId options)) E
           (ToolExecutionOptions.pageId options)); try done.
  - intros e w He. by apply appends_log.
  - intros w. by apply appends_same.
  - intros w. by apply appends_same.
  - intros context w. by apply appends_same.
Qed.

Lemma appends_unconfirmed_updateContext (E : Env) pageId options :
  steady (appends (unconfirmed_event pageId)) (updateContext E pageId options).
Proof.
  apply (reach_updateContext _ (unconfirmed_event pageId)); try done.
  - intros e w He. by apply appends_log.
  - intros w. by apply appends_same.
  - intros context w. by apply appends_same.
Qed.

Lemma evaluateScript_logged (E : Env) pageId script w :
  pageId ∈ pages w →
  ∃ r, evaluateScript E pageId script w
       = (Ret r, log (EvPage pageId (Evaluate script)) w).
Proof.
  intros Hin. unfold evaluateScript.
  erewrite bind_ret by by apply has_page_present. simpl.
  unfold try_catch, bind, page_do, mret.
  destruct (page_call E (trace w) pageId (Evaluate script)); by eexists.
Qed.

(** X22: without [autoConfirm] and without a granted level, the methods a
    tool call and a whole turn call on the page are [goto], [url], [title],
    [screenshot] and [evaluate], the latter with the scripts of the context
    probes and the templates of the read tools only: no [click], no typing,
    no key press, no wait for a selector, no scroll, and never the script of
    [evaluate_script].  This bounds the methods and the templates, not what
    an evaluated text does: the selector of [extract_text] (like the filter
    of [extract_links] and the selector and timeout of [wait_for_element])
    is spliced into the template unescaped, and whatever string the call
    carries as selector reaches [evaluate] inside the template, unconfirmed. *)
Theorem unconfirmed_calls_stay_in_templates (E : Env) :
  (∀ toolCall options w,
     flag (ToolExecutionOptions.autoConfirm options) = false →
     ToolExecutionOptions.safetyLevel options = None →
     ∃ events,
       trace (executeTool E toolCall options w).2 = trace w ++ events ∧
       ∀ pageId c, EvPage pageId c ∈ events → unconfirmed_call c = true) ∧
  (∀ conversationId userMessage options w,
     flag (AgentExecutionOptions.autoConfirm options) = false →
     AgentExecutionOptions.safetyLevel options = None →
     ∃ events,
       trace (sendMessage E conversationId userMessage options w).2
       = trace w ++ events ∧
       ∀ pageId c, EvPage pageId c ∈ events → unconfirmed_call c = true) ∧
  (∀ id selector options w,
     flag (ToolExecutionOptions.autoConfirm options) = false →
     ToolExecutionOptions.safetyLevel options = None →
     selector ≠ "" →
     ready w = true →
     ToolExecutionOptions.pageId options ∈ pages w →
     EvPage (ToolExecutionOptions.pageId options) (Evaluate (SExtractText (VStr selector)))
     ∈ trace (executeTool E
                (BrowserToolCall.mk id "extract_text" [("selector", VStr selector)])
                options w).2).
Proof.
  split; [| split].
  - intros toolCall options w Hconfirm Hgranted.
    destruct (appends_unconfirmed_executeTool E toolCall options Hconfirm Hgranted w)
      as (events & Htrace & Hev).
    exists events. split; [done |]. intros pageId c Hin.
    rewrite Forall_forall in Hev. by destruct (Hev _ Hin).
  - intros conversationId userMessage options w Hconfirm Hgranted.
    destruct (appends_sendMessage (unconfirmed_event (AgentExecutionOptions.pageId options)) E
                options (λ _ _ _ _, I)
                (λ toolCall,
                   appends_unconfirmed_executeTool E toolCall (execution_options options)
                     Hconfirm Hgranted)
                (appends_unconfirmed_updateContext E (AgentExecutionOptions.pageId options))
                conversationId userMessage w) as (events & Htrace & Hev).
    exists events. split; [done |]. intros pageId c Hin.
    rewrite Forall_forall in Hev. by destruct (Hev _ Hin).
  - intros id selector options w Hconfirm Hgranted Hselector Hready Hpage.
    set (toolCall := BrowserToolCall.mk id "extract_text" [("selector", VStr selector)]).
    pose proof (executeTool_on_ready E toolCall options w) as Hrun.
    unfold carried_out in Hrun.
    destruct (evaluateScript_logged E (ToolExecutionOptions.pageId options)
                (SExtractText (VStr selector)) w Hpage) as [r Hr].
    assert (Htruthy : Js.truthy (VStr selector) = true).
    { simpl. by rewrite (proj2 (String.eqb_neq _ _) Hselector). }
    assert (Hdispatch : ∃ result,
              dispatch E toolCall options w
              = (Ret result,
                 log (EvPage (ToolExecutionOptions.pageId options)
                        (Evaluate (SExtractText (VStr selector)))) w)).
    { unfold dispatch, toolCall. simpl. unfold executeExtractText, arg. simpl.
      rewrite (proj2 (String.eqb_neq _ _) Hselector). simpl.
      erewrite bind_ret by exact Hr. by eexists. }
    destruct Hdispatch as [result Hdispatch]. rewrite Hdispatch in Hrun.
    destruct Hrun as [_ Hgrows]; [by unfold canExecuteTool; rewrite Hconfirm | done |].
    destruct Hgrows as [rest Hrest]. rewrite Hrest. simpl. set_solver.
Qed.

Lemma unconfirmed_calls_stay_in_templates_witness :
  (∃ events,
     trace (sendMessage batch_env "conversation-1" "open the page" unconfirmed_options
              ready_world).2 = trace ready_world ++ events ∧
     ∀ pageId c, EvPage pageId c ∈ events → unconfirmed_call c = true) ∧
  EvPage "page-1" (Evaluate (SExtractText (VStr "'); document.title = 'x'; ('")))
  ∈ trace (executeTool plain_env
             (BrowserToolCall.mk "call-1" "extract_text"
                [("selector", VStr "'); document.title = 'x'; ('")])
             (ToolExecutionOptions.mk "page-1" None None None) ready_world).2.
Proof.
  destruct (unconfirmed_calls_stay_in_templates batch_env) as (_ & Hturn & _).
  destruct (unconfirmed_calls_stay_in_templates plain_env) as (_ & _ & Hsplice).
  split; [apply Hturn; reflexivity |].
  apply (Hsplice "call-1" "'); document.title = 'x'; ('"
           (ToolExecutionOptions.mk "page-1" None None None) ready_world).
  - reflexivity.
  - reflexivity.
  - discriminate.
  - reflexivity.
  - by vm_compute.
Defined.

(** ** What a turn answers *)

Lemma total_sendMessage (E : Env) conversationId userMessage options :
  total (sendMessage E conversationId userMessage options).
Proof. apply total_try_catch. intros msg. apply total_mret. Qed.

Lemma extractContext_no_screenshot (E : Env) pageId options :
  flag (includeScreenshot options) = false →
  yields (λ c, BrowserContext.screenshot c = VUndef) (extractContext E pageId options).
Proof.
  intros Hflag. unfold extractContext. apply yields_try_catch.
  - unfold extract_body. rewrite Hflag. cbv zeta.
    do 6 (apply yields_bind_any; intros ?).
    apply (yields_bind (λ s, s = VUndef)); [by apply yields_mret |].
    intros ? ->. repeat (apply yields_bind_any; intros ?). by apply yields_mret.
  - intros msg. unfold minimal_context. apply yields_bind_any. intros t.
    by apply yields_mret.
Qed.

Lemma updateContext_no_screenshot (E : Env) pageId options :
  flag (includeScreenshot options) = false →
  yields (λ c, BrowserContext.screenshot c = VUndef) (updateContext E pageId options).
Proof.
  intros Hflag. unfold updateContext.
  eapply yields_bind; [by apply extractContext_no_screenshot |].
  intros c Hc. apply yields_bind_any. intros _. by apply yields_mret.
Qed.

Lemma open_turn_no_screenshot (E : Env) conversationId userMessage options :
  yields (λ a, BrowserContext.screenshot a.2 = VUndef)
    (open_turn E conversationId userMessage options).
Proof.
  unfold open_turn. cbv zeta. apply yields_bind_any. intros conversation.
  eapply yields_bind; [by apply updateContext_no_screenshot |].
  intros context Hcontext.
  apply yields_bind_any. intros [changed conversation'].
  do 3 (apply yields_bind_any; intros ?). by apply yields_mret.
Qed.

Lemma run_tool_calls_keeps_screenshot (E : Env) service tools response toolCalls options
    agentResponse conversation :
  yields (λ a, AgentResponse.screenshot a.1 = AgentResponse.screenshot agentResponse)
    (run_tool_calls E service tools response toolCalls options agentResponse conversation).
Proof.
  unfold run_tool_calls. repeat (apply yields_bind_any; intros ?). by apply yields_mret.
Qed.

Lemma answer_turn_no_screenshot (E : Env) options conversation context :
  BrowserContext.screenshot context = VUndef →
  yields (λ r, AgentResponse.screenshot r = VUndef)
    (answer_turn E options conversation context).
Proof.
  intros Hcontext. unfold answer_turn. cbv zeta.
  do 2 (apply yields_bind_any; intros ?).
  apply (yields_bind (λ a, AgentResponse.screenshot a.1 = VUndef)).
  - assert (Hnone : (if flag (AgentExecutionOptions.includeScreenshot options)
                     then BrowserContext.screenshot context else VUndef) = VUndef)
      by (rewrite Hcontext; by destruct (flag _)).
    destruct (AIResponse.toolCalls _) as [[|toolCall rest]|].
    + do 2 (apply yields_bind_any; intros ?). by apply yields_mret.
    + intros w [agentResponse conversation'] w' Hrun.
      apply run_tool_calls_keeps_screenshot in Hrun. simpl in *. by rewrite Hrun.
    + do 2 (apply yields_bind_any; intros ?). by apply yields_mret.
  - intros [agentResponse conversation'] Hshot.
    do 2 (apply yields_bind_any; intros ?). by apply yields_mret.
Qed.

(** X23: the response of a turn never carries a screenshot, whether
    [includeScreenshot] is set or not: the snapshot a turn starts from is
    extracted without the screenshot option, so there is none to hand on.
    ([sendMessage] always returns a response.) *)
Theorem turn_response_never_carries_screenshot (E : Env) conversationId userMessage
    options w :
  ∃ response w',
    sendMessage E conversationId userMessage options w = (Ret response, w') ∧
    AgentResponse.screenshot response = VUndef.
Proof.
  apply total_yields; [apply total_sendMessage |].
  unfold sendMessage. apply yields_try_catch.
  - unfold sendMessage_body.
    eapply yields_bind; [apply open_turn_no_screenshot |].
    intros [conversation context] Hcontext. by apply answer_turn_no_screenshot.
  - intros msg. by apply yields_mret.
Qed.

Lemma total_put conversation : total (put conversation).
Proof. intros w. by eexists _, _. Qed.

Lemma total_push m conversation : total (push m conversation).
Proof.
  unfold push. cbv zeta. apply total_bind; [apply total_put |].
  intros _. apply total_mret.
Qed.

Lemma total_createOrGetConversation (E : Env) id pageId initialUrl :
  total (createOrGetConversation E id pageId initialUrl).
Proof.
  unfold createOrGetConversation. apply total_bind; [intros w; by eexists _, _ |].
  intros [existing|].
  - apply total_bind; [apply total_now |]. intros t. cbv zeta.
    apply total_bind; [apply total_put |]. intros _. apply total_mret.
  - apply total_bind; [apply total_now |]. intros created.
    apply total_bind; [apply total_now |]. intros active. cbv zeta.
    apply total_bind; [intros w; by eexists _, _ |]. intros _. apply total_mret.
Qed.

Lemma total_hasContextChanged conversation context :
  total (hasContextChanged conversation context).
Proof.
  unfold hasContextChanged. destruct (_ || _); [| apply total_mret].
  cbv zeta. apply total_bind; [apply total_put |]. intros _. apply total_mret.
Qed.

Lemma total_open_turn (E : Env) conversationId userMessage options :
  total (open_turn E conversationId userMessage options).
Proof.
  unfold open_turn. cbv zeta.
  apply total_bind; [apply total_createOrGetConversation |]. intros conversation.
  apply total_bind; [apply total_updateContext |]. intros context.
  apply total_bind.
  { destruct (AgentConversation.messages conversation);
      [apply total_mret | apply total_hasContextChanged]. }
  intros [changed conversation'].
  apply total_bind.
  { destruct changed; [| apply total_mret].
    apply total_bind; [apply total_now |]. intros t. apply total_push. }
  intros conversation''.
  apply total_bind; [apply total_now |]. intros t.
  apply total_bind; [apply total_push |]. intros ?. apply total_mret.
Qed.

Lemma answer_turn_unavailable (E : Env) options conversation context w :
  service_available E (AgentExecutionOptions.serviceType options) = false →
  answer_turn E options conversation context w
  = (Throw ("AI service " +:+ service_name (AgentExecutionOptions.serviceType options)
            +:+ " is not available"), w).
Proof. intros Hoff. unfold answer_turn, bind. by rewrite Hoff. Qed.

Lemma answer_turn_refused (E : Env) options conversation context w reason :
  service_available E (AgentExecutionOptions.serviceType options) = true →
  (∀ tr withTools messages,
     backend E tr (AgentExecutionOptions.serviceType options) withTools messages
     = Throw reason) →
  ∃ w', answer_turn E options conversation context w = (Throw reason, w')
        ∧ conversations w' = conversations w.
Proof.
  intros Hon Hraise. eexists. unfold answer_turn, bind, send. rewrite Hon. simpl.
  rewrite Hraise. split; reflexivity.
Qed.

(** X24: a turn that cannot reach its backend answers with the error
    response and keeps the user's message.  When no service of the
    requested type is configured, or when the service raises on every
    request, [sendMessage] returns ["I encountered an error: <reason>.
    Please try again."] with no tool results, where the reason is ["AI
    service <type> is not available"] or the message the service raised;
    the conversation is stored under its id and its last message is the
    user's message. *)
Theorem failed_turn_keeps_user_message (E : Env) conversationId userMessage options w
    reason :
  store_wf (conversations w) →
  (if service_available E (AgentExecutionOptions.serviceType options)
   then ∀ tr withTools messages,
          backend E tr (AgentExecutionOptions.serviceType options) withTools messages
          = Throw reason
   else reason = "AI service "
                 +:+ service_name (AgentExecutionOptions.serviceType options)
                 +:+ " is not available") →
  ∃ w' conversation t,
    sendMessage E conversationId userMessage options w
    = (Ret (error_response reason), w') ∧
    getConversation conversationId w' = (Ret (Some conversation), w') ∧
    last (AgentConversation.messages conversation)
    = Some (AIMessage.mk user userMessage (Some t) None None).
Proof.
  intros Hwf Hfail.
  destruct (total_open_turn E conversationId userMessage options w)
    as ([conversation context] & w1 & Hopen).
  destruct (open_turn_extends E conversationId userMessage options w Hwf)
    as (c' & [_ Hget] & Hid & _ & _ & Hq).
  rewrite Hopen in Hget, Hq. simpl in Hget.
  destruct (Hq _ eq_refl) as [Heq [t Hlast]]. simpl in Heq. subst c'.
  assert (Hthrow : ∃ w', answer_turn E options conversation context w1 = (Throw reason, w')
                         ∧ conversations w' = conversations w1).
  { destruct (service_available E _) eqn:Havailable.
    - by apply answer_turn_refused.
    - subst reason. exists w1. split; [by apply answer_turn_unavailable | done]. }
  destruct Hthrow as (w' & Hthrow & Hstore).
  exists w', conversation, t. split; [| split; [| exact Hlast]].
  - unfold sendMessage, try_catch, sendMessage_body.
    erewrite bind_ret by exact Hopen. cbv beta iota. by rewrite Hthrow.
  - unfold getConversation. by rewrite Hstore, <- Hid, Hget.
Qed.

Lemma failed_turn_keeps_user_message_witness :
  ∃ w',
    sendMessage offline_env "conversation-1" "open the page" confirmed_options
      ready_world
    = (Ret (error_response "AI service openai is not available"), w').
Proof.
  destruct (failed_turn_keeps_user_message offline_env "conversation-1" "open the page"
              confirmed_options ready_world "AI service openai is not available")
    as (w' & _ & _ & Hrun & _).
  - split; [constructor | by intros ? ? ?%elem_of_nil].
  - reflexivity.
  - by exists w'.
Defined.

Lemma open_turn_sends_nothing (E : Env) conversationId userMessage options w :
  sends (trace (open_turn E conversationId userMessage options w).2) = sends (trace w).
Proof.
  assert (Hturn : steady (appends (λ e, is_send e = false))
                    (open_turn E conversationId userMessage options)).
  { apply turn_open_turn; [apply _ | ..].
    - intros w0. by apply appends_same.
    - intros cs w0. by apply appends_same.
    - intros o.
      apply (reach_updateContext _ (λ e, is_send e = false)); try done.
      + intros e w0 He. by apply appends_log.
      + intros w0. by apply appends_same.
      + intros context w0. by apply appends_same. }
  destruct (Hturn w) as (events & -> & Hev).
  unfold sends. rewrite filter_app.
  assert (Hnone : filter (λ e, is_send e) events = []).
  { clear -Hev. induction Hev as [|e events He _ IH]; [done |].
    rewrite filter_cons. destruct (decide (is_send e)) as [Hs|_]; [| exact IH].
    rewrite He in Hs. done. }
  by rewrite Hnone, app_nil_r.
Qed.

(** X25: a turn the backend answers without tool calls.  When the service
    is configured and answers every request with a response that carries no
    tool call (none, or an empty list), [sendMessage] returns the text of
    the response, or the placeholder when the text is empty, with no tool
    results and no context update.  Exactly one request is made; it carries
    the messages of the conversation up to and including the user's
    message.  The conversation then ends with the user's message followed
    by the assistant's message, which has the text of the response and no
    tool calls. *)
Theorem plain_turn_answers_once (E : Env) conversationId userMessage options w response :
  store_wf (conversations w) →
  service_available E (AgentExecutionOptions.serviceType options) = true →
  (∀ tr withTools messages,
     backend E tr (AgentExecutionOptions.serviceType options) withTools messages
     = Ret response) →
  AIResponse.toolCalls response = None ∨ AIResponse.toolCalls response = Some [] →
  ∃ result w' conversation earlier t t',
    sendMessage E conversationId userMessage options w = (Ret result, w') ∧
    AgentResponse.message result = Js.or_str (AIResponse.content response) placeholder ∧
    AgentResponse.toolResults result = [] ∧
    AgentResponse.contextUpdate result = None ∧
    getConversation conversationId w' = (Ret (Some conversation), w') ∧
    AgentConversation.messages conversation
    = earlier
      ++ [ AIMessage.mk user userMessage (Some t) None None;
           AIMessage.mk assistant (AIResponse.content response) (Some t') None None ] ∧
    sends (trace w')
    = sends (trace w)
      ++ [ EvSend (AgentExecutionOptions.serviceType options)
             (asks_with_tools E (AgentExecutionOptions.serviceType options))
             (earlier ++ [AIMessage.mk user userMessage (Some t) None None])
             (if asks_with_tools E (AgentExecutionOptions.serviceType options)
              then offered_tools E (AgentExecutionOptions.serviceType options)
              else []) ].
Proof.
  intros Hwf Hon Hbackend Hplain.
  destruct (total_open_turn E conversationId userMessage options w)
    as ([conversation context] & w1 & Hopen).
  destruct (open_turn_extends E conversationId userMessage options w Hwf)
    as (c' & [Hwf1 Hget] & Hid & _ & _ & Hq).
  pose proof (open_turn_sends_nothing E conversationId userMessage options w) as Hsends.
  rewrite Hopen in Hwf1, Hget, Hq, Hsends. simpl in Hwf1, Hget, Hsends.
  destruct (Hq _ eq_refl) as [Heq [t Hlast]]. simpl in Heq. subst c'.
  assert (Hearlier : ∃ earlier,
            AgentConversation.messages conversation
            = earlier ++ [AIMessage.mk user userMessage (Some t) None None]).
  { destruct (AgentConversation.messages conversation) as [|m l] using rev_ind;
      [done |].
    rewrite last_snoc in Hlast. injection Hlast as ->. by exists l. }
  destruct Hearlier as [earlier Hearlier].
  eexists _, _, _, earlier, t, _. split.
  { unfold sendMessage, sendMessage_body. apply try_catch_ret.
    erewrite bind_ret by exact Hopen. cbv beta iota.
    unfold answer_turn. cbv zeta. rewrite Hon.
    erewrite bind_ret by reflexivity.
    erewrite bind_ret; [| unfold send; rewrite Hbackend; reflexivity].
    assert (Hbranch :
      ∀ (k : AgentResponse.t * AgentConversation.t → M AgentResponse.t) agentResponse
        w0,
        bind
          match AIResponse.toolCalls response with
          | Some (toolCall :: rest) =>
              run_tool_calls E (AgentExecutionOptions.serviceType options)
                (offered_tools E (AgentExecutionOptions.serviceType options)) response
                (toolCall :: rest) options agentResponse conversation
          | _ =>
              let! t0 := now E in
              let! conversation0 :=
                push (AIMessage.mk assistant (Js.or_str (AIResponse.content response) "")
                        (Some t0) None None) conversation in
              mret (agentResponse, conversation0)
          end k w0
        = k (agentResponse,
             with_message
               (AIMessage.mk assistant (Js.or_str (AIResponse.content response) "")
                  (Some (clock E (ticks w0))) None None) conversation)
            (set_conversations
               (store_set (AgentConversation.id conversation)
                  (with_message
                     (AIMessage.mk assistant (Js.or_str (AIResponse.content response) "")
                        (Some (clock E (ticks w0))) None None) conversation)
                  (conversations (tick w0))) (tick w0))).
    { intros k agentResponse w0. by destruct Hplain as [-> | ->]. }
    rewrite Hbranch. reflexivity. }
  simpl. rewrite or_str_empty, Hid.
  split; [done |]. split; [done |]. split; [done |].
  split; [| split].
  - unfold getConversation. f_equal. f_equal.
    unfold store_get, store_set. cbn [conversations set_conversations].
    apply assoc_assign.
  - simpl. rewrite Hearlier, <- (assoc_L (++)). reflexivity.
  - rewrite Hearlier. unfold sends. rewrite filter_app. fold (sends (trace w1)).
    by rewrite Hsends.
Qed.

Lemma plain_turn_answers_once_witness :
  ∃ result w',
    sendMessage plain_env "conversation-1" "hello" confirmed_options ready_world
    = (Ret result, w') ∧
    AgentResponse.message result = placeholder.
Proof.
  destruct (plain_turn_answers_once plain_env "conversation-1" "hello" confirmed_options
              ready_world (AIResponse.mk "" None))
    as (result & w' & _ & _ & _ & _ & Hrun & Hmessage & _).
  - split; [constructor | by intros ? ? ?%elem_of_nil].
  - reflexivity.
  - reflexivity.
  - by left.
  - by exists result, w'.
Defined.

(** ** When a turn repeats the system prompt *)

Lemma bind_inv {A B : Type} (m : M A) (k : A → M B) w b w' :
  bind m k w = (Ret b, w') → ∃ a w1, m w = (Ret a, w1) ∧ k a w1 = (Ret b, w').
Proof.
  unfold bind. destruct (m w) as [[a|msg] w1]; [| done]. intros H. by exists a, w1.
Qed.

Lemma extends_in_place_preorder : PreOrder extends_in_place.
Proof.
  split.
  - by intros c.
  - intros c1 c2 c3 [H12 Hu12] [H23 Hu23]. split; [by etrans | congruence].
Qed.
#[global] Existing Instance extends_in_place_preorder.

Lemma answer_turn_in_place (E : Env) options c context :
  threads extends_in_place c (λ _ _, True) (answer_turn E options c context).
Proof.
  apply threads_answer_turn; [apply _ | ..].
  - intros ? ? [[? _] _]. done.
  - intros m c0. split; [apply extends_with_message | done].
  - intros t c0. split; [apply extends_with_lastActivity | done].
Qed.

(** The conversation a turn starts from, as [createOrGetConversation]
    returns it. *)
Lemma createOrGetConversation_returns (E : Env) id pageId initialUrl w c w' :
  createOrGetConversation E id pageId initialUrl w = (Ret c, w') →
  match store_get id (conversations w) with
  | Some before =>
      AgentConversation.messages c = AgentConversation.messages before ∧
      AgentConversation.currentUrl c = AgentConversation.currentUrl before
  | None =>
      AgentConversation.messages c = [] ∧ AgentConversation.currentUrl c = initialUrl
  end.
Proof.
  unfold createOrGetConversation.
  rewrite (bind_ret (λ w0, (Ret (store_get id (conversations w0)), w0)) _ w w
             (store_get id (conversations w)) eq_refl).
  destruct (store_get id (conversations w)) as [before|]; intros [= <- _]; done.
Qed.

(** The messages of the conversation [open_turn] returns: the system
    prompt is added when the conversation had no message, or no url, or
    another url than the snapshot's. *)
Lemma open_turn_returns (E : Env) conversationId userMessage options w conversation
    context w1 :
  open_turn E conversationId userMessage options w = (Ret (conversation, context), w1) →
  ∃ before url t t',
    match store_get conversationId (conversations w) with
    | Some c =>
        before = AgentConversation.messages c ∧ url = AgentConversation.currentUrl c
    | None => before = [] ∧ url = VUndef
    end ∧
    AgentConversation.messages conversation
    = before
      ++ (if bool_decide (before = []) || negb (Js.truthy url)
             || negb (Js.strict_eq url (BrowserContext.currentUrl context))
          then [AIMessage.mk system (contextual_prompt E context) (Some t) None None]
          else [])
      ++ [AIMessage.mk user userMessage (Some t') None None] ∧
    (before = [] → AgentConversation.currentUrl conversation = url).
Proof.
  unfold open_turn. cbv zeta. intros Hrun.
  apply bind_inv in Hrun as (conv0 & w0 & Hcreate & Hrun).
  apply createOrGetConversation_returns in Hcreate.
  apply bind_inv in Hrun as (context' & w0' & _ & Hrun).
  apply bind_inv in Hrun as ([changed conv1] & w2 & Hchanged & Hrun).
  apply bind_inv in Hrun as (conv2 & w3 & Hsys & Hrun).
  apply bind_inv in Hrun as (t' & w4 & _ & Hrun).
  apply bind_inv in Hrun as (conv3 & w5 & Hpush & Hrun).
  injection Hrun as <- <- <-. injection Hpush as <- _.
  exists (AgentConversation.messages conv0), (AgentConversation.currentUrl conv0).
  assert (Hstep :
    changed = bool_decide (AgentConversation.messages conv0 = [])
              || negb (Js.truthy (AgentConversation.currentUrl conv0))
              || negb (Js.strict_eq (AgentConversation.currentUrl conv0)
                         (BrowserContext.currentUrl context'))
    ∧ AgentConversation.messages conv1 = AgentConversation.messages conv0
    ∧ (AgentConversation.messages conv0 = [] →
       AgentConversation.currentUrl conv1 = AgentConversation.currentUrl conv0)).
  { destruct (AgentConversation.messages conv0) as [|m0 l0] eqn:Hm0.
    - injection Hchanged as <- <- _. by rewrite Hm0.
    - unfold hasContextChanged in Hchanged. simpl.
      destruct (_ || _); injection Hchanged as <- <- _; by rewrite ?Hm0. }
  destruct Hstep as (-> & Hm1 & Hu1).
  assert (Hprompt : ∃ t,
    AgentConversation.messages conv2
    = AgentConversation.messages conv1
      ++ (if bool_decide (AgentConversation.messages conv0 = [])
             || negb (Js.truthy (AgentConversation.currentUrl conv0))
             || negb (Js.strict_eq (AgentConversation.currentUrl conv0)
                        (BrowserContext.currentUrl context'))
          then [AIMessage.mk system (contextual_prompt E context') (Some t) None None]
          else [])
    ∧ AgentConversation.currentUrl conv2 = AgentConversation.currentUrl conv1).
  { destruct (_ || _).
    - apply bind_inv in Hsys as (t & w2' & _ & Hsys). injection Hsys as <- _.
      by exists t.
    - injection Hsys as <- _. exists 0. by rewrite app_nil_r. }
  destruct Hprompt as (t & Hm2 & Hu2).
  exists t, t'. split.
  { destruct (store_get conversationId (conversations w)) as [c|];
      destruct Hcreate as [-> ->]; done. }
  split.
  - simpl. rewrite Hm2, Hm1, <- (assoc_L (++)). reflexivity.
  - intros Hnil. simpl. rewrite Hu2. by apply Hu1.
Qed.

Lemma sendMessage_from_open_turn (E : Env) conversationId userMessage options w
    conversation context w1 :
  open_turn E conversationId userMessage options w = (Ret (conversation, context), w1) →
  (sendMessage E conversationId userMessage options w).2
  = (answer_turn E options conversation context w1).2.
Proof.
  intros Hopen. unfold sendMessage. rewrite try_catch_mret_world.
  unfold sendMessage_body. by erewrite bind_ret by exact Hopen.
Qed.

(** One turn, from a store that is well formed: where it leaves the
    conversation. *)
Lemma turn_leaves (E : Env) conversationId userMessage options w :
  store_wf (conversations w) →
  ∃ opened context final,
    (∃ w1, open_turn E conversationId userMessage options w
           = (Ret (opened, context), w1)) ∧
    store_wf (conversations (sendMessage E conversationId userMessage options w).2) ∧
    store_get conversationId
      (conversations (sendMessage E conversationId userMessage options w).2)
    = Some final ∧
    extends_in_place opened final.
Proof.
  intros Hwf.
  destruct (total_open_turn E conversationId userMessage options w)
    as ([opened context] & w1 & Hopen).
  destruct (open_turn_extends E conversationId userMessage options w Hwf)
    as (c' & Hheld & Hid & _ & _ & Hq).
  rewrite Hopen in Hheld, Hq. simpl in Hheld.
  destruct (Hq _ eq_refl) as [Heq _]. simpl in Heq. subst c'.
  destruct (answer_turn_in_place E options opened context w1 Hheld)
    as (final & Hext & [Hwf' Hget] & _).
  exists opened, context, final.
  rewrite (sendMessage_from_open_turn _ _ _ _ _ _ _ _ Hopen).
  split; [by exists w1 |]. split; [done |]. split; [| done].
  destruct Hext as [[Hfid _] _]. by rewrite <- Hid, <- Hfid.
Qed.

(** X26: the second turn of a conversation repeats the system prompt.  The
    first turn of a new conversation adds the system prompt and the user's
    message but records no url, since the url is recorded only where it is
    compared; so on the second turn the url counts as changed, whatever the
    page, and a second system prompt is added before the second user
    message.  Nothing in between is lost: the messages of the conversation
    after two turns are the system prompt and the first message, what the
    first turn added, the system prompt again and the second message, and
    what the second turn added. *)
Theorem second_turn_repeats_system_prompt (E : Env) conversationId first second
    options options' w :
  store_wf (conversations w) →
  store_get conversationId (conversations w) = None →
  ∃ w1 w2 conversation prompt t1 t2 added prompt' t3 t4 added',
    (sendMessage E conversationId first options w).2 = w1 ∧
    (sendMessage E conversationId second options' w1).2 = w2 ∧
    getConversation conversationId w2 = (Ret (Some conversation), w2) ∧
    AgentConversation.messages conversation
    = [ AIMessage.mk system prompt (Some t1) None None;
        AIMessage.mk user first (Some t2) None None ]
      ++ added
      ++ [ AIMessage.mk system prompt' (Some t3) None None;
           AIMessage.mk user second (Some t4) None None ]
      ++ added'.
Proof.
  intros Hwf Hnew.
  destruct (turn_leaves E conversationId first options w Hwf)
    as (opened & context & final & [w0 Hopen] & Hwf1 & Hget1 & [Hext1 Hurl1]).
  destruct (open_turn_returns _ _ _ _ _ _ _ _ Hopen)
    as (before & url & t1 & t2 & Hbefore & Hmessages & Hurl).
  rewrite Hnew in Hbefore. destruct Hbefore as [-> ->].
  specialize (Hurl eq_refl). simpl in Hmessages.
  set (w1 := (sendMessage E conversationId first options w).2) in *.
  destruct (turn_leaves E conversationId second options' w1 Hwf1)
    as (opened' & context' & final' & [w0' Hopen'] & Hwf2 & Hget2 & [Hext2 _]).
  destruct (open_turn_returns _ _ _ _ _ _ _ _ Hopen')
    as (before' & url' & t3 & t4 & Hbefore' & Hmessages' & _).
  rewrite Hget1 in Hbefore'. destruct Hbefore' as [-> ->].
  rewrite Hurl1, Hurl in Hmessages'. simpl in Hmessages'.
  rewrite orb_true_r in Hmessages'. simpl in Hmessages'.
  destruct Hext1 as (_ & _ & _ & [added Hadded]).
  destruct Hext2 as (_ & _ & _ & [added' Hadded']).
  exists w1, (sendMessage E conversationId second options' w1).2, final'.
  exists (contextual_prompt E context), t1, t2, added.
  exists (contextual_prompt E context'), t3, t4, added'.
  split; [done |]. split; [done |].
  split; [unfold getConversation; by rewrite Hget2 |].
  rewrite Hadded', Hmessages', Hadded, Hmessages.
  by rewrite <- !(assoc_L (++)).
Qed.

Lemma second_turn_repeats_system_prompt_witness :
  ∃ conversation,
    store_get "conversation-1"
      (conversations
         (sendMessage plain_env "conversation-1" "and then?" confirmed_options
            (sendMessage plain_env "conversation-1" "hello" confirmed_options
               ready_world).2).2)
    = Some conversation ∧
    (4 ≤ length (AgentConversation.messages conversation))%nat.
Proof.
  destruct (second_turn_repeats_system_prompt plain_env "conversation-1" "hello"
              "and then?" confirmed_options confirmed_options ready_world)
    as (w1 & w2 & conversation & ? & ? & ? & added & ? & ? & ? & added'
        & Hw1 & Hw2 & Hget & Hmessages).
  - split; [constructor | by intros ? ? ?%elem_of_nil].
  - reflexivity.
  - exists conversation. unfold getConversation in Hget.
    injection Hget as Hget. rewrite Hw1, Hw2. split; [exact Hget |].
    rewrite Hmessages, !length_app. simpl. lia.
Defined.

(** ** A page that answers, and the system prompt *)

Lemma open_turn_context (E : Env) conversationId userMessage options w conversation
    context w1 :
  open_turn E conversationId userMessage options w = (Ret (conversation, context), w1) →
  ∃ w0 w0',
    pages w0 = pages w ∧
    updateContext E (AgentExecutionOptions.pageId options)
      {| includeScreenshot := None; includeFullContent := None;
         includeInvisibleElements := None; maxContentLength := Some 2000;
         maxElementsPerType := None |} w0 = (Ret context, w0').
Proof.
  unfold open_turn. cbv zeta. intros Hrun.
  apply bind_inv in Hrun as (conv0 & w0 & Hcreate & Hrun).
  apply bind_inv in Hrun as (context' & w0' & Hupdate & Hrun).
  apply bind_inv in Hrun as ([changed conv1] & w2 & _ & Hrun).
  apply bind_inv in Hrun as (conv2 & w3 & _ & Hrun).
  apply bind_inv in Hrun as (t' & w4 & _ & Hrun).
  apply bind_inv in Hrun as (conv3 & w5 & _ & Hrun).
  injection Hrun as _ <- _.
  exists w0, w0'. split; [| exact Hupdate].
  assert (Hpages : steady (λ w w', pages w' = pages w)
                     (createOrGetConversation E conversationId
                        (AgentExecutionOptions.pageId options) VUndef)).
  { apply steady_createOrGetConversation; [| done | done].
    split; [by intros ? | intros ? ? ? ? ?; congruence]. }
  specialize (Hpages w). by rewrite Hcreate in Hpages.
Qed.

Lemma updateContext_answering (E : Env) pageId options w context w' :
  answering E pageId → pageId ∈ pages w →
  updateContext E pageId options w = (Ret context, w') →
  BrowserContext.currentUrl context = VUndef.
Proof.
  intros Ha Hin.
  destruct (extract_body_answering E pageId options w Ha Hin)
    as (context' & w1 & Hrun & _ & _ & Hundefined & _).
  unfold updateContext, extractContext.
  erewrite bind_ret by (apply try_catch_ret; exact Hrun).
  erewrite bind_ret by reflexivity. intros [= <- _]. apply Hundefined.
Qed.

(** X27: on a page that answers its probes, every turn repeats the system
    prompt.  The snapshot of such a page has no url (the probes' values are
    lost in the driver's wrapper), so the url of the conversation never
    equals it: on a registered page that answers every call, whatever the
    conversation holds, [sendMessage] adds a system prompt before the
    user's message, and the messages the conversation had stay in front. *)
Theorem live_page_turn_repeats_system_prompt (E : Env) conversationId userMessage
    options w :
  store_wf (conversations w) →
  answering E (AgentExecutionOptions.pageId options) →
  AgentExecutionOptions.pageId options ∈ pages w →
  ∃ w' conversation prompt t t' added,
    (sendMessage E conversationId userMessage options w).2 = w' ∧
    getConversation conversationId w' = (Ret (Some conversation), w') ∧
    AgentConversation.messages conversation
    = match store_get conversationId (conversations w) with
      | Some before => AgentConversation.messages before
      | None => []
      end
      ++ [ AIMessage.mk system prompt (Some t) None None;
           AIMessage.mk user userMessage (Some t') None None ]
      ++ added.
Proof.
  intros Hwf Ha Hin.
  destruct (turn_leaves E conversationId userMessage options w Hwf)
    as (opened & context & final & [w1 Hopen] & _ & Hget & [Hext _]).
  destruct (open_turn_returns _ _ _ _ _ _ _ _ Hopen)
    as (before & url & t & t' & Hbefore & Hmessages & _).
  destruct (open_turn_context _ _ _ _ _ _ _ _ Hopen) as (w0 & w0' & Hpages & Hupdate).
  rewrite <- Hpages in Hin.
  rewrite (updateContext_answering _ _ _ _ _ _ Ha Hin Hupdate) in Hmessages.
  assert (Hchanged : bool_decide (before = []) || negb (Js.truthy url)
                     || negb (Js.strict_eq url VUndef) = true).
  { destruct url; simpl; by rewrite ?orb_true_r. }
  rewrite Hchanged in Hmessages.
  destruct Hext as (_ & _ & _ & [added Hadded]).
  exists (sendMessage E conversationId userMessage options w).2, final,
    (contextual_prompt E context), t, t', added.
  split; [done |]. split; [unfold getConversation; by rewrite Hget |].
  rewrite Hadded, Hmessages, <- !(assoc_L (++)).
  by destruct (store_get conversationId (conversations w)); destruct Hbefore as [-> _].
Qed.

Lemma live_page_turn_repeats_system_prompt_witness :
  ∃ conversation,
    store_get "b"
      (conversations
         (sendMessage honest_env "b" "hello" confirmed_options busy_world).2)
    = Some conversation ∧
    (2 ≤ length (AgentConversation.messages conversation))%nat.
Proof.
  destruct (live_page_turn_repeats_system_prompt honest_env "b" "hello"
              confirmed_options busy_world)
    as (w' & conversation & ? & ? & ? & added & Hw' & Hget & Hmessages).
  - apply busy_world_wf.
  - apply honest_env_answering.
  - by vm_compute.
  - exists conversation. unfold getConversation in Hget.
    injection Hget as Hget. rewrite Hw'. split; [exact Hget |].
    rewrite Hmessages, !length_app. simpl. lia.
Defined.

(** ** A turn always says something *)

Lemma or_str_nonempty s d : d ≠ "" → Js.or_str s d ≠ "".
Proof. unfold Js.or_str. intros Hd. by destruct (String.eqb_spec s "") as [->|Hs]. Qed.

Lemma run_tool_calls_says (E : Env) service tools response toolCalls options
    agentResponse conversation :
  AgentResponse.message agentResponse ≠ "" →
  yields (λ a, AgentResponse.message a.1 ≠ "")
    (run_tool_calls E service tools response toolCalls options agentResponse conversation).
Proof.
  intros Hsaid. unfold run_tool_calls.
  do 4 (apply yields_bind_any; intros ?).
  apply (yields_bind (λ message, message ≠ "")).
  - destruct (existsb _ _); [| by apply yields_mret].
    apply yields_bind_any. intros followUpResponse.
    apply yields_mret. by apply or_str_nonempty.
  - intros message Hmessage. do 2 (apply yields_bind_any; intros ?).
    by apply yields_mret.
Qed.

Lemma answer_turn_says (E : Env) options conversation context :
  yields (λ r, AgentResponse.message r ≠ "")
    (answer_turn E options conversation context).
Proof.
  unfold answer_turn. cbv zeta.
  do 2 (apply yields_bind_any; intros ?).
  apply (yields_bind (λ a, AgentResponse.message a.1 ≠ "")).
  - destruct (AIResponse.toolCalls _) as [[|toolCall rest]|].
    + do 2 (apply yields_bind_any; intros ?). by apply yields_mret, or_str_nonempty.
    + by apply run_tool_calls_says, or_str_nonempty.
    + do 2 (apply yields_bind_any; intros ?). by apply yields_mret, or_str_nonempty.
  - intros [agentResponse conversation'] Hsaid.
    do 2 (apply yields_bind_any; intros ?). by apply yields_mret.
Qed.

(** X28: the response of a turn always has a message: [sendMessage] always
    returns a response, and its message is not the empty string, whatever
    the backend answers (empty texts included), whatever the tools do, and
    whether or not the turn raised. *)
Theorem turn_response_is_never_empty (E : Env) conversationId userMessage options w :
  ∃ response w',
    sendMessage E conversationId userMessage options w = (Ret response, w') ∧
    AgentResponse.message response ≠ "".
Proof.
  apply total_yields; [apply total_sendMessage |].
  unfold sendMessage. apply yields_try_catch.
  - unfold sendMessage_body. apply yields_bind_any.
    intros [conversation context]. apply answer_turn_says.
  - intros msg. by apply yields_mret.
Qed.
